(** * gepick: tree core, tree model navigation, source tree and decorations

    A shallow embedding of
    - [packages/core/src/browser/tree/base-tree/tree.ts]
      ([CompositeTreeNode], [TreeImpl]),
    - [packages/core/src/browser/tree/base-tree/tree-model.ts]
      ([TreeModelImpl] navigation),
    - [packages/core/src/browser/tree/source-tree/source-tree.ts]
      ([SourceTree.toNode]),
    - [packages/core/src/browser/services/decorations-service.ts]
      ([DecorationProviderWrapper], [DecorationsServiceImpl]).

    JavaScript objects live in a heap indexed by references; two references
    are the same object ([===]) exactly when they are equal.  Optional
    properties are [option] fields, [None] standing for an absent (or
    [undefined]) property. *)

From stdpp Require Import gmap strings list fin_maps pretty.
From Stdlib Require Import ZArith Lia.

Open Scope Z_scope.
Open Scope nat_scope.

(** ** Objects and the heap *)

(** A reference to a JavaScript object. *)
Abbreviation loc := nat (only parsing).

(** [TreeElement] of the source tree ([tree-source.ts] is consumed through
    its interface only): [id] is a string or a number, [visible] and
    [expandByDefault] are optional, [hasElements] records whether the
    element is a [CompositeTreeElement].  Of a number used as an id the
    code reads whether it is falsy ([0], [NaN]) and what [String(id)] is,
    and the number is just that here. *)
Inductive ElementId :=
| IdString (s : string)
| IdNumber (falsy : bool) (String_id : string).

Record TreeElement := mkElement {
  el_id : option ElementId;
  el_visible : option bool;
  el_hasElements : bool;
  el_expandByDefault : option bool
}.

(** A tree node object.  [id] and [parent] are the two properties every
    [TreeNode] carries; the others are present or not, which is what the
    [is] type guards test with [in]. *)
Record node := mkNode {
  id : string;
  name : option string;
  visible : option bool;
  parent : option loc;
  previousSibling : option loc;
  nextSibling : option loc;
  busy : option Z;
  children : option (list loc);
  selected : option bool;
  expanded : option bool;
  element : option TreeElement
}.

Definition set_links (p pr nx : option loc) (n : node) : node :=
  mkNode (id n) (name n) (visible n) p pr nx (busy n) (children n)
         (selected n) (expanded n) (element n).

Definition set_previousSibling (pr : option loc) (n : node) : node :=
  mkNode (id n) (name n) (visible n) (parent n) pr (nextSibling n) (busy n)
         (children n) (selected n) (expanded n) (element n).

Definition set_nextSibling (nx : option loc) (n : node) : node :=
  mkNode (id n) (name n) (visible n) (parent n) (previousSibling n) nx (busy n)
         (children n) (selected n) (expanded n) (element n).

Definition set_children (cs : option (list loc)) (n : node) : node :=
  mkNode (id n) (name n) (visible n) (parent n) (previousSibling n)
         (nextSibling n) (busy n) cs (selected n) (expanded n) (element n).

Definition set_busy (b : option Z) (n : node) : node :=
  mkNode (id n) (name n) (visible n) (parent n) (previousSibling n)
         (nextSibling n) b (children n) (selected n) (expanded n) (element n).

Definition set_expanded (e : option bool) (n : node) : node :=
  mkNode (id n) (name n) (visible n) (parent n) (previousSibling n)
         (nextSibling n) (busy n) (children n) (selected n) e (element n).

Definition set_element_parent (e : TreeElement) (p : loc) (n : node) : node :=
  mkNode (id n) (name n) (visible n) (Some p) (previousSibling n)
         (nextSibling n) (busy n) (children n) (selected n) (expanded n)
         (Some e).

(** Reading a property through a reference. *)
Definition field {A} (f : node → option A) (h : gmap nat node) (l : loc)
  : option A := h !! l ≫= f.

Definition id_of (h : gmap nat node) (l : loc) : option string :=
  id <$> h !! l.

(** What an observer of the tree hears. *)
Inductive event :=
| Changed
| NodeRefreshed (l : loc)
| DidChangeBusy (l : loc) (b : Z)
| ConsoleError (parentId rootId : string).

(** The state of a [TreeImpl]: the objects, the Node Store [nodes]
    (a JavaScript object used as a map from id to node), [_root], and the
    events fired so far (most recent last). *)
Record TreeState := mkTree {
  heap : gmap nat node;
  nodes : gmap string nat;
  root : option loc;
  log : list event
}.

Definition with_heap (h : gmap nat node) (st : TreeState) : TreeState :=
  mkTree h (nodes st) (root st) (log st).

Definition with_nodes (ns : gmap string nat) (st : TreeState) : TreeState :=
  mkTree (heap st) ns (root st) (log st).

Definition fire (e : event) (st : TreeState) : TreeState :=
  mkTree (heap st) (nodes st) (root st) (log st ++ [e]).

(** [TreeNode.equals(left, right)]:
    [left === right || (!!left && !!right && left.id === right.id)].  It is
    declared here, ahead of the functions of [CompositeTreeNode] that call
    it. *)
Definition TreeNode_equals (h : gmap nat node) (left right : option loc)
    : bool :=
  bool_decide (left = right)
  || match left, right with
     | Some l, Some r =>
         match h !! l, h !! r with
         | Some a, Some b => bool_decide (id a = id b)
         | _, _ => false
         end
     | _, _ => false
     end.

(** ** [CompositeTreeNode] *)

Module CompositeTreeNode.

(** [isObject(node) && 'children' in node] *)
Definition is_ (h : gmap nat node) (l : loc) : bool :=
  match field children h l with Some _ => true | None => false end.

(** [parent.children[index - 1]]: index [-1] is out of range. *)
Definition before (cs : list loc) (index : nat) : option loc :=
  match index with 0 => None | S i => cs !! i end.

(** [setParent(child, index, parent)] *)
Definition setParent (child : loc) (index : nat) (parent : loc)
    (h : gmap nat node) : gmap nat node :=
  let cs := default [] (field children h parent) in
  let previousSibling := before cs index in
  let nextSibling := cs !! S index in
  let h1 := alter (set_links (Some parent) previousSibling nextSibling)
                  child h in
  let h2 := match previousSibling with
            | Some p => alter (set_nextSibling (Some child)) p h1
            | None => h1
            end in
  match nextSibling with
  | Some n => alter (set_previousSibling (Some child)) n h2
  | None => h2
  end.

(** [children.findIndex(value => value.id === child.id)] *)
Fixpoint findIndex (h : gmap nat node) (cid : option string)
    (cs : list loc) : option nat :=
  match cs with
  | [] => None
  | c :: cs' =>
      if decide (id_of h c = cid) then Some 0
      else S <$> findIndex h cid cs'
  end.

(** [removeChild(parent, child)]; the array is spliced in place, and the
    neighbours are taken from the [child] argument. *)
Definition removeChild (parent child : loc) (h : gmap nat node)
    : gmap nat node :=
  let cs := default [] (field children h parent) in
  match findIndex h (id_of h child) cs with
  | None => h
  | Some index =>
      let h1 := alter (set_children (Some (delete index cs))) parent h in
      let previousSibling := field previousSibling h1 child in
      let nextSibling := field nextSibling h1 child in
      let h2 := match previousSibling with
                | Some p => alter (set_nextSibling nextSibling) p h1
                | None => h1
                end in
      match nextSibling with
      | Some n => alter (set_previousSibling previousSibling) n h2
      | None => h2
      end
  end.

(** [getFirstChild(parent)]: [parent.children[0]] *)
Definition getFirstChild (h : gmap nat node) (par : loc) : option loc :=
  field children h par ≫= head.

(** [getLastChild(parent)]: [parent.children[parent.children.length - 1]],
    which is index [-1], out of range, for an empty array. *)
Definition getLastChild (h : gmap nat node) (par : loc) : option loc :=
  field children h par ≫= last.

(** [isAncestor(parent, child)]; the recursion follows [child.parent] and
    is bounded by [fuel] ([None]: the chain of parents is longer). *)
Fixpoint isAncestor (fuel : nat) (h : gmap nat node) (par : loc)
    (child : option loc) : option bool :=
  match fuel with
  | 0 => None
  | S k =>
      match child with
      | None => Some false
      | Some c =>
          if TreeNode_equals h (Some par) (field parent h c) then Some true
          else isAncestor k h par (field parent h c)
      end
  end.

(** [indexOf(parent, node)]; [None] is [-1].  [parent] is a composite
    node: it has [children]. *)
Definition indexOf (h : gmap nat node) (par : loc) (n : option loc)
    : option nat :=
  match n with
  | None => None
  | Some _ =>
      fst <$> list_find (λ child, TreeNode_equals h n (Some child) = true)
                        (default [] (field children h par))
  end.

(** [addChild(parent, child)]: a child with the same id is replaced where
    it stands ([children.splice(index, 1, child)]), another child is pushed;
    [None] when [parent] has no [children] to search (a [TypeError]). *)
Definition addChild (par child : loc) (h : gmap nat node)
    : option (gmap nat node) :=
  cs ← field children h par;
  match findIndex h (id_of h child) cs with
  | Some index =>
      Some (setParent child index par
              (alter (set_children (Some (<[index := child]> cs))) par h))
  | None =>
      Some (setParent child (length (cs ++ [child]) - 1) par
              (alter (set_children (Some (cs ++ [child]))) par h))
  end.

(** [addChildren(parent, children)] *)
Fixpoint addChildren (par : loc) (cs : list loc) (h : gmap nat node)
    : option (gmap nat node) :=
  match cs with
  | [] => Some h
  | child :: rest => addChild par child h ≫= addChildren par rest
  end.

End CompositeTreeNode.

(** ** [TreeImpl]: the Node Store *)

(** [array.forEach((x, index) => ...)] threading a state, in a computation
    that can run out of fuel. *)
Fixpoint forEach {St A} (f : A → nat → St → option St) (l : list A)
    (index : nat) (s : St) : option St :=
  match l with
  | [] => Some s
  | x :: l' =>
      match f x index s with
      | Some s' => forEach f l' (S index) s'
      | None => None
      end
  end.

Module TreeImpl.

(** The Node Store [nodes] is an object literal, [{}]: under a key it does
    not own it answers what [Object.prototype] has under that key.  These
    are the keys of [Object.prototype]; assigning under the last of them
    replaces the prototype instead of making a property. *)
Definition Object_prototype : list string :=
  ["constructor"; "hasOwnProperty"; "isPrototypeOf";
   "propertyIsEnumerable"; "toLocaleString"; "toString"; "valueOf";
   "__defineGetter__"; "__defineSetter__"; "__lookupGetter__";
   "__lookupSetter__"; "__proto__"].

(** An id under which the store holds what was filed there and nothing
    else. *)
Definition ordinary (i : string) : Prop := i ∉ Object_prototype.

(** What [this.nodes[id]] evaluates to in a store whose prototype is
    [Object.prototype]: the node filed under the id, the object that
    [Object.prototype] has under it (a function, or the prototype itself),
    or [undefined]. *)
Inductive stored :=
| Own (l : loc)
| Inherited (key : string)
| Absent.

Definition nodes_at (st : TreeState) (i : string) : stored :=
  match nodes st !! i with
  | Some l => Own l
  | None => if bool_decide (i ∈ Object_prototype) then Inherited i else Absent
  end.

(** [getNode(id)], the node filed under the id.  What the store inherits
    under a key of [Object.prototype] is no node of the tree and is left
    out here: for an [ordinary] id this is [this.nodes[id]] exactly, see
    [nodes_at]. *)
Definition getNode (st : TreeState) (i : option string) : option loc :=
  i ≫= λ s, nodes st !! s.

(** [validateNode(node)] *)
Definition validateNode (st : TreeState) (n : option loc) : option loc :=
  getNode st (n ≫= id_of (heap st)).

(** [addNode(node)]; the recursion follows [children] and is bounded by
    [fuel] ([None]: the recursion is deeper than [fuel]). *)
Fixpoint addNode (fuel : nat) (n : loc) (st : TreeState)
    : option TreeState :=
  match fuel with
  | 0 => None
  | S k =>
      match heap st !! n with
      | None => None
      | Some nd =>
          let st1 := with_nodes (<[id nd := n]> (nodes st)) st in
          match children nd with
          | None => Some st1
          | Some cs =>
              forEach (λ child index s,
                addNode k child
                  (with_heap
                     (CompositeTreeNode.setParent child index n (heap s)) s))
                cs 0 st1
          end
      end
  end.

(** [removeNode(node)] *)
Fixpoint removeNode (fuel : nat) (n : loc) (st : TreeState)
    : option TreeState :=
  match fuel with
  | 0 => None
  | S k =>
      match heap st !! n with
      | None => None
      | Some nd =>
          let after :=
            match children nd with
            | None => Some st
            | Some cs => forEach (λ child _ s, removeNode k child s) cs 0 st
            end in
          (λ s, with_nodes (delete (id nd) (nodes s)) s) <$> after
      end
  end.

(** [getRootNode(node)] *)
Fixpoint getRootNode (fuel : nat) (h : gmap nat node) (n : loc)
    : option loc :=
  match fuel with
  | 0 => None
  | S k =>
      nd ← h !! n;
      match parent nd with
      | None => Some n
      | Some p => getRootNode k h p
      end
  end.

(** [node.busy || 0] *)
Definition busyOr0 (h : gmap nat node) (n : loc) : Z :=
  match field busy h n with
  | Some b => b
  | None => 0%Z
  end.

(** [doSetBusy(node)]; the event carries the value of [node.busy] that a
    listener reads when it is called. *)
Definition doSetBusy (n : loc) (st : TreeState) : TreeState :=
  let oldBusy := busyOr0 (heap st) n in
  let st1 :=
    with_heap (alter (set_busy (Some (oldBusy + 1)%Z)) n (heap st)) st in
  if decide (oldBusy = 0%Z) then fire (DidChangeBusy n (oldBusy + 1)%Z) st1
  else st1.

(** [doResetBusy(node)] *)
Definition doResetBusy (n : loc) (st : TreeState) : TreeState :=
  let oldBusy := busyOr0 (heap st) n in
  if decide (0 < oldBusy)%Z then
    let st1 :=
      with_heap (alter (set_busy (Some (oldBusy - 1)%Z)) n (heap st)) st in
    if decide ((oldBusy - 1)%Z = 0%Z) then
      fire (DidChangeBusy n (oldBusy - 1)%Z) st1
    else st1
  else st.

(** The part of [setChildren(parent, children)] that runs before its
    [await]: the root check, then [removeNode], the assignment of
    [children], [addNode], and the firing of [onNodeRefreshed].  The
    first component is the value [setChildren] will resolve to. *)
Definition setChildren (fuel : nat) (parent : loc) (cs : list loc)
    (st : TreeState) : option (option loc * TreeState) :=
  r ← getRootNode fuel (heap st) parent;
  rid ← id_of (heap st) r;
  pid ← id_of (heap st) parent;
  let foreign :=
    match nodes st !! rid with
    | Some r' => bool_decide (r' ≠ r)
    | None => false
    end in
  if foreign then Some (None, fire (ConsoleError pid rid) st)
  else
    st1 ← removeNode fuel parent st;
    st2 ← addNode fuel parent
            (with_heap (alter (set_children (Some cs)) parent (heap st1))
                       st1);
    Some (Some parent, fire (NodeRefreshed parent) st2).

(** [resolveChildren(parent)] as [TreeImpl] has it, which subclasses
    override: [Promise.resolve(Array.from(parent.children))]. *)
Definition resolveChildren (h : gmap nat node) (par : loc) : list loc :=
  default [] (field children h par).

(** What the surroundings decide while [refresh] is suspended: the array
    [resolveChildren] resolves to, at which [await] (if any) the 800 ms
    busy timer elapses, and whether the caller's token is cancelled when
    [refresh] resumes from the first and from the second [await]. *)
Inductive await_point := AwaitResolveChildren | AwaitSetChildren.

Record RefreshEnv := mkEnv {
  resolved : list loc;
  busyElapses : option await_point;
  cancelledAfterResolve : bool;
  cancelledAfterSetChildren : bool
}.

Definition elapse (here : await_point) (env : RefreshEnv) (p : loc)
    (st : TreeState) : TreeState :=
  match busyElapses env, here with
  | Some AwaitResolveChildren, AwaitResolveChildren => doSetBusy p st
  | Some AwaitSetChildren, AwaitSetChildren => doSetBusy p st
  | _, _ => st
  end.

(** [!raw ? this._root : this.validateNode(raw)] *)
Definition refreshTarget (raw : option loc) (st : TreeState) : option loc :=
  match raw with
  | None => root st
  | Some _ => validateNode st raw
  end.

(** [refresh(raw, cancellationToken)]; [token] says whether a token was
    supplied.  [busySource.cancel()] in the [finally] runs the listener
    [doMarkAsBusy] registered, which is [doResetBusy(parent)]. *)
Definition refresh (fuel : nat) (raw : option loc) (token : bool)
    (env : RefreshEnv) (st : TreeState) : option (option loc * TreeState) :=
  match refreshTarget raw st with
  | Some p =>
      if CompositeTreeNode.is_ (heap st) p then
        let st1 := elapse AwaitResolveChildren env p st in
        if token && cancelledAfterResolve env then
          Some (None, doResetBusy p st1)
        else
          '(result, st2) ← setChildren fuel p (resolved env) st1;
          let st3 :=
            match result with
            | Some _ => fire Changed (elapse AwaitSetChildren env p st2)
            | None => st2
            end in
          if token && cancelledAfterSetChildren env then
            Some (None, doResetBusy p st3)
          else
            Some (result, fire Changed (doResetBusy p st3))
      else Some (None, fire Changed st)
  | None => Some (None, fire Changed st)
  end.

(** [refresh] as a subclass of [TreeImpl] runs it: the call
    [this.resolveChildren(parent)] is the method of the subclass, which
    may write to the nodes before it resolves; its writes come before the
    busy timer here, and the two write different properties.  With a
    resolver that only returns an array, [resolved env], this is
    [refresh]. *)
Definition refresh_by
    (resolveChildren : loc → TreeState → option (list loc * TreeState))
    (fuel : nat) (raw : option loc) (token : bool)
    (env : RefreshEnv) (st : TreeState) : option (option loc * TreeState) :=
  match refreshTarget raw st with
  | Some p =>
      if CompositeTreeNode.is_ (heap st) p then
        '(children, st0) ← resolveChildren p st;
        let st1 := elapse AwaitResolveChildren env p st0 in
        if token && cancelledAfterResolve env then
          Some (None, doResetBusy p st1)
        else
          '(result, st2) ← setChildren fuel p children st1;
          let st3 :=
            match result with
            | Some _ => fire Changed (elapse AwaitSetChildren env p st2)
            | None => st2
            end in
          if token && cancelledAfterSetChildren env then
            Some (None, doResetBusy p st3)
          else
            Some (result, fire Changed (doResetBusy p st3))
      else Some (None, fire Changed st)
  | None => Some (None, fire Changed st)
  end.

(** [set root(root)] up to the call of [refresh]: the store is emptied
    and the root added. *)
Definition set_root_sync (fuel : nat) (r : option loc) (st : TreeState)
    : option TreeState :=
  let st1 := mkTree (heap st) ∅ r (log st) in
  match r with
  | Some l => addNode fuel l st1
  | None => Some st1
  end.

(** [set root(root)] with the [refresh(undefined, cancelRefresh.token)] it
    starts. *)
Definition set_root (fuel : nat) (r : option loc) (env : RefreshEnv)
    (st : TreeState) : option (option loc * TreeState) :=
  st2 ← set_root_sync fuel r st;
  refresh fuel None true env st2.

End TreeImpl.

(** ** Node kinds *)

Module TreeNode.

(** [!!node && (node.visible === undefined || node.visible)] *)
Definition isVisible (h : gmap nat node) (n : option loc) : bool :=
  match n ≫= (h !!.) with
  | Some nd => match visible nd with None => true | Some v => v end
  | None => false
  end.

End TreeNode.

Module SelectableTreeNode.

(** [TreeNode.is(node) && 'selected' in node] *)
Definition is_ (h : gmap nat node) (n : option loc) : bool :=
  match n ≫= field selected h with Some _ => true | None => false end.

(** [is(node) && TreeNode.isVisible(node)] *)
Definition isVisible (h : gmap nat node) (n : option loc) : bool :=
  is_ h n && TreeNode.isVisible h n.

(** [isSelected(node)]: [is(node) && node.selected] *)
Definition isSelected (h : gmap nat node) (n : option loc) : bool :=
  bool_decide (n ≫= field selected h = Some true).

(** [getVisibleParent(node)]; the recursion follows [node.parent] and is
    bounded by [fuel] ([None]: the chain of parents is longer). *)
Fixpoint getVisibleParent (fuel : nat) (h : gmap nat node) (n : option loc)
    : option (option loc) :=
  match fuel with
  | 0 => None
  | S k =>
      match n with
      | None => Some None
      | Some l =>
          if isVisible h (field parent h l) then Some (field parent h l)
          else getVisibleParent k h (field parent h l)
      end
  end.

End SelectableTreeNode.

Module ExpandableTreeNode.

(** Modelled from the spec: [ExpandableTreeNode.is] of
    [tree-expansion.ts], which is not among the sources.  An expandable
    node is a composite node that carries an [expanded] flag. *)
Definition is_ (h : gmap nat node) (l : loc) : bool :=
  CompositeTreeNode.is_ h l
  && match field expanded h l with Some _ => true | None => false end.

End ExpandableTreeNode.

(** ** Tree iterators *)

(** An iterator is what it has still to yield: a finite sequence, or a
    ring [copy] read from [index] on, which never ends. *)
Inductive TreeIterator :=
| Finite (rest : list loc)
| Ring (copy : list loc) (index : nat).

(** [iterator.next()]: the value ([None] when done) and the iterator
    afterwards. *)
Definition next (it : TreeIterator) : option loc * TreeIterator :=
  match it with
  | Finite [] => (None, it)
  | Finite (x :: rest) => (Some x, Finite rest)
  | Ring copy index =>
      (copy !! index,
       Ring copy (if decide (S index = length copy) then 0 else S index))
  end.

(** The [k]th value an iterator yields, counting from 0. *)
Fixpoint yields (it : TreeIterator) (k : nat) : option loc :=
  match k with
  | 0 => fst (next it)
  | S k' => yields (snd (next it)) k'
  end.

(** The two traversals of [tree-iterator.ts], which is not among the
    sources: the model is stated over any implementation whose iterators
    start with the node they are given. *)
Class TreeIterators := {
  TopDownTreeIterator : gmap nat node → loc → bool → list loc;
  BottomUpTreeIterator : gmap nat node → loc → bool → list loc;
  TopDown_starts h n prune : head (TopDownTreeIterator h n prune) = Some n;
  BottomUp_starts h n prune : head (BottomUpTreeIterator h n prune) = Some n
}.

Module Iterators.

(** [copy.indexOf(start)] *)
Definition indexOf (copy : list loc) (start : loc) : option nat :=
  fst <$> list_find (λ x, x = start) copy.

(** Modelled from the spec: [Iterators.cycle(elements, start)] of
    [tree-iterator.ts], the cycling iterator that treats a fixed list as a
    ring starting at a given node, wrapping past the end; without a start
    it begins at the first element. *)
Definition cycle (elements : list loc) (start : option loc)
    : TreeIterator :=
  Ring elements
       (match start with
        | Some s => default 0 (indexOf elements s)
        | None => 0
        end).

End Iterators.

(** ** [TreeModelImpl]: moving through the tree *)

(** The tree, the focused node of the focus service and the filtered nodes
    of the tree search. *)
Record ModelState := mkModel {
  tree : TreeState;
  focusedNode : option loc;
  filteredNodes : list loc
}.

Module TreeModelImpl.
Section with_iterators.
Context `{TreeIterators}.

(** [a ?? b] and the default of a parameter. *)
Definition orElse {A} (a b : option A) : option A :=
  match a with Some _ => a | None => b end.

(** [filteredNodes.includes(node)] *)
Definition includes (l : list loc) (n : loc) : bool := bool_decide (n ∈ l).

Definition getFocusedNode (m : ModelState) : option loc := focusedNode m.

(** [doGetNode(iterator)] *)
Definition doGetNode (iterator : TreeIterator) : option loc :=
  let '(_, iterator) := next iterator in
  fst (next iterator).

(** The [while] loop of [doGetNextNode]; on a ring with no node meeting
    the criterion it does not end ([None]: out of [fuel]). *)
Fixpoint doGetNextNode_loop (fuel : nat) (iterator : TreeIterator)
    (criterion : loc → bool) : option (option loc) :=
  match fuel with
  | 0 => None
  | S k =>
      match next iterator with
      | (None, _) => Some None
      | (Some value, iterator) =>
          if criterion value then Some (Some value)
          else doGetNextNode_loop k iterator criterion
      end
  end.

(** [doGetNextNode(iterator, criterion)] *)
Definition doGetNextNode (fuel : nat) (iterator : TreeIterator)
    (criterion : loc → bool) : option (option loc) :=
  let '(_, iterator) := next iterator in
  doGetNextNode_loop fuel iterator criterion.

(** [isVisibleSelectableNode(node)] *)
Definition isVisibleSelectableNode (m : ModelState) (n : loc) : bool :=
  SelectableTreeNode.isVisible (heap (tree m)) (Some n).

(** The four iterator factories; [None] is [undefined]. *)
Definition createFiltered (m : ModelState) (elements : list loc)
    (n : option loc) : option TreeIterator :=
  match n with
  | Some n' =>
      if includes (filteredNodes m) n' then
        Some (Iterators.cycle elements n)
      else None
  | None => Some (Iterators.cycle elements n)
  end.

Definition createBackwardTreeIterator (m : ModelState) (n : option loc)
    : option TreeIterator :=
  match filteredNodes m with
  | [] => (λ n, Finite (BottomUpTreeIterator (heap (tree m)) n false)) <$> n
  | _ => createFiltered m (reverse (filteredNodes m)) n
  end.

Definition createBackwardIterator (m : ModelState) (n : option loc)
    : option TreeIterator :=
  match filteredNodes m with
  | [] => (λ n, Finite (BottomUpTreeIterator (heap (tree m)) n true)) <$> n
  | _ => createFiltered m (reverse (filteredNodes m)) n
  end.

Definition createTreeIterator (m : ModelState) (n : option loc)
    : option TreeIterator :=
  match filteredNodes m with
  | [] => (λ n, Finite (TopDownTreeIterator (heap (tree m)) n false)) <$> n
  | _ => createFiltered m (filteredNodes m) n
  end.

Definition createIterator (m : ModelState) (n : option loc)
    : option TreeIterator :=
  match filteredNodes m with
  | [] => (λ n, Finite (TopDownTreeIterator (heap (tree m)) n true)) <$> n
  | _ => createFiltered m (filteredNodes m) n
  end.

(** [getPrevNode(node = this.getFocusedNode())] *)
Definition getPrevNode (m : ModelState) (n : option loc) : option loc :=
  let n := orElse n (getFocusedNode m) in
  createBackwardTreeIterator m n ≫= doGetNode.

(** [getNextNode(node = this.getFocusedNode())] *)
Definition getNextNode (m : ModelState) (n : option loc) : option loc :=
  let n := orElse n (getFocusedNode m) in
  createTreeIterator m n ≫= doGetNode.

(** [getNextSelectableNode(node = this.getFocusedNode() ?? this.root)] *)
Definition getNextSelectableNode (fuel : nat) (m : ModelState)
    (n : option loc) : option (option loc) :=
  let n := orElse n (orElse (getFocusedNode m) (root (tree m))) in
  match createIterator m n with
  | Some iterator =>
      doGetNextNode fuel iterator (isVisibleSelectableNode m)
  | None => Some None
  end.

(** [getPrevSelectableNode(node = this.getFocusedNode())] *)
Definition getPrevSelectableNode (fuel : nat) (m : ModelState)
    (n : option loc) : option (option loc) :=
  let n := orElse n (getFocusedNode m) in
  match n with
  | None => getNextSelectableNode fuel m (root (tree m))
  | Some _ =>
      match createBackwardIterator m n with
      | Some iterator =>
          doGetNextNode fuel iterator (isVisibleSelectableNode m)
      | None => Some None
      end
  end.

(** The fallback of "next" when nothing is focused, in the words of the
    specification: the first visible selectable node below the root. *)
Definition firstVisibleSelectable (m : ModelState) : option loc :=
  r ← root (tree m);
  find (isVisibleSelectableNode m)
       (tail (TopDownTreeIterator (heap (tree m)) r true)).

(** The fallback of "prev" when nothing is focused, in the words of the
    specification: the symmetric one, the last visible selectable node
    below the root. *)
Definition lastVisibleSelectable (m : ModelState) : option loc :=
  r ← root (tree m);
  find (isVisibleSelectableNode m)
       (rev (tail (TopDownTreeIterator (heap (tree m)) r true))).

End with_iterators.
End TreeModelImpl.

(** ** The traversals as the specification describes them *)

Module SpecIterators.

(** The children the traversal descends into: none for a leaf, and none
    for a composite that [pruneCollapsed] prunes because its [expanded]
    is not [true]. *)
Definition childrenOf (h : gmap nat node) (n : loc) (prune : bool)
    : list loc :=
  match field children h n with
  | Some cs =>
      if prune && negb (bool_decide (field expanded h n = Some true))
      then [] else cs
  | None => []
  end.

(** The nodes visited after [n] in its sub-tree. *)
Fixpoint descend (fuel : nat) (h : gmap nat node) (prune : bool) (n : loc)
    : list loc :=
  match fuel with
  | 0 => []
  | S k =>
      concat ((λ c, c :: descend k h prune c) <$> childrenOf h n prune)
  end.

(** Modelled from the spec: [TopDownTreeIterator] of [tree-iterator.ts],
    the pre-order traversal that visits a node and then its children in
    array order, skipping the children of a pruned node. *)
Definition topDown (h : gmap nat node) (n : loc) (prune : bool)
    : list loc :=
  n :: descend (size h) h prune n.

(** The last node visited below [n]: the deepest last child. *)
Fixpoint lastLeaf (fuel : nat) (h : gmap nat node) (prune : bool) (n : loc)
    : loc :=
  match fuel with
  | 0 => n
  | S k =>
      match last (childrenOf h n prune) with
      | Some c => lastLeaf k h prune c
      | None => n
      end
  end.

(** The nodes visited after [n] on the way up. *)
Fixpoint ascend (fuel : nat) (h : gmap nat node) (prune : bool) (n : loc)
    : list loc :=
  match fuel with
  | 0 => []
  | S k =>
      match field previousSibling h n with
      | Some s =>
          let l := lastLeaf (size h) h prune s in
          l :: ascend k h prune l
      | None =>
          match field parent h n with
          | Some p => p :: ascend k h prune p
          | None => []
          end
      end
  end.

(** Modelled from the spec: [BottomUpTreeIterator] of [tree-iterator.ts],
    the mirror traversal that goes from a node to the last visited leaf
    under its previous sibling, and ascends to the parent when there is
    no previous sibling. *)
Definition bottomUp (h : gmap nat node) (n : loc) (prune : bool)
    : list loc :=
  n :: ascend (size h) h prune n.

#[export] Instance iterators : TreeIterators := {|
  TopDownTreeIterator := topDown;
  BottomUpTreeIterator := bottomUp;
  TopDown_starts h n prune := eq_refl;
  BottomUp_starts h n prune := eq_refl
|}.

End SpecIterators.

(** ** [SourceTree] *)

Module SourceTree.

(** [element.id ? String(element.id) : `${parent.id}:${index}`]; the
    empty string is falsy, [index] is a count. *)
Definition computeId (element : TreeElement) (index : nat)
    (parentId : string) : string :=
  match el_id element with
  | Some (IdString s) =>
      if decide (s = EmptyString) then parentId +:+ ":" +:+ pretty index else s
  | Some (IdNumber falsy String_id) =>
      if falsy then parentId +:+ ":" +:+ pretty index else String_id
  | None => parentId +:+ ":" +:+ pretty index
  end.

(** [TreeElementNode.is(node)]: selectable, with an [element]. *)
Definition isTreeElementNode (h : gmap nat node) (l : loc) : bool :=
  SelectableTreeNode.is_ h (Some l)
  && match field element h l with Some _ => true | None => false end.

(** [CompositeTreeElementNode.is(node)] *)
Definition isCompositeTreeElementNode (h : gmap nat node) (l : loc)
    : bool :=
  isTreeElementNode h l && CompositeTreeNode.is_ h l
  && ExpandableTreeNode.is_ h l
  && bool_decide (field visible h l = Some true).

(** [if (ExpandableTreeNode.is(updated)) delete updated.expanded] *)
Definition dropExpanded (l : loc) (h : gmap nat node) : gmap nat node :=
  if ExpandableTreeNode.is_ h l then alter (set_expanded None) l h else h.

(** [if (CompositeTreeNode.is(updated)) delete updated.children] *)
Definition dropChildren (l : loc) (h : gmap nat node) : gmap nat node :=
  if CompositeTreeNode.is_ h l then alter (set_children None) l h else h.

(** The object literal [toNode] returns for an id that is not in the
    store. *)
Definition freshNode (element : TreeElement) (parent : loc) (i : string)
    (composite : option bool) : node :=
  mkNode i (Some i) None (Some parent) None None None
         (match composite with Some _ => Some [] | None => None end)
         (Some false) composite (Some element).

(** What [toNode] returns: a node, with the state the call leaves; or,
    under an id that the store does not own and [Object.prototype] has a
    property of, the object found there, which is no node of the tree.
    [toNode] has then assigned [element] and [parent] to that object of the
    runtime, and what the tree does with it is outside this model. *)
Inductive made :=
| Made (n : loc) (st : TreeState)
| NotANode (key : string).

(** [toNode(element, index, parent)]; a new object is the first free
    reference. *)
Definition toNode (element : TreeElement) (index : nat) (parent : loc)
    (st : TreeState) : option made :=
  parentId ← id_of (heap st) parent;
  let i := computeId element index parentId in
  match TreeImpl.nodes_at st i with
  | TreeImpl.Inherited key => Some (NotANode key)
  | found =>
      let existing :=
        match found with TreeImpl.Own l => Some l | _ => None end in
      let h0 :=
        match existing with
        | Some l => alter (set_element_parent element parent) l (heap st)
        | None => heap st
        end in
      let new := fresh (dom (heap st)) in
      if el_hasElements element then
        let expand := default false (el_expandByDefault element) in
        match existing with
        | Some updated =>
            let h1 :=
              if ExpandableTreeNode.is_ h0 updated then h0
              else alter (set_expanded (Some expand)) updated h0 in
            let h2 :=
              if CompositeTreeNode.is_ h1 updated then h1
              else alter (set_children (Some [])) updated h1 in
            Some (Made updated (with_heap h2 st))
        | None =>
            Some (Made new
                    (with_heap
                       (<[new := freshNode element parent i (Some expand)]>
                          h0) st))
        end
      else
        match existing with
        | Some updated =>
            let h1 :=
              if isCompositeTreeElementNode h0 updated then
                alter (set_children None) updated
                      (alter (set_expanded None) updated h0)
              else h0 in
            Some (Made updated
                    (with_heap
                       (dropChildren updated (dropExpanded updated h1)) st))
        | None =>
            Some (Made new
                    (with_heap (<[new := freshNode element parent i None]> h0)
                               st))
        end
  end.

(** The loop of [resolveChildren(parent)] over the elements that
    [resolveElements] produced; [None] also when [toNode] returns what is
    no node. *)
Fixpoint resolveChildren_loop (elements : list TreeElement) (index : nat)
    (parent : loc) (st : TreeState) : option (list loc * TreeState) :=
  match elements with
  | [] => Some ([], st)
  | element :: rest =>
      if decide (el_visible element = Some false) then
        resolveChildren_loop rest index parent st
      else
        match toNode element index parent st with
        | Some (Made n st1) =>
            '(ns, st2) ← resolveChildren_loop rest (S index) parent st1;
            Some (n :: ns, st2)
        | _ => None
        end
  end.

Definition resolveChildren (elements : list TreeElement) (parent : loc)
    (st : TreeState) : option (list loc * TreeState) :=
  resolveChildren_loop elements 0 parent st.

(** [refresh] of a [SourceTree], which inherits it; [elements] is what
    [resolveElements(parent)] produces. *)
Definition refresh (elements : list TreeElement) (fuel : nat)
    (raw : option loc) (token : bool) (env : TreeImpl.RefreshEnv)
    (st : TreeState) : option (option loc * TreeState) :=
  TreeImpl.refresh_by (λ parent st, resolveChildren elements parent st)
                      fuel raw token env st.



End SourceTree.

(** ** Busy markers over time *)

(** [doMarkAsBusy(node, ms, token)] is a timer and a listener on the token.
    The surroundings call it and cancel tokens at given times; the timers
    this sets fire in between. *)
Module BusyMarkers.

Inductive action :=
| MarkAsBusy (token : nat) (n : loc) (ms : Z)
| CancelToken (token : nat).

(** What [setTimeout] has pending: the timer of [timeout(ms, token)],
    after which [doMarkAsBusy] continues, or the listener that a token
    which is already cancelled calls after 0 ms. *)
Inductive timer :=
| TimeoutElapsed (token : nat) (n : loc)
| DeferredReset (n : loc).

Record State := mkState {
  tree_of : TreeState;
  timers : list (Z * timer);
  cancelled : list nat;
  listeners : list (nat * loc)
}.

Definition initial (st : TreeState) : State := mkState st [] [] [].

(** [setTimeout]: timers fire in the order of their time, and in the
    order they were set when the times are equal. *)
Fixpoint setTimeout (due : Z) (k : timer) (ts : list (Z * timer))
    : list (Z * timer) :=
  match ts with
  | [] => [(due, k)]
  | (d, k') :: rest =>
      if decide (d ≤ due)%Z then (d, k') :: setTimeout due k rest
      else (due, k) :: ts
  end.

(** A timer fires: [doMarkAsBusy] resumes after [await timeout(ms, token)],
    returns if the token is cancelled and calls [doSetBusy] otherwise. *)
Definition fireTimer (cancelled : list nat) (k : timer) (st : TreeState)
    : TreeState :=
  match k with
  | TimeoutElapsed token n =>
      if bool_decide (token ∈ cancelled) then st
      else TreeImpl.doSetBusy n st
  | DeferredReset n => TreeImpl.doResetBusy n st
  end.

(** Let the time pass until [t]. *)
Fixpoint elapseTimers (t : Z) (cancelled : list nat) (ts : list (Z * timer))
    (st : TreeState) : list (Z * timer) * TreeState :=
  match ts with
  | [] => ([], st)
  | (d, k) :: rest =>
      if decide (d ≤ t)%Z then
        elapseTimers t cancelled rest (fireTimer cancelled k st)
      else (ts, st)
  end.

Definition observe (t : Z) (s : State) : State :=
  let '(ts, st) := elapseTimers t (cancelled s) (timers s) (tree_of s) in
  mkState st ts (cancelled s) (listeners s).

(** The listeners [() => this.doResetBusy(node)] of a token, called in
    the order they were registered. *)
Definition notify (token : nat) (ls : list (nat * loc)) (st : TreeState)
    : TreeState :=
  foldl (λ st '(tok, n),
           if decide (tok = token) then TreeImpl.doResetBusy n st else st)
        st ls.

(** [clearTimeout] of the timers that wait on a token. *)
Definition clearTimeouts (token : nat) (ts : list (Z * timer))
    : list (Z * timer) :=
  List.filter (λ '(_, k), match k with
                          | TimeoutElapsed tok _ =>
                              negb (bool_decide (tok = token))
                          | DeferredReset _ => true
                          end) ts.

Definition perform (t : Z) (a : action) (s : State) : State :=
  let s := observe t s in
  match a with
  | MarkAsBusy token n ms =>
      if bool_decide (token ∈ cancelled s) then
        mkState (tree_of s) (setTimeout t (DeferredReset n) (timers s))
                (cancelled s) (listeners s)
      else
        mkState (tree_of s)
                (setTimeout (t + ms)%Z (TimeoutElapsed token n) (timers s))
                (cancelled s) (listeners s ++ [(token, n)])
  | CancelToken token =>
      if bool_decide (token ∈ cancelled s) then s
      else
        mkState (notify token (listeners s) (tree_of s))
                (clearTimeouts token (timers s))
                (token :: cancelled s) (listeners s)
  end.

(** The calls of a script, in order, each at its time. *)
Definition run (script : list (Z * action)) (s : State) : State :=
  foldl (λ s '(t, a), perform t a s) s script.

(** The calls of a script that are made until [t]. *)
Definition upTo (t : Z) (script : list (Z * action)) : list (Z * action) :=
  List.filter (λ '(t', _), bool_decide (t' ≤ t)%Z) script.

(** The tree at time [t]. *)
Definition treeAt (script : list (Z * action)) (st : TreeState) (t : Z)
    : TreeState :=
  tree_of (observe t (run (upTo t script) (initial st))).

(** [node.busy || 0] at time [t], and the events heard until then. *)
Definition busyAt (script : list (Z * action)) (st : TreeState) (t : Z)
    (n : loc) : Z :=
  TreeImpl.busyOr0 (heap (treeAt script st t)) n.

Definition heardUntil (script : list (Z * action)) (st : TreeState) (t : Z)
    : list event :=
  log (treeAt script st t).

(** Marker [A] succeeds after 800 ms and is cancelled at [tA]; marker [B]
    is cancelled at 400 ms. *)
Definition two_markers (n : loc) (A B : nat) (tA : Z)
    : list (Z * action) :=
  [(0, MarkAsBusy A n 800); (0, MarkAsBusy B n 800);
   (400, CancelToken B); (tA, CancelToken A)]%Z.

End BusyMarkers.

(** ** Decorations *)

(** A URI as the sequence of segments the prefix tree is keyed by. *)
Abbreviation URI := (list string) (only parsing).

Record Decoration := mkDecoration {
  weight : option Z;
  colorId : option string;
  letter : option string;
  tooltip : option string;
  bubble : option bool
}.

#[global] Instance Decoration_eq_dec : EqDecision Decoration.
Proof. solve_decision. Defined.

(** What the cache of a provider holds for a URI: a
    [DecorationDataRequest] (an object, known by its number), a decoration,
    or [undefined]. *)
Inductive slot :=
| Request (request : nat)
| Resolved (d : Decoration)
| Undefined.

#[global] Instance slot_eq_dec : EqDecision slot.
Proof. solve_decision. Defined.

(** What [provideDecorations] returns when it returns: a value now, or a
    promise.  A call that throws instead is in [Thrower] below. *)
Inductive provided :=
| Now (d : option Decoration)
| Later.

(** How a promise of a provider settles.  An error is its [name] and its
    [message], or a value that is no [Error]. *)
Inductive error :=
| ErrorObject (name message : string)
| NotAnError.

Inductive outcome :=
| Fulfilled (d : option Decoration)
| Rejected (e : error).

(** A [DecorationDataRequest]: the URI it was made for, whether its
    [source] is cancelled, and whether the promise has settled. *)
Record request := mkRequest {
  req_uri : list string;
  req_cancelled : bool;
  req_settled : bool
}.

(** A [DecorationProviderWrapper]: the provider (what its [n]th call
    returns for a URI), the cache [data], the requests made so far, and the
    number of calls of [provideDecorations]. *)
Record Wrapper := mkWrapper {
  provider : nat → list string → provided;
  data : gmap (list string) slot;
  requests : list request;
  calls : nat
}.

Module TernarySearchTree.

(** Modelled from the spec: [TernarySearchTree] of the common package, a
    prefix tree keyed by URI segments.  [get] reads [undefined] for a
    missing key and for a key set to [undefined]. *)
Definition get (m : gmap (list string) slot) (uri : list string) : slot :=
  default Undefined (m !! uri).

(** Modelled from the spec: [findSuperstr(uri)], the values stored under
    the descendants of [uri], the keys that extend it strictly. *)
Definition findSuperstr (m : gmap (list string) slot) (uri : list string)
    : list slot :=
  snd <$> filter (λ kv, uri `prefix_of` kv.1 ∧ uri ≠ kv.1) (map_to_list m).

End TernarySearchTree.

Module DecorationProviderWrapper.

Definition with_data (m : gmap (list string) slot) (w : Wrapper)
    : Wrapper :=
  mkWrapper (provider w) m (requests w) (calls w).

(** [keepItem(uri, data)]: [data || undefined] is stored. *)
Definition keepItem (uri : list string) (d : option Decoration)
    (w : Wrapper) : option Decoration * Wrapper :=
  (d, with_data (<[uri := match d with
                          | Some d => Resolved d
                          | None => Undefined
                          end]> (data w)) w).

(** [pendingRequest.source.cancel()] *)
Definition cancel (r : nat) (w : Wrapper) : Wrapper :=
  mkWrapper (provider w) (data w)
            (alter (λ q, mkRequest (req_uri q) true (req_settled q)) r
                   (requests w))
            (calls w).

(** [fetchData(uri)] *)
Definition fetchData (uri : list string) (w : Wrapper)
    : option Decoration * Wrapper :=
  let w1 :=
    match TernarySearchTree.get (data w) uri with
    | Request r => with_data (delete uri (data w)) (cancel r w)
    | _ => w
    end in
  let dataOrThenable := provider w1 (calls w1) uri in
  let w2 := mkWrapper (provider w1) (data w1) (requests w1) (S (calls w1)) in
  match dataOrThenable with
  | Now d => keepItem uri d w2
  | Later =>
      let r := length (requests w2) in
      (None,
       mkWrapper (provider w2) (<[uri := Request r]> (data w2))
                 (requests w2 ++ [mkRequest uri false false]) (calls w2))
  end.

(** [getOrRetrieve(uri, includeChildren, callback)]: the calls of
    [callback], in order, as pairs [(data, isChild)]. *)
Definition getOrRetrieve (uri : list string) (includeChildren : bool)
    (w : Wrapper) : list (Decoration * bool) * Wrapper :=
  let '(item, w1) :=
    match TernarySearchTree.get (data w) uri with
    | Undefined =>
        let '(d, w1) := fetchData uri w in
        (match d with Some d => Resolved d | None => Undefined end, w1)
    | item => (item, w)
    end in
  let own :=
    match item with
    | Resolved d => [(d, false)]
    | _ => []
    end in
  let below :=
    if includeChildren then
      omap (λ value, match value with
                     | Resolved d => Some (d, true)
                     | _ => None
                     end)
           (TernarySearchTree.findSuperstr (data w1) uri)
    else [] in
  (own ++ below, w1).

(** [err instanceof Error && err.name === 'Canceled'
     && err.message === 'Canceled'] *)
Definition isCanceled (e : error) : bool :=
  match e with
  | ErrorObject name message =>
      bool_decide (name = "Canceled") && bool_decide (message = "Canceled")
  | NotAnError => false
  end.

(** The promise of request [r] settles: the [then] and [catch] handlers
    that [fetchData] attached run.  The first component is how the
    chained promise [thenable] settles: [None] when it is fulfilled,
    the error when it is rejected. *)
Definition settle (r : nat) (o : outcome) (w : Wrapper)
    : option error * Wrapper :=
  match requests w !! r with
  | Some q =>
      if req_settled q then (None, w)
      else
        let w1 :=
          mkWrapper (provider w) (data w)
                    (<[r := mkRequest (req_uri q) (req_cancelled q) true]>
                       (requests w))
                    (calls w) in
        let current :=
          bool_decide (TernarySearchTree.get (data w) (req_uri q)
                       = Request r) in
        match o with
        | Fulfilled d =>
            if current then (None, (keepItem (req_uri q) d w1).2)
            else (None, w1)
        | Rejected e =>
            if negb (isCanceled e) && current then
              (None, with_data (delete (req_uri q) (data w1)) w1)
            else (None, w1)
        end
  | None => (None, w)
  end.

End DecorationProviderWrapper.

Module DecorationsServiceImpl.

(** The loop of [getDecoration] over the wrappers. *)
Fixpoint getDecoration_loop (uri : list string) (includeChildren : bool)
    (ws : list Wrapper) : list Decoration * list Wrapper :=
  match ws with
  | [] => ([], [])
  | w :: rest =>
      let '(callbacks, w') :=
        DecorationProviderWrapper.getOrRetrieve uri includeChildren w in
      let pushed :=
        omap (λ '(deco, isChild),
                if negb isChild || bool_decide (bubble deco = Some true)
                then Some deco else None)
             callbacks in
      let '(more, rest') := getDecoration_loop uri includeChildren rest in
      (pushed ++ more, w' :: rest')
  end.

(** [getDecoration(uri, includeChildren)] *)
Definition getDecoration (uri : list string) (includeChildren : bool)
    (ws : list Wrapper) : list Decoration * list Wrapper :=
  getDecoration_loop uri includeChildren ws.

(** [registerDecorationsProvider(provider)] *)
Definition registerDecorationsProvider
    (p : nat → list string → provided) (ws : list Wrapper) : list Wrapper :=
  ws ++ [mkWrapper p ∅ [] 0].


End DecorationsServiceImpl.

(** ** Providers that throw *)

(** [provideDecorations] may also throw when it is called, and neither
    [fetchData] nor its callers catch that.  A provider that may throw is a
    wrapper together with what the [n]th call of its provider throws for a
    URI, if anything; where it throws nothing, the provider answers as the
    wrapper says, and [Throwing.getDecoration] is
    [DecorationsServiceImpl.getDecoration] on the wrappers. *)
Record Thrower := mkThrower {
  wrapper_of : Wrapper;
  throws : nat → list string → option error
}.

Module Throwing.


(** [getOrRetrieve(uri, includeChildren, callback)]: what it throws, or
    the calls of [callback].  It calls [fetchData] for a URI without an
    entry only, so there is no request to cancel before the provider is
    called; the call that throws is counted. *)
Definition getOrRetrieve (uri : list string) (includeChildren : bool)
    (t : Thrower) : (error + list (Decoration * bool)) * Thrower :=
  let w := wrapper_of t in
  match TernarySearchTree.get (data w) uri, throws t (calls w) uri with
  | Undefined, Some e =>
      (inl e,
       mkThrower (mkWrapper (provider w) (data w) (requests w) (S (calls w)))
                 (throws t))
  | _, _ =>
      let '(callbacks, w') :=
        DecorationProviderWrapper.getOrRetrieve uri includeChildren w in
      (inr callbacks, mkThrower w' (throws t))
  end.

(** The loop of [getDecoration] over the wrappers, which ends where a
    wrapper throws. *)
Fixpoint getDecoration_loop (uri : list string) (includeChildren : bool)
    (ts : list Thrower) : (error + list Decoration) * list Thrower :=
  match ts with
  | [] => (inr [], [])
  | t :: rest =>
      match getOrRetrieve uri includeChildren t with
      | (inl e, t') => (inl e, t' :: rest)
      | (inr callbacks, t') =>
          let pushed :=
            omap (λ '(deco, isChild),
                    if negb isChild || bool_decide (bubble deco = Some true)
                    then Some deco else None)
                 callbacks in
          match getDecoration_loop uri includeChildren rest with
          | (inl e, rest') => (inl e, t' :: rest')
          | (inr more, rest') => (inr (pushed ++ more), t' :: rest')
          end
      end
  end.

(** [getDecoration(uri, includeChildren)]: what it throws, or the array it
    returns. *)
Definition getDecoration (uri : list string) (includeChildren : bool)
    (ts : list Thrower) : (error + list Decoration) * list Thrower :=
  getDecoration_loop uri includeChildren ts.

End Throwing.

(** ** The listener on [provider.onDidChange] *)




Module Listener.





End Listener.

(** What happens to a decorations service, one step at a time: a call of
    [getDecoration]; a provider firing [onDidChange]; the call that a run
    of the listener awaits settling; the promise of a request settling;
    the registration of a provider being disposed of. *)
Inductive step :=
| GetDecoration (uri : list string) (includeChildren : bool)
| DidChange (provider : nat) (uris : option (list (list string)))
| Resume (provider : nat) (run : nat) (o : outcome)
| Settle (provider : nat) (r : nat) (o : outcome)
| Dispose (provider : nat).





(** A request is in flight when its promise has not settled and its token
    is not cancelled. *)
Definition in_flight_in (rs : list request) (r : nat) (uri : list string)
    : Prop :=
  ∃ q, rs !! r = Some q ∧ req_uri q = uri
       ∧ req_settled q = false ∧ req_cancelled q = false.


(** What holds of a cache and its requests at every point: a request that
    is the entry of the cache for a URI was made for that URI and is not
    cancelled, and a request in flight is the entry of the cache for its
    URI. *)
Definition cache_ok (m : gmap (list string) slot) (rs : list request)
    : Prop :=
  (∀ u r, m !! u = Some (Request r) →
          ∃ q, rs !! r = Some q ∧ req_uri q = u ∧ req_cancelled q = false)
  ∧ (∀ r u, in_flight_in rs r u → m !! u = Some (Request r)).

Definition wrapper_ok (w : Wrapper) : Prop :=
  cache_ok (data w) (requests w).



(** The decoration a wrapper has resolved for a URI, if any. *)
Definition resolved_at (w : Wrapper) (uri : list string) (d : Decoration)
    : Prop :=
  data w !! uri = Some (Resolved d).

(** The decoration a wrapper has resolved for a strict descendant. *)
Definition resolved_below (w : Wrapper) (uri : list string) (d : Decoration)
    : Prop :=
  ∃ u, uri `prefix_of` u ∧ uri ≠ u ∧ data w !! u = Some (Resolved d).

(** ** Reachable nodes and the link invariant *)

(** The nodes below [l] through [children], in pre-order ([None]: deeper
    than [fuel], or a reference to no object). *)
Fixpoint reach (fuel : nat) (h : gmap nat node) (l : loc)
    : option (list loc) :=
  match fuel with
  | 0 => None
  | S k =>
      nd ← h !! l;
      match children nd with
      | None => Some [l]
      | Some cs => (λ lss, l :: concat lss) <$> mapM (reach k h) cs
      end
  end.

(** [c], at index [i] of [p.children = cs], points to [p] and to its
    neighbours in [cs]. *)
Definition linked (h : gmap nat node) (p : loc) (cs : list loc) (i : nat)
    (c : loc) : Prop :=
  field parent h c = Some p
  ∧ field previousSibling h c = CompositeTreeNode.before cs i
  ∧ field nextSibling h c = cs !! S i.

Definition links_ok (h : gmap nat node) (p : loc) : Prop :=
  ∀ cs i c, field children h p = Some cs → cs !! i = Some c →
    linked h p cs i c.

(** Two heaps that differ in [parent], [previousSibling] and [nextSibling]
    only. *)
Definition same_shape (h h' : gmap nat node) : Prop :=
  ∀ x, set_links None None None <$> h !! x
       = set_links None None None <$> h' !! x.

(** Two heaps that differ in [busy] only. *)
Definition same_but_busy (h h' : gmap nat node) : Prop :=
  ∀ x, set_busy None <$> h !! x = set_busy None <$> h' !! x.

(** No busy count of the tree is negative. *)
Definition busy_nonneg (st : TreeState) : Prop :=
  ∀ x, (0 ≤ TreeImpl.busyOr0 (heap st) x)%Z.


(** What [addNode] leaves behind when it is run on a node whose reachable
    nodes are [ls]: only links are written, only strictly below the node,
    and every composite among [ls] has its children linked. *)
Definition addNode_post (st st' : TreeState) (ls : list nat) : Prop :=
  same_shape (heap st) (heap st')
  ∧ (∀ x, x ∉ tail ls → heap st' !! x = heap st !! x)
  ∧ (∀ p, p ∈ ls → links_ok (heap st') p)
  ∧ root st' = root st ∧ log st' = log st.

(** The structural invariant of the nodes [ls] below [top]: every node but
    [top] sits at exactly one index of the [children] of a node of [ls],
    which its [parent] names, and its sibling links are the neighbours in
    that array. *)
Definition tree_invariant (h : gmap nat node) (top : loc) (ls : list nat)
    : Prop :=
  ∀ x, x ∈ ls → x ≠ top →
    ∃ p cs i, p ∈ ls ∧ field children h p = Some cs ∧ cs !! i = Some x
              ∧ (∀ j, cs !! j = Some x → j = i) ∧ linked h p cs i x.

(** ** Example trees *)

Module Examples.

Definition leaf (i : string) : node :=
  mkNode i None None None None None None None (Some false) None None.

Definition composite (i : string) (cs : list loc) : node :=
  mkNode i None None None None None None (Some cs) (Some false) (Some true)
         None.

Definition quiet (cs : list loc) : TreeImpl.RefreshEnv :=
  TreeImpl.mkEnv cs None false false.

(** A root without children, and a detached leaf. *)
Definition lone_root : TreeState :=
  mkTree (<[0 := composite "root" []]> (<[1 := leaf "a"]> ∅))
         {["root" := 0]} (Some 0) [].

(** [root → [dir1 → [file1, file2], dir2]], not yet linked. *)
Definition three_levels : TreeState :=
  mkTree (<[0 := composite "root" [1; 2]]>
          (<[1 := composite "dir1" [3; 4]]>
           (<[2 := composite "dir2" []]>
            (<[3 := leaf "file1"]> (<[4 := leaf "file2"]> ∅)))))
         ∅ None [].

(** The lone root after a refresh whose [resolveChildren] yields the
    same object twice. *)
Definition after_duplicate : TreeState :=
  default lone_root
    (snd <$> TreeImpl.refresh 3 None false (quiet [1; 1]) lone_root).



(** A store whose node "stale" hangs below another object with the id
    of the root. *)
Definition foreign_tree : TreeState :=
  mkTree (<[0 := composite "root" [1]]>
          (<[1 := set_links (Some 0) None None (leaf "a")]>
           (<[5 := composite "root" [6]]>
            (<[6 := set_links (Some 5) None None (composite "stale" [])]>
               ∅))))
         (<["root" := 0]> (<["a" := 1]> (<["stale" := 6]> ∅)))
         (Some 0) [].

(** The three levels, linked, with nothing focused and no filter. *)
Definition unfocused : ModelState :=
  mkModel
    (default three_levels (TreeImpl.set_root_sync 3 (Some 0) three_levels))
    None [].

(** The same, with [file1] focused. *)
Definition on_file1 : ModelState :=
  mkModel (tree unfocused) (Some 3) [].

(** The same, with [file1] focused and a filter that keeps the files and
    [dir2]. *)
Definition filtered_on_file1 : ModelState :=
  mkModel (tree unfocused) (Some 3) [3; 4; 2].

(** A source tree whose root has one child, the selected node "x". *)
Definition element_x : TreeElement :=
  mkElement (Some (IdString "x")) None false None.


Definition source_tree : TreeState :=
  mkTree (<[0 := mkNode "__source__" (Some "__source__") (Some false) None
                   None None None (Some [1]) (Some false) None None]>
          (<[1 := mkNode "x" (Some "x") None (Some 0) None None None None
                    (Some true) None (Some element_x)]> ∅))
         (<["__source__" := 0]> (<["x" := 1]> ∅)) (Some 0) [].





(** Decorations: a provider that answers at once with [M] for [file1],
    and one that answers later for every URI. *)
Definition M : Decoration :=
  mkDecoration None None (Some "M") None None.


Definition file1_uri : list string := ["file"; "dir1"; "file1"].
Definition dir1_uri : list string := ["file"; "dir1"].

Definition sync_provider (_ : nat) (uri : list string) : provided :=
  if decide (uri = file1_uri) then Now (Some M) else Now None.

Definition async_provider (_ : nat) (_ : list string) : provided := Later.


Definition one_async_provider : list Wrapper :=
  DecorationsServiceImpl.registerDecorationsProvider async_provider [].



(** The wrapper of the asynchronous provider once [dir1] has been
    asked for: request 0 is pending. *)
Definition pending_dir1 : Wrapper :=
  (DecorationProviderWrapper.getOrRetrieve dir1_uri false
     (mkWrapper async_provider ∅ [] 0)).2.

(** The same wrapper once [dir1] has been fetched again: request 0 is
    cancelled and request 1 is pending. *)
Definition refetched_dir1 : Wrapper :=
  (DecorationProviderWrapper.fetchData dir1_uri pending_dir1).2.

(** The same tree once it has been made the root. *)
Definition linked_three_levels : TreeState :=
  default three_levels (TreeImpl.set_root_sync 3 (Some 0) three_levels).

(** The lone root once a busy marker of a caller has elapsed on it. *)
Definition busy_root : TreeState := TreeImpl.doSetBusy 0 lone_root.

End Examples.

(** ** Cancellation errors *)

Module Cancellation.

(** An [Error] is its [name] and its [message]. *)
Definition cancelledMessage : string := "Cancelled".

(** [cancelled()]: [new Error(cancelledMessage)], whose [name] is that of
    the class. *)
Definition cancelled : string * string := ("Error", cancelledMessage).

(** [new CancellationError()]: [super('Canceled')], then
    [this.name = this.message]. *)
Definition CancellationError : string * string :=
  let message := "Canceled" in (message, message).

(** [isCancelled(err)] on an [Error] or [undefined]:
    [!!err && err.message === cancelledMessage] *)
Definition isCancelled (err : option (string * string)) : bool :=
  match err with
  | Some (_, message) => bool_decide (message = cancelledMessage)
  | None => false
  end.

(** [checkCancelled(token)], the token given by its
    [isCancellationRequested]: what is thrown, if anything. *)
Definition checkCancelled (token : option bool) : option (string * string) :=
  match token with
  | Some true => Some cancelled
  | _ => None
  end.

End Cancellation.

(** ** [CancellationTokenSource] *)

Module CancellationTokenSource.

(** What [_token] refers to: one of the two frozen tokens, or a
    [MutableToken], which is its [_isCancelled] and whether it has an
    [_emitter]. *)
Inductive Token :=
| TokenNone
| TokenCancelled
| MutableToken (_isCancelled : bool) (_emitter : bool).

(** A source made without a parent: its [_token], and how often
    [_emitter.fire] has been called. *)
Record Source := mkSource {
  _token : option Token;
  fired : nat
}.

Definition new : Source := mkSource None 0.

(** [get token()] *)
Definition token (s : Source) : Token * Source :=
  match _token s with
  | Some t => (t, s)
  | None =>
      (MutableToken false false,
       mkSource (Some (MutableToken false false)) (fired s))
  end.

(** [token.isCancellationRequested] *)
Definition isCancellationRequested (t : Token) : bool :=
  match t with
  | TokenNone => false
  | TokenCancelled => true
  | MutableToken c _ => c
  end.

(** [source.token.onCancellationRequested]: the getter of a
    [MutableToken] makes the emitter when the token is not cancelled. *)
Definition onCancellationRequested (s : Source) : Source :=
  let '(t, s1) := token s in
  match t with
  | MutableToken false false =>
      mkSource (Some (MutableToken false true)) (fired s1)
  | _ => s1
  end.

(** [cancel()]; [None] when the call throws, which it does on
    [CancellationToken.None], an object without [cancel]. *)
Definition cancel (s : Source) : option Source :=
  match _token s with
  | None => Some (mkSource (Some TokenCancelled) (fired s))
  | Some TokenCancelled => Some s
  | Some (MutableToken c e) =>
      if c then Some s
      else if e then Some (mkSource (Some (MutableToken true false))
                                    (S (fired s)))
           else Some (mkSource (Some (MutableToken true e)) (fired s))
  | Some TokenNone => None
  end.

(** [dispose()] *)
Definition dispose (s : Source) : option Source :=
  s1 ← cancel s;
  match _token s1 with
  | None => Some (mkSource (Some TokenNone) (fired s1))
  | Some (MutableToken c e) =>
      if e then Some (mkSource (Some (MutableToken c false)) (fired s1))
      else Some s1
  | Some _ => Some s1
  end.

(** What the owner of a source and the holders of its token do. *)
Inductive op :=
| GetToken
| Listen
| Cancel
| Dispose.

#[global] Instance op_eq_dec : EqDecision op.
Proof. solve_decision. Defined.

Definition step (o : op) (s : Source) : option Source :=
  match o with
  | GetToken => Some (token s).2
  | Listen => Some (onCancellationRequested s)
  | Cancel => cancel s
  | Dispose => dispose s
  end.

Fixpoint run (ops : list op) (s : Source) : option Source :=
  match ops with
  | [] => Some s
  | o :: rest => step o s ≫= run rest
  end.

(** What holds of a source of which [cancel] or [dispose] has been called
    ([c] true) or not. *)
Definition source_inv (c : bool) (s : Source) : Prop :=
  if c then
    fired s ≤ 1
    ∧ (_token s = Some TokenCancelled
       ∨ _token s = Some (MutableToken true false))
  else
    fired s = 0
    ∧ (_token s = None ∨ ∃ e, _token s = Some (MutableToken false e)).

End CancellationTokenSource.

(** ** Disposables *)

(** Disposables are objects, known by a number.  What a call throws: the
    error of a disposable, a [MultiDisposeError] with the errors it
    gathered, or the [Error] of [add]. *)
Inductive thrown (E : Type) :=
| Thrown (e : E)
| MultiDisposeError (errors : list E)
| CannotRegisterOnItself.

Arguments Thrown {E} e.
Arguments MultiDisposeError {E} errors.
Arguments CannotRegisterOnItself {E}.

Module Lifecycle.
Section with_disposables.

(** [throws log d] is what [d.dispose()] throws, if anything, when the
    calls of [dispose] made before it are [log]; the objects do not call
    back into the store that disposes of them. *)
Context {E : Type} (throws : list nat → nat → option E).

(** The loop of [dispose(arg)] over an iterable, whose falsy elements are
    [None]: the calls of [dispose] made, the oldest first, and the
    [errors]. *)
Fixpoint dispose_loop (arg : list (option nat)) (log : list nat)
    (errors : list E) : list nat * list E :=
  match arg with
  | [] => (log, errors)
  | None :: rest => dispose_loop rest log errors
  | Some d :: rest =>
      dispose_loop rest (log ++ [d])
                   (match throws log d with
                    | Some e => errors ++ [e]
                    | None => errors
                    end)
  end.

(** [dispose(arg)] for an iterable [arg]: what it throws, if anything, and
    the calls made. *)
Definition dispose (arg : list (option nat)) (log : list nat)
    : option (thrown E) * list nat :=
  let '(log', errors) := dispose_loop arg log [] in
  (match errors with
   | [] => None
   | [e] => Some (Thrown e)
   | _ => Some (MultiDisposeError errors)
   end, log').

End with_disposables.
End Lifecycle.

Module DisposableStore.
Section with_disposables.
Context {E : Type} (throws : list nat → nat → option E).
Context (DISABLE_DISPOSED_WARNING : bool).

(** The argument of [add]: a falsy value, the store itself, or another
    object. *)
Inductive argument :=
| Falsy
| This
| Object (d : nat).

(** A store: the set [_toDispose] in the order of insertion,
    [_isDisposed], the calls of [dispose] made on objects so far and the
    number of warnings printed. *)
Record Store := mkStore {
  _toDispose : list nat;
  _isDisposed : bool;
  disposed : list nat;
  warnings : nat
}.

Definition new : Store := mkStore [] false [] 0.

(** [add(disposable)] *)
Definition add (disposable : argument) (s : Store)
    : option (thrown E) * Store :=
  match disposable with
  | Falsy => (None, s)
  | This => (Some CannotRegisterOnItself, s)
  | Object d =>
      if _isDisposed s then
        (None,
         if DISABLE_DISPOSED_WARNING then s
         else mkStore (_toDispose s) (_isDisposed s) (disposed s)
                      (S (warnings s)))
      else
        (None,
         mkStore (if bool_decide (d ∈ _toDispose s) then _toDispose s
                  else _toDispose s ++ [d])
                 (_isDisposed s) (disposed s) (warnings s))
  end.

(** [clear()]: the set is emptied in [finally]. *)
Definition clear (s : Store) : option (thrown E) * Store :=
  if bool_decide (length (_toDispose s) = 0) then (None, s)
  else
    let '(t, log) :=
      Lifecycle.dispose throws (Some <$> _toDispose s) (disposed s) in
    (t, mkStore [] (_isDisposed s) log (warnings s)).

(** [dispose()] *)
Definition dispose (s : Store) : option (thrown E) * Store :=
  if _isDisposed s then (None, s)
  else clear (mkStore (_toDispose s) true (disposed s) (warnings s)).

Inductive op :=
| Add (disposable : argument)
| Clear
| Dispose.

(** One call on the store, by a caller that goes on whatever it throws. *)
Definition step (o : op) (s : Store) : Store :=
  match o with
  | Add disposable => (add disposable s).2
  | Clear => (clear s).2
  | Dispose => (dispose s).2
  end.

Definition run (ops : list op) (s : Store) : Store :=
  foldl (λ s o, step o s) s ops.

End with_disposables.
End DisposableStore.

(** ** Promises: [retry] *)

Module PromiseUtil.
Section with_task.
Context {T E : Type}.

(** How the promise of [retry] settles; [lastError] is [undefined] until a
    call of the task has failed. *)
Inductive settled :=
| Resolved (value : T)
| Rejected (lastError : option E).

(** The loop of [retry(task, retryDelay, retries)] from [i] on, with
    [remaining] turns to go before [i < retries] fails.  [task i] is how
    the call of [task] made in turn [i] settles.  The result is how the
    promise settles, the number of calls of [task], and the number of
    times [timeout(retryDelay)] was awaited. *)
Fixpoint retry_loop (task : nat → T + E) (remaining i : nat)
    (lastError : option E) : settled * nat * nat :=
  match remaining with
  | 0 => (Rejected lastError, i, i)
  | S k =>
      match task i with
      | inl value => (Resolved value, S i, i)
      | inr error => retry_loop task k (S i) (Some error)
      end
  end.

(** [retry(task, retryDelay, retries)], for a whole number of [retries];
    a negative one is as good as zero. *)
Definition retry (task : nat → T + E) (retries : Z)
    : settled * nat * nat :=
  retry_loop task (Z.to_nat retries) 0 None.

End with_task.
End PromiseUtil.

(** ** [FuzzySearch]: the ranges of a match *)

Module FuzzySearch.

(** A string is the sequence of its code units. *)
Definition PRE : N := 1.
Definition POST : N := 2.

Record Range := mkRange {
  offset : Z;
  range_length : Z
}.

(** The two errors of [mapRanges]. *)
Inductive MapError :=
| ErrorWhenTryingToMapRanges
| UnexpectedZeroRanges.

(** [copy.indexOf(unit)]: [-1] when there is none. *)
Definition indexOf (copy : list N) (unit : N) : Z :=
  match list_find (λ c, c = unit) copy with
  | Some (i, _) => Z.of_nat i
  | None => -1
  end.

(** [copy.splice(index, 1)] for an index that is not negative. *)
Definition splice1 (index : Z) (copy : list N) : list N :=
  delete (Z.to_nat index) copy.

(** The [while] loop of [mapRanges]; [None] when the fuel is used up. *)
Fixpoint mapRanges_loop (fuel : nat) (copy : list N) (ranges : list Range)
    : option (list Range) :=
  let preIndex := indexOf copy PRE in
  let postIndex := indexOf copy POST in
  if bool_decide (preIndex ≠ -1)%Z && bool_decide (postIndex ≠ -1)%Z then
    match fuel with
    | 0 => None
    | S k =>
        mapRanges_loop k (splice1 preIndex (splice1 postIndex copy))
          (ranges ++ [mkRange preIndex (postIndex - preIndex - 1)])
    end
  else Some ranges.

(** [mapRanges(input)]; every turn of the loop removes a unit, so the
    length of the input is fuel enough. *)
Definition mapRanges (input : list N)
    : option (MapError + list Range) :=
  let copy := input in
  let preIndex := indexOf copy PRE in
  let postIndex := indexOf copy POST in
  if bool_decide (preIndex > postIndex)%Z
     || negb (eqb (bool_decide (preIndex = -1)%Z)
                  (bool_decide (postIndex = -1)%Z))
  then Some (inl ErrorWhenTryingToMapRanges)
  else
    ranges ← mapRanges_loop (length copy) copy [];
    if bool_decide (length ranges = 0) then Some (inl UnexpectedZeroRanges)
    else Some (inr ranges).

(** A string in which the matches [m] are wrapped in [PRE] and [POST],
    each after a stretch [u] that did not match, and the same string
    without the marks. *)
Definition marked (segments : list (list N * list N)) (rest : list N)
    : list N :=
  concat ((λ '(u, m), u ++ [PRE] ++ m ++ [POST]) <$> segments) ++ rest.

Definition plain (segments : list (list N * list N)) (rest : list N)
    : list N :=
  concat ((λ '(u, m), u ++ m) <$> segments) ++ rest.

Definition unmarked (l : list N) : Prop := (PRE ∉ l) ∧ (POST ∉ l).

(** The ranges of the matches in the string without the marks, the first
    of which starts [from] units in. *)
Fixpoint ranges_from (from : nat) (segments : list (list N * list N))
    : list Range :=
  match segments with
  | [] => []
  | (u, m) :: rest =>
      mkRange (Z.of_nat (from + length u)) (Z.of_nat (length m))
      :: ranges_from (from + length u + length m) rest
  end.

End FuzzySearch.

(** ** [AbstractTreeDecoratorService] *)

Module AbstractTreeDecoratorService.
Section with_data.
Context {Data : Type}.

(** A [Map] with string keys is its entries in the order of insertion.
    [get] is [Map.get]. *)
Fixpoint get {V} (id : string) (m : list (string * V)) : option V :=
  match m with
  | [] => None
  | (k, v) :: rest => if decide (k = id) then Some v else get id rest
  end.

(** The body of the inner loop of [getDecorations]:
    [changes.has(id) ? changes.get(id).push(data) : changes.set(id, [data])] *)
Fixpoint push (id : string) (data : Data) (changes : list (string * list Data))
    : list (string * list Data) :=
  match changes with
  | [] => [(id, [data])]
  | (k, ds) :: rest =>
      if decide (k = id) then (k, ds ++ [data]) :: rest
      else (k, ds) :: push id data rest
  end.

(** [getDecorations(tree)]; [decorations] holds, for each decorator in
    turn, the entries of the map that [decorator.decorations(tree)]
    resolves to. *)
Definition getDecorations (decorations : list (list (string * Data)))
    : list (string * list Data) :=
  foldl (λ changes entries,
           foldl (λ changes '(id, data), push id data changes)
                 changes entries)
        [] decorations.

End with_data.
End AbstractTreeDecoratorService.

(** ** The Node Store, chains of parents and chains of siblings *)

(** No node has an id that is a key of [Object.prototype]: then no
    assignment to the store has replaced its prototype, and the store
    answers under the id of a node what was filed there or nothing. *)
Definition ordinary_ids (h : gmap nat node) : Prop :=
  map_Forall (λ _ nd, TreeImpl.ordinary (id nd)) h.

(** Every entry of the Node Store is filed under the id of its node. *)
Definition store_ok (st : TreeState) : Prop :=
  ∀ i l, nodes st !! i = Some l → id_of (heap st) l = Some i.

(** The nodes [ls] are objects with pairwise distinct ids. *)
Definition distinct_ids (h : gmap nat node) (ls : list loc) : Prop :=
  Forall (λ x, is_Some (h !! x)) ls ∧ NoDup (id_of h <$> ls).

(** [a] is reached from [x] through [parent], in one step or more. *)
Inductive above (h : gmap nat node) (a : loc) : loc → Prop :=
| above_parent x : field parent h x = Some a → above h a x
| above_step x q : field parent h x = Some q → above h a q → above h a x.

(** The nodes met from [n] on through [nextSibling], and through
    [previousSibling], [fuel] of them at most. *)
Fixpoint nextSiblings (fuel : nat) (h : gmap nat node) (n : option loc)
    : list loc :=
  match fuel, n with
  | S k, Some l => l :: nextSiblings k h (field nextSibling h l)
  | _, _ => []
  end.

Fixpoint previousSiblings (fuel : nat) (h : gmap nat node) (n : option loc)
    : list loc :=
  match fuel, n with
  | S k, Some l => l :: previousSiblings k h (field previousSibling h l)
  | _, _ => []
  end.

(** The Node Store once the nodes [ls] have been filed under their ids, one
    after the other: [this.nodes[node.id] = node]. *)
Definition register (h : gmap nat node) (ls : list loc)
    (ns : gmap string nat) : gmap string nat :=
  foldl (λ m x, match id_of h x with
                | Some i => <[i := x]> m
                | None => m
                end) ns ls.

(** The nodes met from [n] on through [parent], nearest first, [fuel] of
    them at most. *)
Fixpoint parents (fuel : nat) (h : gmap nat node) (n : loc) : list loc :=
  match fuel with
  | 0 => []
  | S k =>
      match field parent h n with
      | Some p => p :: parents k h p
      | None => []
      end
  end.

(** Two heaps in which every object has the same [id] and the same
    [parent]. *)
Definition same_ancestry (h h' : gmap nat node) : Prop :=
  ∀ x, (λ n, (id n, parent n)) <$> h !! x
       = (λ n, (id n, parent n)) <$> h' !! x.

(** * Properties *)

(** ** Reading fields after an update *)

Section heap_facts.
Implicit Types (h : gmap nat node) (x y l p c : nat).

Lemma field_alter {A} (f : node → option A) (g : node → node) h x y :
  field f (alter g x h) y
  = if decide (x = y) then (g <$> h !! x) ≫= f else field f h y.
Proof.
  unfold field. rewrite lookup_alter. by case_decide.
Qed.

Lemma field_alter_ne {A} (f : node → option A) (g : node → node) h x y :
  x ≠ y → field f (alter g x h) y = field f h y.
Proof. intros. rewrite field_alter. by case_decide. Qed.

Lemma field_alter_keep {A} (f : node → option A) (g : node → node) h x y :
  (∀ n, f (g n) = f n) → field f (alter g x h) y = field f h y.
Proof.
  intros Hk. rewrite field_alter. case_decide; [subst|done].
  unfold field. destruct (h !! y); simpl; auto.
Qed.

Lemma same_shape_refl h : same_shape h h.
Proof. by intros x. Qed.

Lemma same_shape_trans h1 h2 h3 :
  same_shape h1 h2 → same_shape h2 h3 → same_shape h1 h3.
Proof. intros H12 H23 x. by rewrite H12. Qed.

Lemma same_shape_alter h g x :
  (∀ n, set_links None None None (g n) = set_links None None None n) →
  same_shape h (alter g x h).
Proof.
  intros Hg y. rewrite lookup_alter. case_decide; [subst|done].
  destruct (h !! y); simpl; [|done]. by rewrite Hg.
Qed.

Lemma same_shape_children h h' x :
  same_shape h h' → field children h' x = field children h x.
Proof.
  intros Hs. specialize (Hs x). unfold field. revert Hs.
  destruct (h !! x) as [[]|], (h' !! x) as [[]|];
    unfold set_links; simpl; congruence.
Qed.

Lemma same_shape_id h h' x : same_shape h h' → id_of h' x = id_of h x.
Proof.
  intros Hs. specialize (Hs x). unfold id_of. revert Hs.
  destruct (h !! x) as [[]|], (h' !! x) as [[]|];
    unfold set_links; simpl; congruence.
Qed.

Lemma same_shape_is_Some h h' x :
  same_shape h h' → is_Some (h !! x) → is_Some (h' !! x).
Proof.
  intros Hs [n Hn]. specialize (Hs x). rewrite Hn in Hs.
  destruct (h' !! x); [eauto|done].
Qed.

Lemma same_shape_setParent h c i p :
  same_shape h (CompositeTreeNode.setParent c i p h).
Proof.
  unfold CompositeTreeNode.setParent.
  destruct (CompositeTreeNode.before _ i) as [pr|];
    destruct (_ !! S i) as [nx|];
    repeat (eapply same_shape_trans;
            [|apply same_shape_alter; by intros []]);
    apply same_shape_refl.
Qed.

(** [setParent] writes to the child and its two neighbours only. *)
Lemma setParent_frame h c i p cs x :
  field children h p = Some cs →
  x ≠ c → CompositeTreeNode.before cs i ≠ Some x → cs !! S i ≠ Some x →
  CompositeTreeNode.setParent c i p h !! x = h !! x.
Proof.
  intros Hcs Hc Hpr Hnx. unfold CompositeTreeNode.setParent.
  rewrite Hcs. simpl.
  destruct (CompositeTreeNode.before cs i) as [pr|] eqn:Hb;
    destruct (cs !! S i) as [nx|] eqn:Hn;
    rewrite ?lookup_alter_ne; congruence.
Qed.

Lemma setParent_child h c i p cs :
  field children h p = Some cs → is_Some (h !! c) →
  CompositeTreeNode.before cs i ≠ Some c → cs !! S i ≠ Some c →
  linked (CompositeTreeNode.setParent c i p h) p cs i c.
Proof.
  intros Hcs [n Hn] Hpr Hnx. unfold CompositeTreeNode.setParent, linked.
  rewrite Hcs. simpl.
  assert (∀ A (f : node → option A),
    field f (alter (set_links (Some p) (CompositeTreeNode.before cs i)
               (cs !! S i)) c h) c
    = f (set_links (Some p) (CompositeTreeNode.before cs i) (cs !! S i) n))
    as Hc.
  { intros. rewrite field_alter. case_decide; [|done]. by rewrite Hn. }
  destruct (CompositeTreeNode.before cs i) as [pr|] eqn:Hb;
    destruct (cs !! S i) as [nx|] eqn:Hx;
    repeat first [rewrite Hc | rewrite field_alter_ne by congruence];
    done.
Qed.

(** A sibling that is already linked stays linked. *)
Lemma setParent_keeps_linked h c i p cs j x :
  field children h p = Some cs → NoDup cs →
  cs !! i = Some c → cs !! j = Some x → j < i →
  linked h p cs j x →
  linked (CompositeTreeNode.setParent c i p h) p cs j x.
Proof.
  intros Hcs Hnd Hi Hj Hlt (Hp & Hpr & Hnx).
  assert (x ≠ c) as Hxc.
  { intros ->. pose proof (NoDup_lookup _ _ _ _ Hnd Hi Hj). lia. }
  assert (cs !! S i ≠ Some x) as Hnext.
  { intros Hx. pose proof (NoDup_lookup _ _ _ _ Hnd Hx Hj). lia. }
  unfold CompositeTreeNode.setParent, linked. rewrite Hcs. simpl.
  destruct (cs !! S i) as [nx|] eqn:Hn.
  - assert (nx ≠ x) by congruence.
    rewrite !(field_alter_ne _ _ _ nx x) by done.
    destruct (CompositeTreeNode.before cs i) as [pr|] eqn:Hb.
    + destruct (decide (pr = x)) as [->|Hne].
      * destruct i as [|i']; simpl in Hb; [done|].
        pose proof (NoDup_lookup _ _ _ _ Hnd Hb Hj). subst j.
        rewrite !field_alter. case_decide; [|done].
        rewrite lookup_alter_ne by done.
        unfold field in *. destruct (h !! x) as [n|]; simpl in *; [|done].
        rewrite Hi in *. done.
      * rewrite !(field_alter_ne _ _ _ pr x) by done.
        rewrite !(field_alter_ne _ _ _ c x) by done. done.
    + rewrite !(field_alter_ne _ _ _ c x) by done. done.
  - destruct (CompositeTreeNode.before cs i) as [pr|] eqn:Hb.
    + destruct (decide (pr = x)) as [->|Hne].
      * destruct i as [|i']; simpl in Hb; [done|].
        pose proof (NoDup_lookup _ _ _ _ Hnd Hb Hj). subst j.
        rewrite !field_alter. case_decide; [|done].
        rewrite lookup_alter_ne by done.
        unfold field in *. destruct (h !! x) as [n|]; simpl in *; [|done].
        rewrite Hi in *. done.
      * rewrite !(field_alter_ne _ _ _ pr x) by done.
        rewrite !(field_alter_ne _ _ _ c x) by done. done.
    + rewrite !(field_alter_ne _ _ _ c x) by done. done.
Qed.

End heap_facts.

(** ** Reachability *)

Section reach_facts.
Implicit Types (h : gmap nat node) (x y l p c : nat) (ls : list nat).

Lemma reach_unfold k h l ls :
  reach (S k) h l = Some ls →
  is_Some (h !! l)
  ∧ ((field children h l = None ∧ ls = [l])
     ∨ ∃ cs lss, field children h l = Some cs
                 ∧ Forall2 (λ c ls, reach k h c = Some ls) cs lss
                 ∧ ls = l :: concat lss).
Proof.
  simpl. unfold field. destruct (h !! l) as [nd|]; simpl; [|done].
  split; [eauto|]. destruct (children nd) as [cs|]; simpl in *.
  - destruct (mapM (reach k h) cs) as [lss|] eqn:Hm; simplify_eq/=.
    right. exists cs, lss. split_and!; [done| |done]. by apply mapM_Some_1.
  - left. split; congruence.
Qed.

Lemma reach_head fuel h l ls : reach fuel h l = Some ls → ∃ t, ls = l :: t.
Proof.
  destruct fuel as [|k]; [done|]. intros Hr.
  apply reach_unfold in Hr as [_ [[_ ->]|(cs & lss & _ & _ & ->)]]; eauto.
Qed.

Lemma reach_is_Some fuel h l ls : reach fuel h l = Some ls → is_Some (h !! l).
Proof.
  destruct fuel as [|k]; [done|]. intros Hr. by apply reach_unfold in Hr as [? _].
Qed.

Lemma reach_same_shape fuel h h' l :
  same_shape h h' → reach fuel h' l = reach fuel h l.
Proof.
  intros Hs. revert l. induction fuel as [|k IH]; intros l; [done|]. simpl.
  pose proof (same_shape_children h h' l Hs) as Hc. unfold field in Hc.
  pose proof (Hs l) as Hl.
  destruct (h !! l) as [nd|], (h' !! l) as [nd'|]; simpl in *; try done.
  rewrite Hc. destruct (children nd); [|done].
  by rewrite (mapM_ext _ _ _ IH).
Qed.

(** The children of the sub-trees listed in [lss] are their heads. *)
Lemma heads_in_concat k h cs lss c :
  Forall2 (λ c ls, reach k h c = Some ls) cs lss → c ∈ cs → c ∈ concat lss.
Proof.
  induction 1 as [|c' ls' cs lss Hr _ IH]; [by intros ?%elem_of_nil|].
  rewrite elem_of_cons, concat_cons, elem_of_app. intros [->|Hin]; [|auto].
  apply reach_head in Hr as [t ->]. left. apply elem_of_cons; auto.
Qed.

Lemma heads_NoDup k h cs lss :
  Forall2 (λ c ls, reach k h c = Some ls) cs lss →
  NoDup (concat lss) → NoDup cs.
Proof.
  induction 1 as [|c ls cs lss Hr Hall IH]; [constructor|].
  rewrite concat_cons, NoDup_app. intros (Hls & Hdisj & Hrest).
  apply NoDup_cons. split; [|auto].
  intros Hin. apply (Hdisj c).
  - apply reach_head in Hr as [t ->]. apply elem_of_cons; auto.
  - by eapply heads_in_concat.
Qed.

(** A child of a reachable node is reachable, and is not the top. *)
Lemma reach_child fuel h l ls p cs c :
  reach fuel h l = Some ls → p ∈ ls →
  field children h p = Some cs → c ∈ cs → c ∈ tail ls.
Proof.
  revert l ls. induction fuel as [|k IH]; intros l ls Hr Hp Hcs Hc; [done|].
  apply reach_unfold in Hr as [_ [[Hnone ->]|(cs' & lss & Hl & Hall & ->)]].
  - apply list_elem_of_singleton in Hp as ->. congruence.
  - simpl. apply elem_of_cons in Hp as [->|Hp].
    + assert (cs' = cs) as -> by congruence. by eapply heads_in_concat.
    + clear Hl. induction Hall as [|c' ls' cs'' lss' Hr _ IHall];
        [by apply elem_of_nil in Hp|].
      rewrite concat_cons, elem_of_app in Hp |- *.
      destruct Hp as [Hp|Hp]; [left|right; auto].
      pose proof (IH _ _ Hr Hp Hcs Hc) as Ht.
      destruct ls'; simpl in Ht; [by apply elem_of_nil in Ht|].
      apply elem_of_cons; auto.
Qed.

(** With distinct reachable nodes, a child of a node of one of the
    sub-trees is in that part, and is none of their heads. *)
Lemma child_not_head k h cs lss p csp c :
  Forall2 (λ c ls, reach k h c = Some ls) cs lss → NoDup (concat lss) →
  p ∈ concat lss → field children h p = Some csp → c ∈ csp →
  c ∈ concat lss ∧ c ∉ cs.
Proof.
  intros Hall. induction Hall as [|c' ls' cs lss Hr Hall IH];
    [by intros _ ?%elem_of_nil|].
  rewrite concat_cons, NoDup_app. intros (Hls & Hdisj & Hrest) Hp Hcsp Hc.
  rewrite elem_of_app in Hp |- *. rewrite not_elem_of_cons.
  pose proof Hr as [t ->]%reach_head.
  destruct Hp as [Hp|Hp].
  - pose proof (reach_child _ _ _ _ _ _ _ Hr Hp Hcsp Hc) as Ht. simpl in Ht.
    split; [left; apply elem_of_cons; auto|]. split.
    + intros ->. by apply NoDup_cons in Hls as [? _].
    + intros Hin. apply (Hdisj c); [apply elem_of_cons; auto|].
      by eapply heads_in_concat.
  - destruct (IH Hrest Hp Hcsp Hc) as [Hin Hnot]. split; [auto|]. split; [|done].
    intros ->. apply (Hdisj c'); [apply elem_of_cons; auto|done].
Qed.

(** Every reachable node but the top is a child of a reachable node. *)
Lemma reach_parent fuel h l ls x :
  reach fuel h l = Some ls → x ∈ ls → x ≠ l →
  ∃ p cs i, p ∈ ls ∧ field children h p = Some cs ∧ cs !! i = Some x.
Proof.
  revert l ls. induction fuel as [|k IH]; intros l ls Hr Hx Hne; [done|].
  apply reach_unfold in Hr as [_ [[_ ->]|(cs & lss & Hcs & Hall & ->)]].
  { by apply list_elem_of_singleton in Hx. }
  apply elem_of_cons in Hx as [?|Hx]; [done|].
  assert (∃ c lc, c ∈ cs ∧ reach k h c = Some lc ∧ x ∈ lc
                  ∧ ∀ y, y ∈ lc → y ∈ concat lss) as (c & lc & Hc & Hrc & Hxc & Hsub).
  { clear Hcs. induction Hall as [|c lc cs lss Hrc _ IHall];
      [by apply elem_of_nil in Hx|].
    rewrite concat_cons, elem_of_app in Hx. destruct Hx as [Hx|Hx].
    - exists c, lc. split_and!; [apply elem_of_cons; auto|done..|].
      intros y ?. rewrite concat_cons, elem_of_app. auto.
    - destruct (IHall Hx) as (c' & lc' & ? & ? & ? & Hsub).
      exists c', lc'. split_and!; [apply elem_of_cons; auto|done..|].
      intros y ?. rewrite concat_cons, elem_of_app. auto. }
  destruct (decide (x = c)) as [->|Hxne].
  - apply list_elem_of_lookup_1 in Hc as [i Hi].
    exists l, cs, i. split_and!; [apply elem_of_cons; auto|done..].
  - destruct (IH _ _ Hrc Hxc Hxne) as (p & cs' & i & Hp & Hcs' & Hi).
    exists p, cs', i. split_and!; [apply elem_of_cons; auto|done..].
Qed.

(** With distinct reachable nodes, every [children] array is duplicate
    free. *)
Lemma reach_children_NoDup fuel h l ls p cs :
  reach fuel h l = Some ls → NoDup ls → p ∈ ls →
  field children h p = Some cs → NoDup cs.
Proof.
  revert l ls. induction fuel as [|k IH]; intros l ls Hr Hnd Hp Hcs; [done|].
  apply reach_unfold in Hr as [_ [[Hnone ->]|(cs' & lss & Hl & Hall & ->)]].
  { apply list_elem_of_singleton in Hp as ->. congruence. }
  apply NoDup_cons in Hnd as [_ Hnd].
  apply elem_of_cons in Hp as [->|Hp].
  - assert (cs' = cs) as -> by congruence. by eapply heads_NoDup.
  - clear Hl. induction Hall as [|c lc cs'' lss' Hrc _ IHall];
      [by apply elem_of_nil in Hp|].
    rewrite concat_cons in Hnd, Hp. apply NoDup_app in Hnd as (? & _ & ?).
    apply elem_of_app in Hp as [Hp|Hp]; eauto.
Qed.

End reach_facts.

(** ** [addNode] links the sub-tree it walks *)

Section addNode_facts.
Implicit Types (h : gmap nat node) (x y l p c : nat) (ls : list nat).

Lemma linked_transfer h h' p cs i c :
  h' !! c = h !! c → linked h p cs i c → linked h' p cs i c.
Proof. unfold linked, field. by intros ->. Qed.

Lemma links_ok_transfer h h' p :
  field children h' p = field children h p →
  (∀ cs c, field children h p = Some cs → c ∈ cs → h' !! c = h !! c) →
  links_ok h p → links_ok h' p.
Proof.
  intros Hc Hsame Hok cs i c Hcs Hi. rewrite Hc in Hcs.
  eapply linked_transfer; [|by eapply Hok].
  eapply Hsame; [done|]. by eapply list_elem_of_lookup_2.
Qed.

Lemma addNode_loop k l cs h0
  (IH : ∀ st c ls, reach k (heap st) c = Some ls → NoDup ls →
        ∃ st', TreeImpl.addNode k c st = Some st' ∧ addNode_post st st' ls) :
  field children h0 l = Some cs →
  ∀ cs2 cs1 lss1 lss2 s,
    cs = cs1 ++ cs2 →
    Forall2 (λ c ls, reach k h0 c = Some ls) cs1 lss1 →
    Forall2 (λ c ls, reach k h0 c = Some ls) cs2 lss2 →
    NoDup (l :: concat (lss1 ++ lss2)) →
    same_shape h0 (heap s) →
    (∀ x, x ∉ concat (lss1 ++ lss2) → heap s !! x = h0 !! x) →
    (∀ j c, j < length cs1 → cs !! j = Some c → linked (heap s) l cs j c) →
    (∀ p, p ∈ concat lss1 → links_ok (heap s) p) →
    ∃ s',
      forEach (λ child index s,
                 TreeImpl.addNode k child
                   (with_heap
                      (CompositeTreeNode.setParent child index l (heap s)) s))
              cs2 (length cs1) s = Some s'
      ∧ same_shape h0 (heap s')
      ∧ (∀ x, x ∉ concat (lss1 ++ lss2) → heap s' !! x = h0 !! x)
      ∧ (∀ j c, cs !! j = Some c → linked (heap s') l cs j c)
      ∧ (∀ p, p ∈ concat (lss1 ++ lss2) → links_ok (heap s') p)
      ∧ root s' = root s ∧ log s' = log s.
Proof.
  intros Hcs cs2. induction cs2 as [|c cs2 IHl];
    intros cs1 lss1 lss2 s Hsplit Hall1 Hall2 Hnd Hshape Hframe Hlinked Hok.
  { apply Forall2_nil_inv_l in Hall2 as ->. rewrite app_nil_r in *. subst cs1.
    exists s. split_and!; auto.
    intros j c Hj. apply Hlinked; [|done]. by eapply lookup_lt_Some. }
  apply Forall2_cons_inv_l in Hall2 as (lc & lss2' & Hrc & Hall2 & ->).
  assert (Forall2 (λ c ls, reach k h0 c = Some ls)
            (cs1 ++ c :: cs2) (lss1 ++ lc :: lss2')) as Hall.
  { apply Forall2_app; [done|]. by constructor. }
  rewrite <- Hsplit in Hall.
  apply NoDup_cons in Hnd as [Hl Hnd].
  pose proof (heads_NoDup _ _ _ _ Hall Hnd) as Hndcs.
  assert (cs !! length cs1 = Some c) as Hic.
  { subst cs. by rewrite list_lookup_middle. }
  assert (field children (heap s) l = Some cs) as Hcs'.
  { by rewrite (same_shape_children _ _ _ Hshape). }
  pose proof Hnd as Hnd'. rewrite concat_app, concat_cons in Hnd'.
  apply NoDup_app in Hnd' as (Hnd1 & Hdisj1 & Hnd').
  apply NoDup_app in Hnd' as (Hndc & Hdisjc & Hnd2).
  pose proof Hrc as [t Hlc]%reach_head.
  set (h1 := CompositeTreeNode.setParent c (length cs1) l (heap s)).
  assert (same_shape h0 h1) as Hshape1.
  { eapply same_shape_trans; [done|apply same_shape_setParent]. }
  destruct (IH (with_heap h1 s) c lc) as (s2 & Hadd & Hs2 & Hf2 & Hok2 & Hr2 & Hl2);
    [simpl; by rewrite (reach_same_shape _ _ _ _ Hshape1)|done|].
  simpl in Hs2, Hf2, Hr2, Hl2.
  assert (∀ x, x ∈ cs → x ∈ concat (lss1 ++ lc :: lss2')) as Hcsin.
  { intros x. by eapply heads_in_concat. }
  assert (∀ x, x ∈ cs → x ∉ tail lc) as Hcs_tl.
  { intros x Hx Ht. subst lc. simpl in Ht.
    subst cs. apply elem_of_app in Hx as [Hx|Hx].
    - apply (Hdisj1 x); [by eapply heads_in_concat|].
      apply elem_of_app. left. apply elem_of_cons; auto.
    - apply elem_of_cons in Hx as [->|Hx].
      + by apply NoDup_cons in Hndc as [? _].
      + apply (Hdisjc x); [apply elem_of_cons; auto|].
        by eapply heads_in_concat. }
  assert (∀ x, x ∉ tail lc → x ≠ c →
            CompositeTreeNode.before cs (length cs1) ≠ Some x →
            cs !! S (length cs1) ≠ Some x →
            heap s2 !! x = heap s !! x) as Hstep.
  { intros x Ht ? ? ?. rewrite Hf2 by done.
    by eapply setParent_frame. }
  assert (∀ x, x ∉ cs → x ∉ tail lc → heap s2 !! x = heap s !! x) as Hstep'.
  { intros x Hx Ht. apply Hstep; [done|..].
    - intros ->. apply Hx. by eapply list_elem_of_lookup_2.
    - destruct (length cs1) as [|i']; simpl; [done|].
      intros Hb. apply Hx. by eapply list_elem_of_lookup_2.
    - intros Hb. apply Hx. by eapply list_elem_of_lookup_2. }
  assert (same_shape (heap s) (heap s2)) as Hshape2.
  { eapply same_shape_trans; [apply same_shape_setParent|done]. }
  destruct (IHl (cs1 ++ [c]) (lss1 ++ [lc]) lss2' s2) as
    (s' & Hloop & Hshape' & Hframe' & Hlinked' & Hok' & Hroot' & Hlog').
  - by rewrite <- app_assoc.
  - apply Forall2_app; [done|]. by repeat constructor.
  - done.
  - rewrite <- app_assoc. simpl. apply NoDup_cons. done.
  - by eapply same_shape_trans.
  - rewrite <- app_assoc. simpl. intros x Hx.
    rewrite Hstep'; [by apply Hframe| |].
    + intros Hin. by apply Hx, Hcsin.
    + intros Ht. apply Hx. rewrite concat_app, concat_cons, !elem_of_app.
      right; left. destruct lc; simpl in Ht; [by apply elem_of_nil in Ht|].
      apply elem_of_cons; auto.
  - intros j x. rewrite length_app. simpl. intros Hj Hx.
    assert (x ∈ cs) as Hxin by by eapply list_elem_of_lookup_2.
    eapply linked_transfer; [apply Hf2; by apply Hcs_tl|]. simpl.
    destruct (decide (j = length cs1)) as [->|Hne].
    + assert (x = c) as -> by congruence.
      apply setParent_child; [done|by eapply reach_is_Some;
        rewrite (reach_same_shape _ _ _ _ Hshape)|..].
      * destruct (length cs1) as [|i'] eqn:Hlen; simpl; [done|].
        intros Hb. pose proof (NoDup_lookup _ _ _ _ Hndcs Hb Hic). lia.
      * intros Hb. pose proof (NoDup_lookup _ _ _ _ Hndcs Hb Hic). lia.
    + eapply setParent_keeps_linked; try done; [lia|].
      apply Hlinked; [lia|done].
  - intros p. rewrite concat_app, elem_of_app. simpl. rewrite app_nil_r.
    intros [Hp|Hp]; [|by apply Hok2].
    eapply links_ok_transfer; [| |by apply Hok].
    + by rewrite (same_shape_children _ _ _ Hshape2).
    + intros csp x Hcsp Hx.
      rewrite (same_shape_children _ _ _ Hshape) in Hcsp.
      destruct (child_not_head _ _ _ _ _ _ _ Hall1 Hnd1 Hp Hcsp Hx)
        as [Hin Hnot].
      apply Hstep'.
      * subst cs. rewrite elem_of_app. intros [?|Hc2]; [done|].
        apply (Hdisj1 x); [done|]. rewrite <- concat_cons.
        eapply heads_in_concat; [|exact Hc2].
        by constructor.
      * intros Ht. apply (Hdisj1 x); [done|]. rewrite elem_of_app.
        left. destruct lc; simpl in Ht; [by apply elem_of_nil in Ht|].
        apply elem_of_cons; auto.
  - exists s'. rewrite length_app in Hloop. simpl in Hloop.
    replace (length cs1 + 1) with (S (length cs1)) in Hloop by lia.
    simpl. fold h1. rewrite Hadd. rewrite <- app_assoc in Hframe', Hok'.
    simpl in *.
    split_and!; auto; congruence.
Qed.

Lemma addNode_links fuel st l ls :
  reach fuel (heap st) l = Some ls → NoDup ls →
  ∃ st', TreeImpl.addNode fuel l st = Some st' ∧ addNode_post st st' ls.
Proof.
  revert st l ls. induction fuel as [|k IH]; intros st l ls Hr Hnd; [done|].
  pose proof Hr as [[nd Hl] Hcases]%reach_unfold.
  simpl. rewrite Hl. unfold field in Hcases. rewrite Hl in Hcases.
  simpl in Hcases.
  destruct Hcases as [[Hnone ->] | (cs & lss & Hcs & Hall & ->)].
  - rewrite Hnone. eexists. split; [done|]. unfold addNode_post. simpl.
    split_and!; auto using same_shape_refl.
    intros p ->%list_elem_of_singleton cs i c Hcs. unfold field in Hcs.
    rewrite Hl in Hcs. simpl in Hcs. congruence.
  - rewrite Hcs.
    set (st1 := with_nodes (<[id nd:=l]> (nodes st)) st).
    destruct (addNode_loop k l cs (heap st) IH) with
      (cs2 := cs) (cs1 := @nil nat) (lss1 := @nil (list nat)) (lss2 := lss)
      (s := st1)
      as (s' & Hloop & Hshape & Hframe & Hlinked & Hok & Hroot & Hlog);
      try done.
    + unfold field. by rewrite Hl.
    + simpl. lia.
    + by intros p ?%elem_of_nil.
    + exists s'. split; [done|]. unfold addNode_post. simpl in *.
      split_and!; auto.
      intros p [->|Hp]%elem_of_cons; [|by apply Hok].
      intros cs' i c Hcs' Hi.
      rewrite (same_shape_children _ _ _ Hshape) in Hcs'.
      unfold field in Hcs'. rewrite Hl in Hcs'. simpl in Hcs'.
      assert (cs' = cs) as -> by congruence. by apply Hlinked.
Qed.

(** Linked children of distinct reachable nodes give the invariant. *)
Lemma links_ok_invariant fuel h l ls :
  reach fuel h l = Some ls → NoDup ls → (∀ p, p ∈ ls → links_ok h p) →
  tree_invariant h l ls.
Proof.
  intros Hr Hnd Hok x Hx Hne.
  destruct (reach_parent _ _ _ _ _ Hr Hx Hne) as (p & cs & i & Hp & Hcs & Hi).
  exists p, cs, i. split_and!; try done.
  - intros j Hj.
    eapply NoDup_lookup; [by eapply reach_children_NoDup|done..].
  - by eapply Hok.
Qed.

Lemma removeNode_loop k cs (i : nat) s
  (IH : ∀ st c, is_Some (reach k (heap st) c) →
        ∃ st', TreeImpl.removeNode k c st = Some st'
               ∧ heap st' = heap st ∧ root st' = root st
               ∧ log st' = log st) :
  Forall (λ c, is_Some (reach k (heap s) c)) cs →
  ∃ s', forEach (λ child _ s, TreeImpl.removeNode k child s) cs i s = Some s'
        ∧ heap s' = heap s ∧ root s' = root s ∧ log s' = log s.
Proof.
  revert i s. induction cs as [|c cs IHl]; intros i s Hall; [by exists s|].
  apply Forall_cons in Hall as [Hc Hall]. simpl.
  destruct (IH s c Hc) as (s1 & -> & Hh & Hr & Hl).
  destruct (IHl (S i) s1) as (s' & -> & Hh' & Hr' & Hl');
    [by rewrite Hh|].
  exists s'. split_and!; congruence.
Qed.

(** [removeNode] touches the Node Store only. *)
Lemma removeNode_heap fuel st l :
  is_Some (reach fuel (heap st) l) →
  ∃ st', TreeImpl.removeNode fuel l st = Some st'
         ∧ heap st' = heap st ∧ root st' = root st ∧ log st' = log st.
Proof.
  revert st l. induction fuel as [|k IH]; intros st l [ls Hr];
    [done|].
  pose proof Hr as [[nd Hl] Hcases]%reach_unfold.
  simpl. rewrite Hl. unfold field in Hcases. rewrite Hl in Hcases.
  simpl in Hcases.
  destruct Hcases as [[-> _] | (cs & lss & -> & Hall & _)]; simpl.
  - eexists. split; [done|]. done.
  - destruct (removeNode_loop k cs 0 st IH) as (s' & -> & Hh & Hr' & Hl').
    + apply Forall_exists_Forall2_l. eauto.
    + simpl. eexists. split; [done|]. done.
Qed.

End addNode_facts.

(** ** [removeChild] keeps the remaining children linked *)

Section removeChild_facts.
Implicit Types (h : gmap nat node) (x y l p c : nat) (cs : list nat).

Lemma findIndex_unique h cs k c :
  cs !! k = Some c →
  (∀ j c', cs !! j = Some c' → id_of h c' = id_of h c → j = k) →
  CompositeTreeNode.findIndex h (id_of h c) cs = Some k.
Proof.
  revert k. induction cs as [|c0 cs IH]; intros k Hk Huniq; [done|].
  simpl. case_decide as Hid.
  - by rewrite (Huniq 0 c0 eq_refl Hid).
  - destruct k as [|k]; simpl in Hk; [congruence|].
    rewrite (IH k Hk); [done|].
    intros j c' Hj Hc'. by specialize (Huniq (S j) c' Hj Hc') as [= ->].
Qed.

Lemma field_is_Some {A} (f : node → option A) h x v :
  field f h x = Some v → is_Some (h !! x).
Proof. unfold field. destruct (h !! x); [eauto|done]. Qed.

Lemma field_alter_set_prev h n v x :
  is_Some (h !! n) →
  field previousSibling (alter (set_previousSibling v) n h) x
  = if decide (n = x) then v else field previousSibling h x.
Proof.
  intros [nd Hn]. rewrite field_alter. case_decide; [|done]. by rewrite Hn.
Qed.

Lemma field_alter_set_next h n v x :
  is_Some (h !! n) →
  field nextSibling (alter (set_nextSibling v) n h) x
  = if decide (n = x) then v else field nextSibling h x.
Proof.
  intros [nd Hn]. rewrite field_alter. case_decide; [|done]. by rewrite Hn.
Qed.

Lemma is_Some_alter h (g : node → node) y x :
  is_Some (h !! x) → is_Some (alter g y h !! x).
Proof.
  intros [n Hn]. rewrite lookup_alter. case_decide; subst; rewrite Hn; eauto.
Qed.

Lemma removeChild_links h p cs k c :
  field children h p = Some cs → cs !! k = Some c → NoDup cs →
  (∀ j c', cs !! j = Some c' → id_of h c' = id_of h c → j = k) →
  links_ok h p →
  field children (CompositeTreeNode.removeChild p c h) p
    = Some (delete k cs)
  ∧ links_ok (CompositeTreeNode.removeChild p c h) p
  ∧ same_shape (alter (set_children (Some (delete k cs))) p h)
               (CompositeTreeNode.removeChild p c h).
Proof.
  intros Hcs Hk Hnd Huniq Hok.
  assert (∀ j x, cs !! j = Some x → is_Some (h !! x)) as Halloc.
  { intros j x Hj. destruct (Hok cs j x Hcs Hj) as [Hp _].
    by eapply field_is_Some. }
  destruct (Hok cs k c Hcs Hk) as (Hcp & Hcprev & Hcnext).
  unfold CompositeTreeNode.removeChild. rewrite Hcs. simpl.
  rewrite (findIndex_unique _ _ _ _ Hk Huniq).
  set (h1 := alter (set_children (Some (delete k cs))) p h).
  assert (∀ A (f : node → option A) x,
            (∀ n v, f (set_children v n) = f n) →
            field f h1 x = field f h x) as Hh1.
  { intros A f x Hf. by apply field_alter_keep. }
  assert (∀ x, is_Some (h !! x) → is_Some (h1 !! x)) as Halloc1.
  { intros x. apply is_Some_alter. }
  rewrite !Hh1 by done. rewrite Hcprev, Hcnext.
  set (h2 := match CompositeTreeNode.before cs k with
             | Some q => alter (set_nextSibling (cs !! S k)) q h1
             | None => h1
             end).
  set (h3 := match cs !! S k with
             | Some n => alter (set_previousSibling
                                  (CompositeTreeNode.before cs k)) n h2
             | None => h2
             end).
  assert (∀ x, is_Some (h !! x) → is_Some (h2 !! x)) as Halloc2.
  { intros x Hx. unfold h2. destruct (CompositeTreeNode.before cs k);
      [apply is_Some_alter|]; auto. }
  assert (∀ A (f : node → option A) x,
            (∀ n v, f (set_children v n) = f n) →
            (∀ n v, f (set_nextSibling v n) = f n) →
            (∀ n v, f (set_previousSibling v n) = f n) →
            field f h3 x = field f h x) as Hkeep.
  { intros A f x H1 H2 H3. unfold h3, h2.
    destruct (cs !! S k), (CompositeTreeNode.before cs k);
      rewrite ?field_alter_keep by done; by apply Hh1. }
  assert (field children h3 p = Some (delete k cs)) as Hcs3.
  { unfold h3, h2.
    destruct (cs !! S k), (CompositeTreeNode.before cs k);
      rewrite ?field_alter_keep by done; unfold h1; rewrite field_alter;
      (case_decide; [|done]); unfold field in Hcs;
      destruct (h !! p); simpl in *; done. }
  assert (∀ x, field nextSibling h3 x
               = if decide (CompositeTreeNode.before cs k = Some x)
                 then cs !! S k else field nextSibling h x) as Hnext.
  { intros x.
    assert (field nextSibling h3 x = field nextSibling h2 x) as ->.
    { unfold h3. destruct (cs !! S k); [by rewrite field_alter_keep|done]. }
    unfold h2. destruct (CompositeTreeNode.before cs k) as [q|] eqn:Hq.
    - rewrite field_alter_set_next.
      + rewrite Hh1 by done. repeat case_decide; congruence.
      + apply Halloc1. destruct k; simpl in Hq; [done|]. eauto.
    - rewrite Hh1 by done. by case_decide. }
  assert (∀ x, field previousSibling h3 x
               = if decide (cs !! S k = Some x)
                 then CompositeTreeNode.before cs k
                 else field previousSibling h x) as Hprev.
  { intros x. unfold h3. destruct (cs !! S k) as [n|] eqn:Hn.
    - rewrite field_alter_set_prev by eauto.
      assert (field previousSibling h2 x = field previousSibling h x) as ->.
      { unfold h2. destruct (CompositeTreeNode.before cs k);
          rewrite ?field_alter_keep by done; by apply Hh1. }
      repeat case_decide; congruence.
    - case_decide; [done|]. unfold h2.
      destruct (CompositeTreeNode.before cs k);
        rewrite ?field_alter_keep by done; by apply Hh1. }
  split; [done|]. split.
  - intros cs' j x Hcs'. rewrite Hcs3 in Hcs'. injection Hcs' as <-.
    intros Hj. unfold linked. rewrite Hkeep, Hnext, Hprev by done.
    destruct (decide (j < k)) as [Hlt|Hge].
    + rewrite list_lookup_delete_lt in Hj by done.
      destruct (Hok cs j x Hcs Hj) as (Hp & Hpr & Hnx).
      split; [done|]. split.
      * case_decide as Hd.
        { pose proof (NoDup_lookup _ _ _ _ Hnd Hd Hj). lia. }
        rewrite Hpr. destruct j as [|j]; simpl; [done|].
        by rewrite list_lookup_delete_lt by lia.
      * case_decide as Hd.
        { destruct k as [|k']; simpl in Hd; [done|].
          pose proof (NoDup_lookup _ _ _ _ Hnd Hd Hj). subst j.
          by rewrite list_lookup_delete_ge by lia. }
        rewrite Hnx. rewrite list_lookup_delete_lt; [done|].
        destruct (decide (S j = k)) as [<-|]; [|lia].
        simpl in Hd. congruence.
    + rewrite list_lookup_delete_ge in Hj by lia.
      destruct (Hok cs (S j) x Hcs Hj) as (Hp & Hpr & Hnx).
      split; [done|]. split.
      * case_decide as Hd.
        { pose proof (NoDup_lookup _ _ _ _ Hnd Hd Hj).
          assert (j = k) as -> by lia.
          destruct k as [|k']; simpl; [done|].
          by rewrite list_lookup_delete_lt by lia. }
        rewrite Hpr. simpl. destruct j as [|j']; simpl.
        { destruct k; [done|lia]. }
        rewrite list_lookup_delete_ge; [done|].
        destruct (decide (k = S j')) as [->|]; [done|lia].
      * case_decide as Hd.
        { destruct k as [|k']; simpl in Hd; [done|].
          pose proof (NoDup_lookup _ _ _ _ Hnd Hd Hj). lia. }
        rewrite Hnx. by rewrite list_lookup_delete_ge by lia.
  - fold h1. unfold h3, h2.
    destruct (cs !! S k), (CompositeTreeNode.before cs k);
      repeat (eapply same_shape_trans;
              [|apply same_shape_alter; by intros []]);
      apply same_shape_refl.
Qed.

End removeChild_facts.

(** ** The structural invariant after the tree core operations *)

Section core_operations.
Implicit Types (h : gmap nat node) (x y l p c : nat) (ls cs : list nat).

Lemma addNode_invariant fuel st l ls :
  reach fuel (heap st) l = Some ls → NoDup ls →
  ∃ st', TreeImpl.addNode fuel l st = Some st'
         ∧ reach fuel (heap st') l = Some ls
         ∧ tree_invariant (heap st') l ls
         ∧ same_shape (heap st) (heap st')
         ∧ (∀ x, x ∉ tail ls → heap st' !! x = heap st !! x)
         ∧ root st' = root st ∧ log st' = log st.
Proof.
  intros Hr Hnd.
  destruct (addNode_links fuel st l ls Hr Hnd)
    as (st' & Hadd & Hshape & Hframe & Hok & Hroot & Hlog).
  exists st'. split_and!; try done.
  - by rewrite (reach_same_shape _ _ _ _ Hshape).
  - eapply links_ok_invariant; [|done..].
    by rewrite (reach_same_shape _ _ _ _ Hshape).
Qed.

Lemma root_is_only_orphan h h' l ls :
  NoDup ls → (∃ t, ls = l :: t) → tree_invariant h' l ls →
  (∀ x, x ∉ tail ls → h' !! x = h !! x) →
  field parent h l = None →
  ∀ x, x ∈ ls → field parent h' x = None ↔ x = l.
Proof.
  intros Hnd [t ->] Hinv Hframe Hl x Hx. split.
  - intros Hnone. destruct (decide (x = l)) as [|Hne]; [done|].
    destruct (Hinv x Hx Hne) as (p & cs & i & _ & _ & _ & _ & Hp & _).
    congruence.
  - intros ->. unfold field. rewrite Hframe; [done|]. simpl.
    by apply NoDup_cons in Hnd as [? _].
Qed.

Lemma getRootNode_is_Some fuel h n r :
  TreeImpl.getRootNode fuel h n = Some r → is_Some (h !! r).
Proof.
  revert n. induction fuel as [|k IH]; intros n; [done|]. simpl.
  destruct (h !! n) as [nd|] eqn:Hn; simpl; [|done].
  destruct (parent nd); [apply IH|]. intros [= <-]. eauto.
Qed.

Lemma setChildren_installs fuel st p cs r old ls :
  TreeImpl.getRootNode fuel (heap st) p = Some r →
  (∀ rid r', id_of (heap st) r = Some rid → nodes st !! rid = Some r' →
             r' = r) →
  reach fuel (heap st) p = Some old →
  reach fuel (alter (set_children (Some cs)) p (heap st)) p = Some ls →
  NoDup ls →
  ∃ st', TreeImpl.setChildren fuel p cs st = Some (Some p, st')
         ∧ field children (heap st') p = Some cs
         ∧ reach fuel (heap st') p = Some ls
         ∧ tree_invariant (heap st') p ls
         ∧ (∀ x, x ∉ ls → heap st' !! x = heap st !! x)
         ∧ field parent (heap st') p = field parent (heap st) p
         ∧ log st' = log st ++ [NodeRefreshed p].
Proof.
  intros Hroot Hown Hold Hnew Hnd. unfold TreeImpl.setChildren.
  rewrite Hroot. simpl.
  destruct (getRootNode_is_Some _ _ _ _ Hroot) as [rn Hrn].
  destruct (reach_is_Some _ _ _ _ Hold) as [pn Hpn].
  unfold id_of in *. rewrite Hrn, Hpn in *. simpl.
  assert (match nodes st !! id rn with
          | Some r' => bool_decide (r' ≠ r)
          | None => false
          end = false) as ->.
  { destruct (nodes st !! id rn) as [r'|] eqn:Hr'; [|done].
    apply bool_decide_eq_false. intros Hne. apply Hne. by eapply Hown. }
  destruct (removeNode_heap fuel st p) as (st1 & -> & Hh1 & Hr1 & Hl1);
    [eauto|]. simpl.
  set (st1' := with_heap (alter (set_children (Some cs)) p (heap st1)) st1).
  destruct (addNode_invariant fuel st1' p ls)
    as (st2 & -> & Hreach & Hinv & Hshape & Hframe & Hr2 & Hl2);
    [simpl; by rewrite Hh1|done|]. simpl in *.
  pose proof Hnew as [t ->]%reach_head.
  eexists. split; [done|]. simpl. rewrite Hh1 in *.
  split_and!; try done.
  - rewrite (same_shape_children _ _ _ Hshape).
    unfold field. rewrite lookup_alter_eq, Hpn. done.
  - intros x Hx. rewrite Hframe.
    + apply lookup_alter_ne. intros ->. apply Hx, elem_of_cons; auto.
    + simpl. intros ?. apply Hx, elem_of_cons; auto.
  - unfold field. rewrite Hframe.
    + rewrite lookup_alter_eq, Hpn. done.
    + simpl. by apply NoDup_cons in Hnd as [? _].
  - congruence.
Qed.

End core_operations.

(** ** C1 *)

(** C1, as the code has it.  When the nodes below the node that is installed
    are distinct objects, [set root] and [setChildren] end with every node
    below it at exactly one index of the [children] of its [parent], with
    [previousSibling] and [nextSibling] the neighbours at the adjacent
    indices; a root that came without a parent is then the only node without
    one; nothing outside the installed nodes is written.  [removeChild] of a
    linked child with an id of its own keeps the other children linked. *)
Theorem tree_invariant_of_distinct_nodes :
  (∀ fuel st l ls,
     reach fuel (heap st) l = Some ls → NoDup ls →
     ∃ st', TreeImpl.set_root_sync fuel (Some l) st = Some st'
            ∧ root st' = Some l
            ∧ reach fuel (heap st') l = Some ls
            ∧ tree_invariant (heap st') l ls
            ∧ (∀ x, x ∉ tail ls → heap st' !! x = heap st !! x)
            ∧ (field parent (heap st) l = None →
               ∀ x, x ∈ ls → field parent (heap st') x = None ↔ x = l))
  ∧ (∀ fuel st p cs r old ls,
       TreeImpl.getRootNode fuel (heap st) p = Some r →
       (∀ rid r', id_of (heap st) r = Some rid → nodes st !! rid = Some r' →
                  r' = r) →
       reach fuel (heap st) p = Some old →
       reach fuel (alter (set_children (Some cs)) p (heap st)) p = Some ls →
       NoDup ls →
       ∃ st', TreeImpl.setChildren fuel p cs st = Some (Some p, st')
              ∧ field children (heap st') p = Some cs
              ∧ reach fuel (heap st') p = Some ls
              ∧ tree_invariant (heap st') p ls
              ∧ (∀ x, x ∉ ls → heap st' !! x = heap st !! x)
              ∧ field parent (heap st') p = field parent (heap st) p)
  ∧ (∀ h p cs k c,
       field children h p = Some cs → cs !! k = Some c → NoDup cs →
       (∀ j c', cs !! j = Some c' → id_of h c' = id_of h c → j = k) →
       links_ok h p →
       field children (CompositeTreeNode.removeChild p c h) p
         = Some (delete k cs)
       ∧ links_ok (CompositeTreeNode.removeChild p c h) p).
Proof.
  split_and!.
  - intros fuel st l ls Hr Hnd. unfold TreeImpl.set_root_sync.
    destruct (addNode_invariant fuel (mkTree (heap st) ∅ (Some l) (log st))
                l ls Hr Hnd)
      as (st' & Hadd & Hreach & Hinv & Hshape & Hframe & Hroot & Hlog).
    exists st'. simpl in *. split_and!; try done.
    intros Hl. eapply root_is_only_orphan; try done.
    by eapply reach_head.
  - intros fuel st p cs r old ls Hroot Hown Hold Hnew Hnd.
    destruct (setChildren_installs fuel st p cs r old ls)
      as (st' & ? & ? & ? & ? & ? & ? & ?); try done.
    exists st'. split_and!; done.
  - intros h p cs k c Hcs Hk Hnd Huniq Hok.
    destruct (removeChild_links h p cs k c) as (? & ? & _); done.
Qed.

(** The theorem at [root → [dir1 → [file1, file2], dir2]]: the root is set;
    [dir1] is given the children [file2, file1]; [file2] is removed from
    [dir1]. *)
Lemma tree_invariant_of_distinct_nodes_witness :
  (∃ st', TreeImpl.set_root_sync 3 (Some 0) Examples.three_levels = Some st'
          ∧ tree_invariant (heap st') 0 [0; 1; 3; 4; 2])
  ∧ (∃ st', TreeImpl.setChildren 3 1 [4; 3] Examples.linked_three_levels
            = Some (Some 1, st')
            ∧ tree_invariant (heap st') 1 [1; 4; 3])
  ∧ links_ok (CompositeTreeNode.removeChild 1 4
                (heap Examples.linked_three_levels)) 1.
Proof.
  split_and!.
  - destruct (proj1 tree_invariant_of_distinct_nodes 3 Examples.three_levels
                0 [0; 1; 3; 4; 2])
      as (st1 & Hset & _ & _ & Hinv1 & _ & _).
    + vm_compute. reflexivity.
    + refine (bool_decide_unpack _ _). vm_compute. exact I.
    + exists st1. split; [exact Hset|exact Hinv1].
  - destruct (proj1 (proj2 tree_invariant_of_distinct_nodes) 3
                Examples.linked_three_levels 1 [4; 3] 0 [1; 3; 4] [1; 4; 3])
      as (st2 & Hsc & _ & _ & Hinv2 & _ & _).
    + vm_compute. reflexivity.
    + intros rid r' Hid Hn. vm_compute in Hid. injection Hid as <-.
      vm_compute in Hn. injection Hn as <-. reflexivity.
    + vm_compute. reflexivity.
    + vm_compute. reflexivity.
    + refine (bool_decide_unpack _ _). vm_compute. exact I.
    + exists st2. split; [exact Hsc|exact Hinv2].
  - destruct (proj2 (proj2 tree_invariant_of_distinct_nodes)
                (heap Examples.linked_three_levels) 1 [3; 4] 1 4)
      as [_ Hok].
    + vm_compute. reflexivity.
    + reflexivity.
    + refine (bool_decide_unpack _ _). vm_compute. exact I.
    + intros [|[|j]] c' Hj Hid; vm_compute in Hj; [|reflexivity|discriminate].
      injection Hj as <-. vm_compute in Hid. discriminate.
    + intros cs i c Hcs Hi. vm_compute in Hcs. injection Hcs as <-.
      destruct i as [|[|i]]; vm_compute in Hi; [| |discriminate];
        injection Hi as <-; vm_compute; repeat split.
    + exact Hok.
Defined.

(** C1 as the specification states it fails: a refresh whose child array
    holds the same object twice leaves that node at two indices of
    [root.children], and as its own previous sibling. *)
Lemma duplicate_child_breaks_tree_invariant :
  TreeImpl.refresh 3 None false (Examples.quiet [1; 1]) Examples.lone_root
    = Some (Some 0, Examples.after_duplicate)
  ∧ reach 3 (heap Examples.after_duplicate) 0 = Some [0; 1; 1]
  ∧ field children (heap Examples.after_duplicate) 0 = Some [1; 1]
  ∧ field previousSibling (heap Examples.after_duplicate) 1 = Some 1
  ∧ ¬ tree_invariant (heap Examples.after_duplicate) 0 [0; 1; 1].
Proof.
  split_and!; try (vm_compute; reflexivity).
  intros Hinv.
  destruct (Hinv 1) as (p & cs & i & Hp & Hcs & Hi & Huniq & _);
    [apply elem_of_cons; right; apply elem_of_cons; by left|lia|].
  assert (p = 0 ∨ p = 1) as [-> | ->].
  { rewrite !elem_of_cons in Hp.
    destruct Hp as [->|[->|[->|Hp]]]; auto. by apply elem_of_nil in Hp. }
  - vm_compute in Hcs. injection Hcs as <-.
    pose proof (Huniq 0 eq_refl). pose proof (Huniq 1 eq_refl). lia.
  - vm_compute in Hcs. discriminate.
Qed.

(** ** C2 and C7: [refresh] and [setChildren] *)

Section refresh_facts.
Implicit Types (h : gmap nat node) (x y l p c : nat) (st : TreeState).

Lemma same_but_busy_refl h : same_but_busy h h.
Proof. by intros x. Qed.

Lemma same_but_busy_trans h1 h2 h3 :
  same_but_busy h1 h2 → same_but_busy h2 h3 → same_but_busy h1 h3.
Proof. intros H12 H23 x. by rewrite H12. Qed.

Lemma same_but_busy_alter h b x : same_but_busy h (alter (set_busy b) x h).
Proof.
  intros y. rewrite lookup_alter. case_decide; [subst|done].
  by destruct (h !! y).
Qed.

Lemma same_but_busy_field {A} (f : node → option A) h h' x :
  (∀ n b, f (set_busy b n) = f n) →
  same_but_busy h h' → field f h' x = field f h x.
Proof.
  intros Hf Hs. specialize (Hs x). unfold field.
  destruct (h !! x) as [n|], (h' !! x) as [n'|]; simpl in *; try done.
  apply (inj Some) in Hs. by rewrite <- (Hf n None), <- (Hf n' None), Hs.
Qed.

Lemma same_but_busy_id h h' x :
  same_but_busy h h' → id_of h' x = id_of h x.
Proof.
  intros Hs. specialize (Hs x). unfold id_of.
  destruct (h !! x) as [[]|], (h' !! x) as [[]|]; by simplify_eq/=.
Qed.

Lemma same_but_busy_getRootNode fuel h h' p :
  same_but_busy h h' →
  TreeImpl.getRootNode fuel h' p = TreeImpl.getRootNode fuel h p.
Proof.
  intros Hs. revert p. induction fuel as [|k IH]; intros p; [done|]. simpl.
  pose proof (same_but_busy_field parent h h' p (λ _ _, eq_refl) Hs) as Hp.
  pose proof (Hs p) as Hl. unfold field in Hp.
  destruct (h !! p) as [n|], (h' !! p) as [n'|]; simpl in *; try done.
  rewrite Hp. destruct (parent n); auto.
Qed.

Lemma doSetBusy_effect n st :
  same_but_busy (heap st) (heap (TreeImpl.doSetBusy n st))
  ∧ nodes (TreeImpl.doSetBusy n st) = nodes st
  ∧ root (TreeImpl.doSetBusy n st) = root st.
Proof.
  unfold TreeImpl.doSetBusy. case_decide; simpl;
    split_and!; auto using same_but_busy_alter.
Qed.

Lemma doResetBusy_effect n st :
  same_but_busy (heap st) (heap (TreeImpl.doResetBusy n st))
  ∧ nodes (TreeImpl.doResetBusy n st) = nodes st
  ∧ root (TreeImpl.doResetBusy n st) = root st.
Proof.
  unfold TreeImpl.doResetBusy. repeat case_decide; simpl;
    split_and!; auto using same_but_busy_alter, same_but_busy_refl.
Qed.

Lemma elapse_effect here env p st :
  same_but_busy (heap st) (heap (TreeImpl.elapse here env p st))
  ∧ nodes (TreeImpl.elapse here env p st) = nodes st
  ∧ root (TreeImpl.elapse here env p st) = root st.
Proof.
  unfold TreeImpl.elapse.
  destruct (TreeImpl.busyElapses env) as [[]|], here;
    auto using doSetBusy_effect, same_but_busy_refl.
Qed.

(** The root check of [setChildren] fails: an error is logged, nothing
    else changes. *)
Lemma setChildren_foreign fuel st p cs r rid pid r' :
  TreeImpl.getRootNode fuel (heap st) p = Some r →
  id_of (heap st) r = Some rid → id_of (heap st) p = Some pid →
  nodes st !! rid = Some r' → r' ≠ r →
  TreeImpl.setChildren fuel p cs st
  = Some (None, fire (ConsoleError pid rid) st).
Proof.
  intros Hroot Hrid Hpid Hn Hne. unfold TreeImpl.setChildren.
  rewrite Hroot. simpl. rewrite Hrid. simpl. rewrite Hpid. simpl.
  rewrite Hn. by rewrite bool_decide_eq_true_2.
Qed.

Lemma log_fire e e' st : e ∈ log st → e ∈ log (fire e' st).
Proof. simpl. rewrite elem_of_app. auto. Qed.

Lemma log_doResetBusy e n st :
  e ∈ log st → e ∈ log (TreeImpl.doResetBusy n st).
Proof.
  unfold TreeImpl.doResetBusy. repeat case_decide; simpl; auto.
  rewrite elem_of_app. auto.
Qed.


(** A refresh that reaches [setChildren] with a foreign root. *)
Lemma refresh_foreign fuel raw token env st p r rid pid r' :
  TreeImpl.refreshTarget raw st = Some p →
  CompositeTreeNode.is_ (heap st) p = true →
  token && TreeImpl.cancelledAfterResolve env = false →
  TreeImpl.getRootNode fuel (heap st) p = Some r →
  id_of (heap st) r = Some rid → id_of (heap st) p = Some pid →
  nodes st !! rid = Some r' → r' ≠ r →
  ∃ st', TreeImpl.refresh fuel raw token env st = Some (None, st')
         ∧ nodes st' = nodes st ∧ root st' = root st
         ∧ same_but_busy (heap st) (heap st')
         ∧ ConsoleError pid rid ∈ log st'.
Proof.
  intros Ht Hcomp Hc Hroot Hrid Hpid Hn Hne. unfold TreeImpl.refresh.
  rewrite Ht, Hcomp, Hc.
  set (st1 := TreeImpl.elapse TreeImpl.AwaitResolveChildren env p st).
  destruct (elapse_effect TreeImpl.AwaitResolveChildren env p st)
    as (Hb & Hn1 & Hr1). fold st1 in Hb, Hn1, Hr1.
  rewrite (setChildren_foreign fuel st1 p (TreeImpl.resolved env) r rid pid r');
    [|by rewrite (same_but_busy_getRootNode _ _ _ _ Hb)
     |by rewrite (same_but_busy_id _ _ _ Hb)
     |by rewrite (same_but_busy_id _ _ _ Hb)
     |by rewrite Hn1|done].
  simpl.
  destruct (doResetBusy_effect p (fire (ConsoleError pid rid) st1))
    as (Hb' & Hn' & Hr').
  assert (ConsoleError pid rid
            ∈ log (TreeImpl.doResetBusy p (fire (ConsoleError pid rid) st1)))
    as Hlog.
  { apply log_doResetBusy. simpl. apply elem_of_app. right.
    by apply list_elem_of_singleton. }
  destruct (token && TreeImpl.cancelledAfterSetChildren env);
    eexists; (split; [done|]); simpl in *;
    (split_and!; [congruence..|by eapply same_but_busy_trans|]);
    [done|by apply log_fire].
Qed.

End refresh_facts.

Section refresh_installs.
Implicit Types (h : gmap nat node) (x y l p c : nat) (st : TreeState).




End refresh_installs.



(** C7.  When the root above the target of [setChildren] is another object
    than the Node Store holds under its id, [setChildren] resolves to
    [undefined], an error is logged, and the heap and the store are as they
    were; a [refresh] that reaches [setChildren] then returns [undefined]
    too, with the store and every [children] untouched. *)
Theorem setChildren_rejects_foreign_root fuel st p cs r rid pid r' :
  TreeImpl.getRootNode fuel (heap st) p = Some r →
  id_of (heap st) r = Some rid → id_of (heap st) p = Some pid →
  nodes st !! rid = Some r' → r' ≠ r →
  (∃ st', TreeImpl.setChildren fuel p cs st = Some (None, st')
          ∧ heap st' = heap st ∧ nodes st' = nodes st ∧ root st' = root st
          ∧ log st' = log st ++ [ConsoleError pid rid])
  ∧ (∀ raw token env,
       TreeImpl.refreshTarget raw st = Some p →
       CompositeTreeNode.is_ (heap st) p = true →
       token && TreeImpl.cancelledAfterResolve env = false →
       ∃ st', TreeImpl.refresh fuel raw token env st = Some (None, st')
              ∧ nodes st' = nodes st ∧ root st' = root st
              ∧ (∀ x, field children (heap st') x
                      = field children (heap st) x)
              ∧ ConsoleError pid rid ∈ log st').
Proof.
  intros Hroot Hrid Hpid Hn Hne. split.
  - eexists. split; [by eapply setChildren_foreign|]. done.
  - intros raw token env Ht Hcomp Hc.
    destruct (refresh_foreign fuel raw token env st p r rid pid r')
      as (st' & Hr & Hn' & Hr' & Hb & Hlog); try done.
    exists st'. split_and!; try done.
    intros x. by apply same_but_busy_field.
Qed.

(** The theorem at a node whose root is a stale object with the id of the
    root in the store. *)
Lemma setChildren_rejects_foreign_root_witness :
  (∃ st', TreeImpl.setChildren 3 6 [1] Examples.foreign_tree = Some (None, st')
          ∧ heap st' = heap Examples.foreign_tree
          ∧ nodes st' = nodes Examples.foreign_tree
          ∧ root st' = root Examples.foreign_tree
          ∧ log st' = [ConsoleError "stale" "root"])
  ∧ ∃ st', TreeImpl.refresh 3 (Some 6) false (Examples.quiet [1])
             Examples.foreign_tree = Some (None, st')
           ∧ nodes st' = nodes Examples.foreign_tree
           ∧ ConsoleError "stale" "root" ∈ log st'.
Proof.
  destruct (setChildren_rejects_foreign_root 3 Examples.foreign_tree 6 [1]
              5 "root" "stale" 0) as [Hset Hrefresh];
    [vm_compute; reflexivity..|lia|].
  split; [exact Hset|].
  destruct (Hrefresh (Some 6) false (Examples.quiet [1]))
    as (st' & Hr & Hn & _ & _ & Hlog); [vm_compute; reflexivity..|].
  exists st'. split_and!; [exact Hr|exact Hn|exact Hlog].
Defined.

(** ** C4: the busy count *)

Section busy_facts.
Implicit Types (h : gmap nat node) (x n : nat) (st : TreeState).

Lemma busyOr0_alter h n b :
  is_Some (h !! n) →
  TreeImpl.busyOr0 (alter (set_busy (Some b)) n h) n = b.
Proof.
  intros [nd Hn]. unfold TreeImpl.busyOr0. rewrite field_alter.
  case_decide; [|done]. by rewrite Hn.
Qed.

Lemma busyOr0_alter_ne h n x b :
  n ≠ x →
  TreeImpl.busyOr0 (alter (set_busy b) n h) x = TreeImpl.busyOr0 h x.
Proof.
  intros Hne. unfold TreeImpl.busyOr0. by rewrite field_alter_ne.
Qed.

Lemma busyOr0_unallocated h n : h !! n = None → TreeImpl.busyOr0 h n = 0%Z.
Proof. intros Hn. unfold TreeImpl.busyOr0, field. by rewrite Hn. Qed.

Lemma doSetBusy_busy n st :
  is_Some (heap st !! n) →
  TreeImpl.busyOr0 (heap (TreeImpl.doSetBusy n st)) n
  = (TreeImpl.busyOr0 (heap st) n + 1)%Z.
Proof.
  intros Hn. unfold TreeImpl.doSetBusy.
  case_decide; simpl; by rewrite busyOr0_alter.
Qed.

Lemma doResetBusy_busy n st :
  is_Some (heap st !! n) →
  TreeImpl.busyOr0 (heap (TreeImpl.doResetBusy n st)) n
  = if decide (0 < TreeImpl.busyOr0 (heap st) n)%Z
    then (TreeImpl.busyOr0 (heap st) n - 1)%Z
    else TreeImpl.busyOr0 (heap st) n.
Proof.
  intros Hn. unfold TreeImpl.doResetBusy.
  repeat case_decide; simpl; by rewrite ?busyOr0_alter.
Qed.

Lemma doSetBusy_log n st :
  log (TreeImpl.doSetBusy n st)
  = log st ++ if decide (TreeImpl.busyOr0 (heap st) n = 0%Z)
              then [DidChangeBusy n 1] else [].
Proof.
  unfold TreeImpl.doSetBusy. case_decide as Hz; simpl.
  - by rewrite Hz.
  - by rewrite app_nil_r.
Qed.

Lemma doResetBusy_log n st :
  log (TreeImpl.doResetBusy n st)
  = log st ++ if decide (TreeImpl.busyOr0 (heap st) n = 1%Z)
              then [DidChangeBusy n 0] else [].
Proof.
  unfold TreeImpl.doResetBusy.
  repeat case_decide; simpl; rewrite ?app_nil_r; try done; try lia.
  by replace (TreeImpl.busyOr0 (heap st) n - 1)%Z with 0%Z by lia.
Qed.

Lemma doSetBusy_nonneg n st :
  busy_nonneg st → busy_nonneg (TreeImpl.doSetBusy n st).
Proof.
  intros Hst x. destruct (decide (n = x)) as [->|Hne].
  - destruct (heap st !! x) as [nd|] eqn:Hx.
    + rewrite doSetBusy_busy by eauto. specialize (Hst x). lia.
    + rewrite busyOr0_unallocated; [done|].
      unfold TreeImpl.doSetBusy. case_decide; simpl;
        by rewrite lookup_alter_eq, Hx.
  - unfold TreeImpl.doSetBusy. case_decide; simpl;
      rewrite busyOr0_alter_ne by done; apply Hst.
Qed.

Lemma doResetBusy_nonneg n st :
  busy_nonneg st → busy_nonneg (TreeImpl.doResetBusy n st).
Proof.
  intros Hst x. destruct (decide (n = x)) as [->|Hne].
  - destruct (heap st !! x) as [nd|] eqn:Hx.
    + rewrite doResetBusy_busy by eauto. specialize (Hst x).
      case_decide; lia.
    + rewrite busyOr0_unallocated; [done|].
      unfold TreeImpl.doResetBusy. repeat case_decide; simpl;
        by rewrite ?lookup_alter_eq, Hx.
  - unfold TreeImpl.doResetBusy. repeat case_decide; simpl;
      rewrite ?busyOr0_alter_ne by done; apply Hst.
Qed.

Lemma elapseTimers_nonneg t cancelled ts st :
  busy_nonneg st →
  busy_nonneg (BusyMarkers.elapseTimers t cancelled ts st).2.
Proof.
  revert st. induction ts as [|[d k] ts IH]; intros st Hst; [done|].
  simpl. case_decide; [|done]. apply IH.
  destruct k; simpl; [case_bool_decide|];
    auto using doSetBusy_nonneg, doResetBusy_nonneg.
Qed.

Lemma observe_nonneg t s :
  busy_nonneg (BusyMarkers.tree_of s) →
  busy_nonneg (BusyMarkers.tree_of (BusyMarkers.observe t s)).
Proof.
  intros Hs. unfold BusyMarkers.observe.
  pose proof (elapseTimers_nonneg t (BusyMarkers.cancelled s)
                (BusyMarkers.timers s) _ Hs) as He.
  by destruct (BusyMarkers.elapseTimers _ _ _ _).
Qed.

Lemma notify_nonneg token ls st :
  busy_nonneg st → busy_nonneg (BusyMarkers.notify token ls st).
Proof.
  revert st. unfold BusyMarkers.notify.
  induction ls as [|[tok n] ls IH]; intros st Hst; [done|].
  simpl. apply IH. case_decide; auto using doResetBusy_nonneg.
Qed.

Lemma perform_nonneg t a s :
  busy_nonneg (BusyMarkers.tree_of s) →
  busy_nonneg (BusyMarkers.tree_of (BusyMarkers.perform t a s)).
Proof.
  intros Hs. unfold BusyMarkers.perform.
  pose proof (observe_nonneg t s Hs) as Ho.
  destruct a; case_bool_decide; simpl; auto using notify_nonneg.
Qed.

Lemma run_nonneg script s :
  busy_nonneg (BusyMarkers.tree_of s) →
  busy_nonneg (BusyMarkers.tree_of (BusyMarkers.run script s)).
Proof.
  revert s. unfold BusyMarkers.run.
  induction script as [|[t a] script IH]; intros s Hs; [done|].
  simpl. apply IH. by apply perform_nonneg.
Qed.

Lemma busyAt_nonneg script st t n :
  busy_nonneg st → (0 ≤ BusyMarkers.busyAt script st t n)%Z.
Proof.
  intros Hst. unfold BusyMarkers.busyAt, BusyMarkers.treeAt.
  by apply observe_nonneg, run_nonneg.
Qed.

(** The time line of the two markers: both are set at 0. *)
Lemma two_markers_set st n A B :
  BusyMarkers.run [(0, BusyMarkers.MarkAsBusy A n 800);
                   (0, BusyMarkers.MarkAsBusy B n 800)]%Z
                  (BusyMarkers.initial st)
  = BusyMarkers.mkState st
      [(800, BusyMarkers.TimeoutElapsed A n);
       (800, BusyMarkers.TimeoutElapsed B n)]%Z
      [] [(A, n); (B, n)].
Proof. reflexivity. Qed.

(** Then [B] is cancelled at 400: its listener finds nothing to reset,
    and its timer is cleared. *)
Lemma two_markers_cancel_B st n A B :
  A ≠ B →
  BusyMarkers.perform 400 (BusyMarkers.CancelToken B)
    (BusyMarkers.mkState st
       [(800, BusyMarkers.TimeoutElapsed A n);
        (800, BusyMarkers.TimeoutElapsed B n)]%Z
       [] [(A, n); (B, n)])
  = BusyMarkers.mkState (TreeImpl.doResetBusy n st)
      [(800, BusyMarkers.TimeoutElapsed A n)]%Z [B] [(A, n); (B, n)].
Proof.
  intros Hne. unfold BusyMarkers.perform, BusyMarkers.observe. simpl.
  unfold BusyMarkers.notify, BusyMarkers.clearTimeouts. simpl.
  rewrite (decide_False (P := A = B)) by done.
  rewrite (decide_True (P := B = B)) by done.
  rewrite (bool_decide_eq_false_2 (A = B)) by done.
  rewrite (bool_decide_eq_true_2 (B = B)) by done.
  reflexivity.
Qed.

Lemma run_app l1 l2 s :
  BusyMarkers.run (l1 ++ l2) s = BusyMarkers.run l2 (BusyMarkers.run l1 s).
Proof. apply foldl_app. Qed.

(** One pending timer: it fires when its time has come. *)
Lemma observe_one_timer t d A n st cs ls :
  BusyMarkers.observe t
    (BusyMarkers.mkState st [(d, BusyMarkers.TimeoutElapsed A n)] cs ls)
  = if decide (d ≤ t)%Z then
      BusyMarkers.mkState
        (if bool_decide (A ∈ cs) then st else TreeImpl.doSetBusy n st)
        [] cs ls
    else
      BusyMarkers.mkState st [(d, BusyMarkers.TimeoutElapsed A n)] cs ls.
Proof.
  unfold BusyMarkers.observe. simpl. by case_decide.
Qed.

Lemma observe_no_timer t st cs ls :
  BusyMarkers.observe t (BusyMarkers.mkState st [] cs ls)
  = BusyMarkers.mkState st [] cs ls.
Proof. reflexivity. Qed.

(** Last, [A] is cancelled at [tA], after its timer has fired. *)
Lemma two_markers_cancel_A st n A B tA :
  A ≠ B → (800 < tA)%Z →
  BusyMarkers.perform tA (BusyMarkers.CancelToken A)
    (BusyMarkers.mkState st [(800, BusyMarkers.TimeoutElapsed A n)]%Z [B]
       [(A, n); (B, n)])
  = BusyMarkers.mkState (TreeImpl.doResetBusy n (TreeImpl.doSetBusy n st))
      [] [A; B] [(A, n); (B, n)].
Proof.
  intros Hne HtA. unfold BusyMarkers.perform.
  rewrite observe_one_timer. rewrite decide_True by lia.
  assert (A ∉ [B]) as HAB.
  { intros ?%list_elem_of_singleton. done. }
  rewrite (bool_decide_eq_false_2 _ HAB). simpl.
  rewrite (bool_decide_eq_false_2 _ HAB).
  unfold BusyMarkers.notify, BusyMarkers.clearTimeouts. simpl.
  rewrite (decide_True (P := A = A)) by done.
  rewrite (decide_False (P := B = A)) by done.
  reflexivity.
Qed.

Lemma two_markers_timeline st n A B tA t :
  A ≠ B → is_Some (heap st !! n) → TreeImpl.busyOr0 (heap st) n = 0%Z →
  (800 < tA)%Z →
  BusyMarkers.busyAt (BusyMarkers.two_markers n A B tA) st t n
  = (if decide (800 ≤ t < tA)%Z then 1 else 0)%Z
  ∧ BusyMarkers.heardUntil (BusyMarkers.two_markers n A B tA) st t
    = log st ++ (if decide (t < 800)%Z then []
                 else if decide (t < tA)%Z then [DidChangeBusy n 1]
                      else [DidChangeBusy n 1; DidChangeBusy n 0]).
Proof.
  intros Hne Hn Hzero HtA.
  assert (A ∉ [B]) as HAB.
  { intros ?%list_elem_of_singleton. done. }
  assert (is_Some (heap (TreeImpl.doSetBusy n st) !! n)) as Hn1.
  { unfold TreeImpl.doSetBusy. case_decide; simpl;
      rewrite lookup_alter_eq; destruct Hn as [nd ->]; eauto. }
  assert (TreeImpl.doResetBusy n st = st) as Hreset0.
  { unfold TreeImpl.doResetBusy. rewrite Hzero. by case_decide. }
  pose proof (doSetBusy_busy n st Hn) as Hset. rewrite Hzero in Hset.
  pose proof (doSetBusy_log n st) as Hsetlog. rewrite Hzero in Hsetlog.
  pose proof (doResetBusy_busy n _ Hn1) as Hreset. rewrite Hset in Hreset.
  pose proof (doResetBusy_log n (TreeImpl.doSetBusy n st)) as Hresetlog.
  rewrite Hset, Hsetlog in Hresetlog. simpl in *.
  unfold BusyMarkers.busyAt, BusyMarkers.heardUntil, BusyMarkers.treeAt,
    BusyMarkers.two_markers, BusyMarkers.upTo.
  assert (∀ (b : Z) (hs : list event) (st' : TreeState),
            TreeImpl.busyOr0 (heap st') n = b → log st' = log st ++ hs →
            b = (if decide (800 ≤ t < tA)%Z then 1 else 0)%Z →
            hs = (if decide (t < 800)%Z then []
                  else if decide (t < tA)%Z then [DidChangeBusy n 1]
                       else [DidChangeBusy n 1; DidChangeBusy n 0]) →
            TreeImpl.busyOr0 (heap st') n
            = (if decide (800 ≤ t < tA)%Z then 1 else 0)%Z
            ∧ log st'
              = log st ++ (if decide (t < 800)%Z then []
                           else if decide (t < tA)%Z
                                then [DidChangeBusy n 1]
                                else [DidChangeBusy n 1;
                                      DidChangeBusy n 0])) as Hfin.
  { intros b hs st' -> -> -> ->. done. }
  destruct (decide (t < 0)%Z) as [H0|H0];
    [|destruct (decide (t < 400)%Z) as [H400|H400];
      [|destruct (decide (t < tA)%Z) as [HA|HA]]].
  - simpl List.filter.
    rewrite !bool_decide_eq_false_2 by lia. simpl.
    apply (Hfin 0%Z []); [done|by rewrite app_nil_r|..];
      repeat case_decide; done || lia.
  - simpl List.filter.
    rewrite (bool_decide_eq_true_2 (0 ≤ t)%Z) by lia.
    rewrite !bool_decide_eq_false_2 by lia.
    rewrite two_markers_set. unfold BusyMarkers.observe. simpl.
    rewrite decide_False by lia. simpl.
    apply (Hfin 0%Z []); [done|by rewrite app_nil_r|..];
      repeat case_decide; done || lia.
  - simpl List.filter.
    rewrite (bool_decide_eq_true_2 (0 ≤ t)%Z) by lia.
    rewrite (bool_decide_eq_true_2 (400 ≤ t)%Z) by lia.
    rewrite (bool_decide_eq_false_2 (tA ≤ t)%Z) by lia.
    change [(0, BusyMarkers.MarkAsBusy A n 800);
            (0, BusyMarkers.MarkAsBusy B n 800);
            (400, BusyMarkers.CancelToken B)]%Z
      with ([(0, BusyMarkers.MarkAsBusy A n 800);
             (0, BusyMarkers.MarkAsBusy B n 800)]%Z
            ++ [(400, BusyMarkers.CancelToken B)]%Z).
    rewrite run_app, two_markers_set.
    change (BusyMarkers.run [(400%Z, BusyMarkers.CancelToken B)] ?s)
      with (BusyMarkers.perform 400 (BusyMarkers.CancelToken B) s).
    rewrite two_markers_cancel_B by done. rewrite Hreset0.
    rewrite observe_one_timer. rewrite (bool_decide_eq_false_2 _ HAB).
    destruct (decide (800 ≤ t)%Z) as [H800|H800]; simpl.
    + apply (Hfin 1%Z [DidChangeBusy n 1]); [done..| |];
        repeat case_decide; done || lia.
    + apply (Hfin 0%Z []); [done|by rewrite app_nil_r|..];
        repeat case_decide; done || lia.
  - simpl List.filter.
    rewrite (bool_decide_eq_true_2 (0 ≤ t)%Z) by lia.
    rewrite (bool_decide_eq_true_2 (400 ≤ t)%Z) by lia.
    rewrite (bool_decide_eq_true_2 (tA ≤ t)%Z) by lia.
    change [(0, BusyMarkers.MarkAsBusy A n 800);
            (0, BusyMarkers.MarkAsBusy B n 800);
            (400, BusyMarkers.CancelToken B);
            (tA, BusyMarkers.CancelToken A)]%Z
      with ([(0, BusyMarkers.MarkAsBusy A n 800);
             (0, BusyMarkers.MarkAsBusy B n 800)]%Z
            ++ [(400, BusyMarkers.CancelToken B)]%Z
            ++ [(tA, BusyMarkers.CancelToken A)]).
    rewrite !run_app, two_markers_set.
    change (BusyMarkers.run [(400%Z, BusyMarkers.CancelToken B)] ?s)
      with (BusyMarkers.perform 400 (BusyMarkers.CancelToken B) s).
    rewrite two_markers_cancel_B by done. rewrite Hreset0.
    change (BusyMarkers.run [(tA, BusyMarkers.CancelToken A)] ?s)
      with (BusyMarkers.perform tA (BusyMarkers.CancelToken A) s).
    rewrite two_markers_cancel_A by done. rewrite observe_no_timer. simpl.
    apply (Hfin 0%Z [DidChangeBusy n 1; DidChangeBusy n 0]);
      [done|by rewrite Hresetlog, <- app_assoc|..];
      repeat case_decide; done || lia.
Qed.

End busy_facts.

(** C4.  [busy] is a count that is never negative, whatever markers are set
    and cancelled and whenever it is looked at; an elapsed timeout adds one,
    a cancellation takes one off unless the count is zero; [onDidChangeBusy]
    is fired exactly when the count leaves or reaches zero; and with marker
    [A] succeeding after 800 ms and marker [B] cancelled at 400 ms, the node
    is busy from 800 ms until [A] is cancelled, and the event is heard once
    when it becomes busy and once when [A] is cancelled. *)
Theorem busy_is_a_count :
  (∀ script st t n,
     busy_nonneg st → (0 ≤ BusyMarkers.busyAt script st t n)%Z)
  ∧ (∀ st n,
       is_Some (heap st !! n) →
       TreeImpl.busyOr0 (heap (TreeImpl.doSetBusy n st)) n
       = (TreeImpl.busyOr0 (heap st) n + 1)%Z
       ∧ log (TreeImpl.doSetBusy n st)
         = log st ++ if decide (TreeImpl.busyOr0 (heap st) n = 0%Z)
                     then [DidChangeBusy n 1] else [])
  ∧ (∀ st n,
       is_Some (heap st !! n) →
       TreeImpl.busyOr0 (heap (TreeImpl.doResetBusy n st)) n
       = (if decide (0 < TreeImpl.busyOr0 (heap st) n)%Z
          then (TreeImpl.busyOr0 (heap st) n - 1)%Z
          else TreeImpl.busyOr0 (heap st) n)
       ∧ log (TreeImpl.doResetBusy n st)
         = log st ++ if decide (TreeImpl.busyOr0 (heap st) n = 1%Z)
                     then [DidChangeBusy n 0] else [])
  ∧ (∀ st n A B tA t,
       A ≠ B → is_Some (heap st !! n) →
       TreeImpl.busyOr0 (heap st) n = 0%Z → (800 < tA)%Z →
       BusyMarkers.busyAt (BusyMarkers.two_markers n A B tA) st t n
       = (if decide (800 ≤ t < tA)%Z then 1 else 0)%Z
       ∧ BusyMarkers.heardUntil (BusyMarkers.two_markers n A B tA) st t
         = log st ++ (if decide (t < 800)%Z then []
                      else if decide (t < tA)%Z then [DidChangeBusy n 1]
                           else [DidChangeBusy n 1; DidChangeBusy n 0])).
Proof.
  split_and!.
  - intros. by apply busyAt_nonneg.
  - intros st n Hn. split; [by apply doSetBusy_busy|apply doSetBusy_log].
  - intros st n Hn. split; [by apply doResetBusy_busy|apply doResetBusy_log].
  - intros. by apply two_markers_timeline.
Qed.

(** The theorem at the lone root: the count at 1000 ms, with [A] cancelled
    at 1500 ms, is one, and one event has been heard. *)
Lemma busy_is_a_count_witness :
  BusyMarkers.busyAt (BusyMarkers.two_markers 0 1 2 1500) Examples.lone_root
    1000 0 = 1%Z
  ∧ BusyMarkers.heardUntil (BusyMarkers.two_markers 0 1 2 1500)
      Examples.lone_root 1000 = [DidChangeBusy 0 1]
  ∧ (0 ≤ BusyMarkers.busyAt (BusyMarkers.two_markers 0 1 2 1500)
           Examples.lone_root 2000 0)%Z.
Proof.
  destruct busy_is_a_count as (Hnonneg & _ & _ & Htimeline).
  destruct (Htimeline Examples.lone_root 0 1 2 1500%Z 1000%Z) as [Hb Hh];
    [lia|vm_compute; eauto|vm_compute; reflexivity|lia|].
  split_and!; [exact Hb|exact Hh|].
  apply Hnonneg. intros x. unfold TreeImpl.busyOr0, field.
  destruct (heap Examples.lone_root !! x) as [nd|] eqn:Hx; simpl; [|lia].
  destruct (decide (x = 0)) as [->|]; [vm_compute in Hx; by injection Hx as <-|].
  destruct (decide (x = 1)) as [->|]; [vm_compute in Hx; by injection Hx as <-|].
  unfold Examples.lone_root in Hx. simpl in Hx.
  rewrite !lookup_insert_ne in Hx by done. by rewrite lookup_empty in Hx.
Defined.

(** ** C5: moving by one *)

Section navigation_facts.
Context `{TreeIterators}.
Implicit Types (m : ModelState) (n : nat) (l : list nat).

Lemma yields_Finite l k : yields (Finite l) k = l !! k.
Proof.
  revert l. induction k as [|k IH]; intros [|x l]; simpl; auto.
Qed.

Lemma yields_Ring copy i k :
  i < length copy →
  yields (Ring copy i) k = copy !! ((i + k) `mod` length copy).
Proof.
  revert i. induction k as [|k IH]; intros i Hi; simpl.
  - rewrite Nat.add_0_r, Nat.mod_small by done. done.
  - case_decide as Hwrap.
    + rewrite IH by lia. f_equal.
      replace (i + S k) with (k + 1 * length copy) by lia.
      rewrite Nat.Div0.mod_add. done.
    + rewrite IH by lia. f_equal. f_equal. lia.
Qed.

Lemma doGetNode_yields it : TreeModelImpl.doGetNode it = yields it 1.
Proof. unfold TreeModelImpl.doGetNode. simpl. by destruct (next it). Qed.

Lemma indexOf_Some copy n i :
  Iterators.indexOf copy n = Some i → copy !! i = Some n ∧ i < length copy.
Proof.
  unfold Iterators.indexOf. intros Hi.
  destruct (list_find (λ x, x = n) copy) as [[j x]|] eqn:Hf;
    simplify_eq/=.
  apply list_find_Some in Hf as (Hj & -> & _). split; [done|].
  by eapply lookup_lt_Some.
Qed.

Lemma indexOf_elem copy n :
  n ∈ copy → ∃ i, Iterators.indexOf copy n = Some i.
Proof.
  intros Hn. unfold Iterators.indexOf.
  destruct (list_find (λ x, x = n) copy) as [[j x]|] eqn:Hf; [by eexists|].
  apply list_find_None in Hf. rewrite Forall_forall in Hf.
  by destruct (Hf n Hn).
Qed.

(** The loop of [doGetNextNode] on a finite iterator is a search. *)
Lemma doGetNextNode_loop_Finite fuel l criterion :
  length l < fuel →
  TreeModelImpl.doGetNextNode_loop fuel (Finite l) criterion
  = Some (find criterion l).
Proof.
  revert l. induction fuel as [|k IH]; intros l Hl; [lia|].
  destruct l as [|x l]; simpl; [done|].
  destruct (criterion x); [done|]. apply IH. simpl in Hl. lia.
Qed.

Lemma doGetNextNode_Finite fuel l criterion :
  length (tail l) < fuel →
  TreeModelImpl.doGetNextNode fuel (Finite l) criterion
  = Some (find criterion (tail l)).
Proof.
  intros Hl. unfold TreeModelImpl.doGetNextNode.
  destruct l as [|x l]; simpl; by apply doGetNextNode_loop_Finite.
Qed.

Lemma createFiltered_starts m elements n it :
  (∀ x, x ∈ filteredNodes m → x ∈ elements) →
  TreeModelImpl.createFiltered m elements (Some n) = Some it →
  yields it 0 = Some n.
Proof.
  intros Hsub. unfold TreeModelImpl.createFiltered, TreeModelImpl.includes.
  case_bool_decide as Hin; [|done]. intros [= <-].
  destruct (indexOf_elem elements n (Hsub _ Hin)) as [i Hi].
  unfold Iterators.cycle. rewrite Hi. simpl.
  by apply indexOf_Some in Hi as [? _].
Qed.

Lemma iterators_start m n it :
  (TreeModelImpl.createTreeIterator m (Some n) = Some it
   ∨ TreeModelImpl.createIterator m (Some n) = Some it
   ∨ TreeModelImpl.createBackwardTreeIterator m (Some n) = Some it
   ∨ TreeModelImpl.createBackwardIterator m (Some n) = Some it) →
  yields it 0 = Some n.
Proof.
  unfold TreeModelImpl.createTreeIterator, TreeModelImpl.createIterator,
    TreeModelImpl.createBackwardTreeIterator,
    TreeModelImpl.createBackwardIterator.
  destruct (filteredNodes m) as [|x l] eqn:Hf; simpl.
  - intros [[= <-]|[[= <-]|[[= <-]|[= <-]]]];
      match goal with
      | |- (next (Finite ?l)).1 = _ => change (yields (Finite l) 0 = Some n)
      end;
      rewrite yields_Finite, <- head_lookup;
      first [apply TopDown_starts | apply BottomUp_starts].
  - rewrite <- Hf.
    intros [Hc|[Hc|[Hc|Hc]]];
      (eapply createFiltered_starts; [|exact Hc]); auto;
      intros y Hy; by apply elem_of_reverse.
Qed.

End navigation_facts.

(** C5, as the code has it.  [getNextNode] and [getPrevNode] return the
    second value of their iterator, whose first value is the node they start
    from; [undefined] when there is no second value.  Without a filter the
    selectable variants return the first visible selectable node after that
    first value.  When nothing is focused, [getNextSelectableNode] starts
    from the root, and [getPrevSelectableNode] returns what
    [getNextSelectableNode] returns: the first visible selectable node below
    the root. *)
Theorem moves_skip_the_starting_node `{TreeIterators} (m : ModelState) :
  (∀ n it,
     TreeModelImpl.createTreeIterator m (Some n) = Some it →
     yields it 0 = Some n ∧ TreeModelImpl.getNextNode m (Some n) = yields it 1)
  ∧ (∀ n it,
       TreeModelImpl.createBackwardTreeIterator m (Some n) = Some it →
       yields it 0 = Some n
       ∧ TreeModelImpl.getPrevNode m (Some n) = yields it 1)
  ∧ (filteredNodes m = [] →
     ∀ n,
       TreeModelImpl.getNextNode m (Some n)
       = TopDownTreeIterator (heap (tree m)) n false !! 1
       ∧ TreeModelImpl.getPrevNode m (Some n)
         = BottomUpTreeIterator (heap (tree m)) n false !! 1)
  ∧ (filteredNodes m = [] →
     ∀ n fuel,
       (length (TopDownTreeIterator (heap (tree m)) n true) ≤ fuel →
        TreeModelImpl.getNextSelectableNode fuel m (Some n)
        = Some (find (TreeModelImpl.isVisibleSelectableNode m)
                     (tail (TopDownTreeIterator (heap (tree m)) n true))))
       ∧ (length (BottomUpTreeIterator (heap (tree m)) n true) ≤ fuel →
          TreeModelImpl.getPrevSelectableNode fuel m (Some n)
          = Some (find (TreeModelImpl.isVisibleSelectableNode m)
                       (tail (BottomUpTreeIterator (heap (tree m)) n true)))))
  ∧ (focusedNode m = None →
     ∀ fuel,
       TreeModelImpl.getPrevSelectableNode fuel m None
       = TreeModelImpl.getNextSelectableNode fuel m None
       ∧ (filteredNodes m = [] →
          ∀ r, root (tree m) = Some r →
               length (TopDownTreeIterator (heap (tree m)) r true) ≤ fuel →
               TreeModelImpl.getNextSelectableNode fuel m None
               = Some (TreeModelImpl.firstVisibleSelectable m))).
Proof.
  assert (∀ h n prune, length (tail (TopDownTreeIterator h n prune))
                       < length (TopDownTreeIterator h n prune)) as Htd.
  { intros h n prune. pose proof (TopDown_starts h n prune) as Hs.
    destruct (TopDownTreeIterator h n prune); simpl in *; [done|lia]. }
  assert (∀ h n prune, length (tail (BottomUpTreeIterator h n prune))
                       < length (BottomUpTreeIterator h n prune)) as Hbu.
  { intros h n prune. pose proof (BottomUp_starts h n prune) as Hs.
    destruct (BottomUpTreeIterator h n prune); simpl in *; [done|lia]. }
  split_and!.
  - intros n it Hit. split; [eapply iterators_start; eauto|].
    unfold TreeModelImpl.getNextNode. simpl. rewrite Hit. simpl.
    apply doGetNode_yields.
  - intros n it Hit. split; [eapply iterators_start; eauto|].
    unfold TreeModelImpl.getPrevNode. simpl. rewrite Hit. simpl.
    apply doGetNode_yields.
  - intros Hf n.
    unfold TreeModelImpl.getNextNode, TreeModelImpl.getPrevNode,
      TreeModelImpl.createTreeIterator,
      TreeModelImpl.createBackwardTreeIterator.
    rewrite Hf. simpl. by rewrite !doGetNode_yields, !yields_Finite.
  - intros Hf n fuel.
    unfold TreeModelImpl.getNextSelectableNode,
      TreeModelImpl.getPrevSelectableNode, TreeModelImpl.createIterator,
      TreeModelImpl.createBackwardIterator.
    rewrite Hf. simpl. split; intros Hlen; apply doGetNextNode_Finite.
    + specialize (Htd (heap (tree m)) n true). lia.
    + specialize (Hbu (heap (tree m)) n true). lia.
  - intros Hfocus fuel. split.
    + unfold TreeModelImpl.getPrevSelectableNode,
        TreeModelImpl.getNextSelectableNode, TreeModelImpl.getFocusedNode.
      rewrite Hfocus. simpl. by destruct (root (tree m)).
    + intros Hf r Hr Hlen.
      unfold TreeModelImpl.getNextSelectableNode,
        TreeModelImpl.firstVisibleSelectable, TreeModelImpl.getFocusedNode,
        TreeModelImpl.createIterator.
      rewrite Hfocus, Hr, Hf. simpl. apply doGetNextNode_Finite.
      specialize (Htd (heap (tree m)) r true). lia.
Qed.

(** The theorem with the traversals of the specification, at
    [root → [dir1 → [file1, file2], dir2]]: from [file1] under a filter that
    keeps [file1, file2, dir2]; from [dir1] without a filter; and with
    nothing focused. *)
Lemma moves_skip_the_starting_node_witness :
  TreeModelImpl.getNextNode (H := SpecIterators.iterators)
    Examples.filtered_on_file1 (Some 3) = Some 4
  ∧ TreeModelImpl.getNextNode (H := SpecIterators.iterators)
      Examples.unfocused (Some 1) = Some 3
  ∧ TreeModelImpl.getNextSelectableNode (H := SpecIterators.iterators) 5
      Examples.unfocused (Some 1) = Some (Some 3)
  ∧ TreeModelImpl.getPrevSelectableNode (H := SpecIterators.iterators) 5
      Examples.unfocused None = Some (Some 1).
Proof.
  pose proof (@moves_skip_the_starting_node SpecIterators.iterators
                Examples.filtered_on_file1) as (Hring & _).
  pose proof (@moves_skip_the_starting_node SpecIterators.iterators
                Examples.unfocused) as (_ & _ & Hraw & Hsel & Hfall).
  split_and!.
  - destruct (Hring 3 (Ring [3; 4; 2] 0) eq_refl) as [_ ->]. reflexivity.
  - destruct (Hraw eq_refl 1) as [-> _]. vm_compute. reflexivity.
  - destruct (Hsel eq_refl 1 5) as [-> _]; [|vm_compute; lia].
    vm_compute. reflexivity.
  - destruct (Hfall eq_refl 5) as [-> Hnext].
    rewrite (Hnext eq_refl 0 eq_refl); [|vm_compute; lia].
    vm_compute. reflexivity.
Defined.

(** C5 as the specification states it fails for "prev": with nothing
    focused, [getPrevSelectableNode] returns [dir1], the first visible
    selectable node below the root, where the symmetric fallback is [dir2],
    the last one. *)
Lemma prev_fallback_is_the_first_node :
  TreeModelImpl.getPrevSelectableNode (H := SpecIterators.iterators) 5
    Examples.unfocused None = Some (Some 1)
  ∧ TreeModelImpl.firstVisibleSelectable (H := SpecIterators.iterators)
      Examples.unfocused = Some 1
  ∧ TreeModelImpl.lastVisibleSelectable (H := SpecIterators.iterators)
      Examples.unfocused = Some 2
  ∧ TreeModelImpl.getPrevSelectableNode (H := SpecIterators.iterators) 5
      Examples.unfocused None
    ≠ Some (TreeModelImpl.lastVisibleSelectable
              (H := SpecIterators.iterators) Examples.unfocused).
Proof. split_and!; [vm_compute; reflexivity..|vm_compute; discriminate]. Qed.

(** ** C9: the source tree reuses the nodes it knows *)

Section sourceTree_facts.
Implicit Types (h : gmap nat node) (x l p : nat) (st : TreeState).






Lemma forEach_invariant {St A} (P : St → St → Prop)
    (f : A → nat → St → option St) (items : list A) (i : nat) (s s' : St) :
  (∀ s, P s s) → (∀ s1 s2 s3, P s1 s2 → P s2 s3 → P s1 s3) →
  (∀ a j s s', f a j s = Some s' → P s s') →
  forEach f items i s = Some s' → P s s'.
Proof.
  intros Hrefl Htrans Hf. revert i s.
  induction items as [|a items IH]; intros i s; simpl; [by intros [= <-]|].
  destruct (f a i s) as [s1|] eqn:Hx; [|done]. intros Hl.
  eapply Htrans; [by eapply Hf|by eapply IH].
Qed.

Lemma addNode_same_shape fuel n st st' :
  TreeImpl.addNode fuel n st = Some st' → same_shape (heap st) (heap st').
Proof.
  revert n st st'. induction fuel as [|k IH]; intros n st st'; [done|].
  simpl. destruct (heap st !! n) as [nd|]; [|done].
  destruct (children nd) as [cs|]; [|intros [= <-]; apply same_shape_refl].
  intros Hloop.
  apply (forEach_invariant (λ s s', same_shape (heap s) (heap s'))) in Hloop;
    [done|intros; apply same_shape_refl
     |intros ??? ??; by eapply same_shape_trans|].
  intros c j s s1 Hadd. apply IH in Hadd. simpl in Hadd.
  eapply same_shape_trans; [apply same_shape_setParent|done].
Qed.

Lemma removeNode_heap_eq fuel n st st' :
  TreeImpl.removeNode fuel n st = Some st' → heap st' = heap st.
Proof.
  revert n st st'. induction fuel as [|k IH]; intros n st st'; [done|].
  simpl. destruct (heap st !! n) as [nd|]; [|done].
  destruct (children nd) as [cs|]; simpl; [|by intros [= <-]].
  destruct (forEach _ cs 0 st) as [s1|] eqn:Hloop; simpl; [|done].
  intros [= <-]. simpl.
  apply (forEach_invariant (λ s s', heap s' = heap s)) in Hloop;
    [done|done|intros ??? ??; congruence|].
  intros c j s s' Hr. by eapply IH.
Qed.



Lemma field_alter_here {A} (f : node → option A) (g : node → node) h l :
  is_Some (h !! l) → ∀ v, (∀ n, f (g n) = v) → field f (alter g l h) l = v.
Proof.
  intros [n Hn] v Hv. rewrite field_alter. case_decide; [|done].
  rewrite Hn. simpl. apply Hv.
Qed.




End sourceTree_facts.





(** ** Decorations *)

Section decoration_facts.
Implicit Types (w : Wrapper) (uri u : list string) (d : Decoration)
  (r : nat) (m : gmap (list string) slot).

Lemma get_Request m uri r :
  TernarySearchTree.get m uri = Request r ↔ m !! uri = Some (Request r).
Proof.
  unfold TernarySearchTree.get. destruct (m !! uri) as [[]|]; simpl;
    split; congruence.
Qed.

Lemma get_Resolved m uri d :
  TernarySearchTree.get m uri = Resolved d ↔ m !! uri = Some (Resolved d).
Proof.
  unfold TernarySearchTree.get. destruct (m !! uri) as [[]|]; simpl;
    split; congruence.
Qed.

Lemma elem_of_findSuperstr m uri (s : slot) :
  s ∈ TernarySearchTree.findSuperstr m uri
  ↔ ∃ u, uri `prefix_of` u ∧ uri ≠ u ∧ m !! u = Some s.
Proof.
  unfold TernarySearchTree.findSuperstr. rewrite list_elem_of_fmap. split.
  - intros ([u s'] & -> & Hin). apply list_elem_of_filter in Hin as [[? ?] Hin].
    apply elem_of_map_to_list in Hin. simpl in *. eauto.
  - intros (u & Hp & Hne & Hu). exists (u, s). split; [done|].
    apply list_elem_of_filter. split; [done|]. by apply elem_of_map_to_list.
Qed.

(** What [fetchData] leaves in the cache when nothing was pending. *)
Lemma fetchData_idle uri w :
  (∀ r, TernarySearchTree.get (data w) uri ≠ Request r) →
  match provider w (calls w) uri with
  | Now d =>
      DecorationProviderWrapper.fetchData uri w
      = (d, mkWrapper (provider w)
              (<[uri := match d with
                        | Some d => Resolved d
                        | None => Undefined
                        end]> (data w))
              (requests w) (S (calls w)))
  | Later =>
      DecorationProviderWrapper.fetchData uri w
      = (None, mkWrapper (provider w)
                 (<[uri := Request (length (requests w))]> (data w))
                 (requests w ++ [mkRequest uri false false]) (S (calls w)))
  end.
Proof.
  intros Hidle. unfold DecorationProviderWrapper.fetchData.
  destruct (TernarySearchTree.get (data w) uri) as [r| |] eqn:Hget;
    [by destruct (Hidle r)|..];
    by destruct (provider w (calls w) uri).
Qed.

(** The own decoration [getOrRetrieve] reports is the one the cache holds
    afterwards, and the decorations it reports as children are those the
    cache holds for strict descendants. *)
Lemma getOrRetrieve_callbacks uri includeChildren w cbs w' d :
  DecorationProviderWrapper.getOrRetrieve uri includeChildren w = (cbs, w') →
  ((d, false) ∈ cbs ↔ resolved_at w' uri d)
  ∧ ((d, true) ∈ cbs ↔ includeChildren = true ∧ resolved_below w' uri d).
Proof.
  unfold DecorationProviderWrapper.getOrRetrieve, resolved_at,
    resolved_below.
  set (below w1 := if includeChildren then
                     omap (λ value, match value with
                                    | Resolved d => Some (d, true)
                                    | _ => None
                                    end)
                          (TernarySearchTree.findSuperstr (data w1) uri)
                   else []).
  assert (∀ w1 d' b, (d', b) ∈ below w1 ↔
            b = true ∧ includeChildren = true
            ∧ ∃ u, uri `prefix_of` u ∧ uri ≠ u
                   ∧ data w1 !! u = Some (Resolved d')) as Hbelow.
  { intros w1 d' b. unfold below. destruct includeChildren.
    - rewrite list_elem_of_omap. split.
      + intros (s & Hs & Hsome). destruct s; simplify_eq/=.
        apply elem_of_findSuperstr in Hs. auto.
      + intros (-> & _ & Hu). exists (Resolved d'). split; [|done].
        by apply elem_of_findSuperstr.
    - split; [by intros ?%elem_of_nil|]. by intros (_ & ? & _). }
  assert (∀ item w1,
            (item = Undefined ∨ (∃ r, item = Request r) →
             ∀ d', data w1 !! uri ≠ Some (Resolved d')) →
            (∀ d', item = Resolved d' → data w1 !! uri = Some (Resolved d')) →
            (match item with Resolved d => [(d, false)] | _ => [] end
               ++ below w1, w1) = (cbs, w') →
            ((d, false) ∈ cbs ↔ data w' !! uri = Some (Resolved d))
            ∧ ((d, true) ∈ cbs
               ↔ includeChildren = true
                 ∧ ∃ u, uri `prefix_of` u ∧ uri ≠ u
                        ∧ data w' !! u = Some (Resolved d))) as Hfin.
  { intros item w1 Hnot Hres [= <- <-].
    rewrite !elem_of_app, !Hbelow. split.
    - split.
      + intros [Hin|(? & _)]; [|done].
        destruct item; try by apply elem_of_nil in Hin.
        apply list_elem_of_singleton in Hin as [= <-]. by apply Hres.
      + intros Hd. left. destruct item as [r| |].
        * exfalso. eapply Hnot; eauto.
        * rewrite (Hres d0 eq_refl) in Hd. injection Hd as ->.
          by apply list_elem_of_singleton.
        * exfalso. eapply Hnot; eauto.
    - split.
      + intros [Hin|(_ & ? & ?)]; [|done].
        destruct item; try by apply elem_of_nil in Hin.
        by apply list_elem_of_singleton in Hin.
      + intros [? ?]. right. done. }
  destruct (TernarySearchTree.get (data w) uri) as [r|d0|] eqn:Hget.
  - apply (Hfin (Request r) w).
    + intros _ d'. apply get_Request in Hget. congruence.
    + done.
  - apply (Hfin (Resolved d0) w).
    + intros [?|[? ?]]; done.
    + intros d' [= <-]. by apply get_Resolved.
  - pose proof (fetchData_idle uri w) as Hf.
    rewrite Hget in Hf. specialize (Hf (λ _, ltac:(done))).
    destruct (provider w (calls w) uri) as [[d0|]|]; rewrite Hf.
    + apply (Hfin (Resolved d0)).
      * intros [?|[? ?]]; done.
      * intros d' [= <-]. simpl. by rewrite lookup_insert_eq.
    + apply (Hfin Undefined); [|done].
      intros _ d'. simpl. by rewrite lookup_insert_eq.
    + apply (Hfin Undefined); [|done].
      intros _ d'. simpl. by rewrite lookup_insert_eq.
Qed.

Lemma getDecoration_loop_elem uri includeChildren ws ds ws' d :
  DecorationsServiceImpl.getDecoration_loop uri includeChildren ws
    = (ds, ws') →
  d ∈ ds ↔
  ∃ w', w' ∈ ws'
        ∧ (resolved_at w' uri d
           ∨ (includeChildren = true ∧ bubble d = Some true
              ∧ resolved_below w' uri d)).
Proof.
  revert ds ws'. induction ws as [|w ws IH]; intros ds ws'; simpl.
  { intros [= <- <-]. split; [by intros ?%elem_of_nil|].
    by intros (? & ?%elem_of_nil & _). }
  destruct (DecorationProviderWrapper.getOrRetrieve uri includeChildren w)
    as [cbs w1] eqn:Hget.
  destruct (DecorationsServiceImpl.getDecoration_loop uri includeChildren ws)
    as [more rest] eqn:Hloop.
  intros [= <- <-]. specialize (IH more rest eq_refl).
  pose proof (getOrRetrieve_callbacks _ _ _ _ _ d Hget) as [Hown Hbelow].
  rewrite elem_of_app, IH, list_elem_of_omap. split.
  - intros [([d' b] & Hin & Hpush)|(w' & Hw' & Hd)].
    + exists w1. split; [apply elem_of_cons; auto|].
      destruct b; simpl in Hpush.
      * case_bool_decide as Hb; simplify_eq/=. right.
        apply Hbelow in Hin as [? ?]. done.
      * simplify_eq/=. left. by apply Hown.
    + exists w'. split; [apply elem_of_cons; auto|done].
  - intros (w' & [->|Hw']%elem_of_cons & Hd); [left|right; eauto].
    destruct Hd as [Hd|(Hinc & Hb & Hd)].
    + exists (d, false). split; [by apply Hown|done].
    + exists (d, true). split; [by apply Hbelow|].
      simpl. by rewrite bool_decide_eq_true_2.
Qed.

(** What a call of [getOrRetrieve] changes in the cache: the entry of
    the URI, and only when it was [undefined]. *)
Lemma getOrRetrieve_data uri includeChildren w cbs w' :
  DecorationProviderWrapper.getOrRetrieve uri includeChildren w = (cbs, w') →
  (∀ u, u ≠ uri → data w' !! u = data w !! u)
  ∧ (∀ d, resolved_at w' uri d
          ↔ resolved_at w uri d
            ∨ (TernarySearchTree.get (data w) uri = Undefined
               ∧ provider w (calls w) uri = Now (Some d))).
Proof.
  unfold DecorationProviderWrapper.getOrRetrieve, resolved_at.
  destruct (TernarySearchTree.get (data w) uri) as [r|d0|] eqn:Hget.
  - intros [= _ <-]. split; [done|]. intros d. split; [auto|].
    intros [?|[? _]]; done.
  - intros [= _ <-]. split; [done|]. intros d. split; [auto|].
    intros [?|[? _]]; done.
  - pose proof (fetchData_idle uri w) as Hf.
    rewrite Hget in Hf. specialize (Hf (λ _, ltac:(done))).
    assert (∀ d, data w !! uri ≠ Some (Resolved d)) as Hnot.
    { intros d Hd. apply get_Resolved in Hd. congruence. }
    destruct (provider w (calls w) uri) as [[d0|]|]; rewrite Hf;
      intros [= _ <-]; simpl;
      (split; [by intros u Hu; rewrite lookup_insert_ne|]);
      intros d; rewrite lookup_insert_eq.
    + split; [intros [= <-]; auto|].
      intros [Hd|[_ [= ->]]]; [by destruct (Hnot d)|done].
    + split; [done|]. intros [Hd|[_ [=]]]. by destruct (Hnot d).
    + split; [done|]. intros [Hd|[_ [=]]]. by destruct (Hnot d).
Qed.

Lemma getOrRetrieve_below uri includeChildren w cbs w' d :
  DecorationProviderWrapper.getOrRetrieve uri includeChildren w = (cbs, w') →
  resolved_below w' uri d ↔ resolved_below w uri d.
Proof.
  intros [Hother _]%getOrRetrieve_data. unfold resolved_below.
  split; intros (u & Hp & Hne & Hu); exists u; split_and!; try done.
  - by rewrite <- Hother.
  - by rewrite Hother.
Qed.

(** The decorations of [getDecoration], by the caches before the call. *)
Lemma getDecoration_loop_before uri includeChildren ws ds ws' d :
  DecorationsServiceImpl.getDecoration_loop uri includeChildren ws
    = (ds, ws') →
  d ∈ ds ↔
  ∃ w, w ∈ ws
       ∧ (resolved_at w uri d
          ∨ (TernarySearchTree.get (data w) uri = Undefined
             ∧ provider w (calls w) uri = Now (Some d))
          ∨ (includeChildren = true ∧ bubble d = Some true
             ∧ resolved_below w uri d)).
Proof.
  revert ds ws'. induction ws as [|w ws IH]; intros ds ws'; simpl.
  { intros [= <- <-]. split; [by intros ?%elem_of_nil|].
    by intros (? & ?%elem_of_nil & _). }
  destruct (DecorationProviderWrapper.getOrRetrieve uri includeChildren w)
    as [cbs w1] eqn:Hget.
  destruct (DecorationsServiceImpl.getDecoration_loop uri includeChildren ws)
    as [more rest] eqn:Hloop.
  intros [= <- <-]. specialize (IH more rest eq_refl).
  pose proof (getOrRetrieve_callbacks _ _ _ _ _ d Hget) as [Hown Hbelow].
  pose proof (getOrRetrieve_data _ _ _ _ _ Hget) as [_ Hat].
  pose proof (getOrRetrieve_below _ _ _ _ _ d Hget) as Hbl.
  rewrite elem_of_app, IH, list_elem_of_omap. split.
  - intros [([d' b] & Hin & Hpush)|(w' & Hw' & Hd)].
    + exists w. split; [apply elem_of_cons; auto|].
      destruct b; simpl in Hpush.
      * case_bool_decide as Hb; simplify_eq/=. right; right.
        apply Hbelow in Hin as [? ?]. split_and!; [done..|by apply Hbl].
      * simplify_eq/=. apply Hown, Hat in Hin. tauto.
    + exists w'. split; [apply elem_of_cons; auto|done].
  - intros (w' & [->|Hw']%elem_of_cons & Hd); [left|right; eauto].
    destruct Hd as [Hd|[Hd|(Hinc & Hb & Hd)]].
    + exists (d, false). split; [apply Hown, Hat; auto|done].
    + exists (d, false). split; [apply Hown, Hat; auto|done].
    + exists (d, true). split; [apply Hbelow; split; [done|by apply Hbl]|].
      simpl. by rewrite bool_decide_eq_true_2.
Qed.

End decoration_facts.


Section cache_invariant.
Implicit Types (w : Wrapper) (uri u : list string) (d : Decoration)
  (r : nat) (m : gmap (list string) slot) (rs : list request)
  (q : request) (s : slot).













Lemma Forall_alter_ok (f : Wrapper → Wrapper) i ws :
  (∀ w, wrapper_ok w → wrapper_ok (f w)) →
  Forall wrapper_ok ws → Forall wrapper_ok (alter f i ws).
Proof.
  intros Hf Hws. apply Forall_lookup. intros j w.
  rewrite list_lookup_alter. rewrite Forall_lookup in Hws.
  case_decide; [subst|by apply Hws].
  destruct (ws !! j) as [w0|] eqn:Hj; simpl; [|done].
  intros [= <-]. eauto.
Qed.

Lemma getDecoration_loop_length uri includeChildren ws :
  length (DecorationsServiceImpl.getDecoration_loop uri includeChildren ws).2
  = length ws.
Proof.
  induction ws as [|w ws IH]; simpl; [done|].
  destruct (DecorationProviderWrapper.getOrRetrieve uri includeChildren w).
  destruct (DecorationsServiceImpl.getDecoration_loop uri includeChildren ws).
  simpl in *. by rewrite IH.
Qed.







End cache_invariant.

Section fetch_facts.
Implicit Types (w : Wrapper) (uri u : list string) (d : Decoration)
  (r : nat) (q : request).




(** A settled promise writes to the cache only through its own marker. *)
Lemma settle_stale r o w q :
  requests w !! r = Some q →
  TernarySearchTree.get (data w) (req_uri q) ≠ Request r →
  data (DecorationProviderWrapper.settle r o w).2 = data w.
Proof.
  intros Hq Hstale. unfold DecorationProviderWrapper.settle. rewrite Hq.
  destruct (req_settled q); [done|].
  rewrite bool_decide_eq_false_2 by done.
  destruct o; simpl; [done|]. by rewrite andb_false_r.
Qed.



(** A rejection: the chained promise is fulfilled all the same; a
    cancellation error leaves the cache alone; another error on the
    current request removes the entry. *)
Lemma settle_rejected r e w :
  (DecorationProviderWrapper.settle r (Rejected e) w).1 = None
  ∧ (DecorationProviderWrapper.isCanceled e = true →
     data (DecorationProviderWrapper.settle r (Rejected e) w).2 = data w).
Proof.
  unfold DecorationProviderWrapper.settle.
  destruct (requests w !! r) as [q|]; [|done].
  destruct (req_settled q); [done|]. split.
  - by destruct (negb _ && _).
  - by intros ->.
Qed.

Lemma settle_rejected_current r e w q :
  DecorationProviderWrapper.isCanceled e = false →
  requests w !! r = Some q → req_settled q = false →
  TernarySearchTree.get (data w) (req_uri q) = Request r →
  data (DecorationProviderWrapper.settle r (Rejected e) w).2
  = delete (req_uri q) (data w).
Proof.
  intros He Hq Hst Hcur. unfold DecorationProviderWrapper.settle.
  rewrite Hq, Hst, He. by rewrite bool_decide_eq_true_2.
Qed.

End fetch_facts.





(** C8.  When the promise of a provider is rejected, the promise the
    wrapper keeps is fulfilled; a rejection with an [Error] named and
    messaged ['Canceled'] leaves the cache as it is; any other rejection of
    the request that is the entry of the cache for its URI deletes that
    entry, so that no decoration is resolved for the URI; a rejection of a
    request that is no longer the entry leaves the cache as it is. *)
Theorem rejection_is_swallowed r e w :
  (DecorationProviderWrapper.settle r (Rejected e) w).1 = None
  ∧ (DecorationProviderWrapper.isCanceled e = true →
     data (DecorationProviderWrapper.settle r (Rejected e) w).2 = data w)
  ∧ (∀ q,
       DecorationProviderWrapper.isCanceled e = false →
       requests w !! r = Some q → req_settled q = false →
       TernarySearchTree.get (data w) (req_uri q) = Request r →
       data (DecorationProviderWrapper.settle r (Rejected e) w).2
       = delete (req_uri q) (data w)
       ∧ TernarySearchTree.get
           (data (DecorationProviderWrapper.settle r (Rejected e) w).2)
           (req_uri q) = Undefined
       ∧ ∀ d, ¬ resolved_at
                  (DecorationProviderWrapper.settle r (Rejected e) w).2
                  (req_uri q) d)
  ∧ (∀ q,
       requests w !! r = Some q →
       TernarySearchTree.get (data w) (req_uri q) ≠ Request r →
       data (DecorationProviderWrapper.settle r (Rejected e) w).2 = data w).
Proof.
  destruct (settle_rejected r e w) as [Hnone Hcancel].
  split_and!; try done.
  - intros q He Hq Hst Hcur.
    pose proof (settle_rejected_current r e w q He Hq Hst Hcur) as Hdel.
    split_and!; [done| |].
    + unfold TernarySearchTree.get. by rewrite Hdel, lookup_delete_eq.
    + intros d. unfold resolved_at. by rewrite Hdel, lookup_delete_eq.
  - intros q Hq Hstale. by eapply settle_stale.
Qed.

(** The theorem at the pending request for [dir1]: rejected with a plain
    error, its entry is deleted; rejected with the cancellation error, the
    entry stays. *)
Lemma rejection_is_swallowed_witness :
  data (DecorationProviderWrapper.settle 0
          (Rejected (ErrorObject "Error" "boom")) Examples.pending_dir1).2
  = delete Examples.dir1_uri (data Examples.pending_dir1)
  ∧ data (DecorationProviderWrapper.settle 0
            (Rejected (ErrorObject "Canceled" "Canceled"))
            Examples.pending_dir1).2
    = data Examples.pending_dir1
  ∧ data (DecorationProviderWrapper.settle 0
            (Rejected (ErrorObject "Error" "boom")) Examples.refetched_dir1).2
    = data Examples.refetched_dir1.
Proof.
  split_and!.
  - destruct (rejection_is_swallowed 0 (ErrorObject "Error" "boom")
                Examples.pending_dir1) as (_ & _ & Hdel & _).
    destruct (Hdel (mkRequest Examples.dir1_uri false false))
      as [Hd _]; [reflexivity..|]. exact Hd.
  - destruct (rejection_is_swallowed 0 (ErrorObject "Canceled" "Canceled")
                Examples.pending_dir1) as (_ & Hkeep & _).
    apply Hkeep. reflexivity.
  - destruct (rejection_is_swallowed 0 (ErrorObject "Error" "boom")
                Examples.refetched_dir1) as (_ & _ & _ & Hstale).
    apply (Hstale (mkRequest Examples.dir1_uri true false)); [reflexivity|].
    vm_compute. discriminate.
Defined.

(** C6.  A decoration is in the array [getDecoration] returns exactly when,
    for some registered provider, the cache holds it, resolved, for the URI
    itself; or the cache holds nothing for the URI and the provider returns
    it at once; or, with [includeChildren], the cache holds it for a strict
    descendant and it has [bubble: true]. *)
Theorem getDecoration_bubble_rule uri includeChildren ws d :
  d ∈ (DecorationsServiceImpl.getDecoration uri includeChildren ws).1
  ↔ ∃ w, w ∈ ws
         ∧ (resolved_at w uri d
            ∨ (TernarySearchTree.get (data w) uri = Undefined
               ∧ provider w (calls w) uri = Now (Some d))
            ∨ (includeChildren = true ∧ bubble d = Some true
               ∧ resolved_below w uri d)).
Proof.
  unfold DecorationsServiceImpl.getDecoration.
  destruct (DecorationsServiceImpl.getDecoration_loop uri includeChildren ws)
    as [ds ws'] eqn:Hloop.
  by eapply getDecoration_loop_before.
Qed.


(** * The rest of the tree core *)

(** ** [CompositeTreeNode]: adding, finding and following children *)

(** Reads a field through the [alter]s that wrote the heap. *)
Ltac field_alters :=
  repeat match goal with
         | |- context [field ?f (alter ?g ?a ?m) ?b] =>
             first
               [ rewrite (field_alter_keep f g m a b) by done
               | rewrite (field_alter_ne f g m a b) by congruence
               | erewrite (field_alter_here f g m a);
                 [|repeat apply is_Some_alter; done
                  |intros; simpl; reflexivity] ]
         end.

Section children_facts.
Implicit Types (h : gmap nat node) (x y l p c : nat) (cs : list nat).

Lemma id_of_alter h (g : node → node) y x :
  (∀ n, id (g n) = id n) → id_of (alter g y h) x = id_of h x.
Proof.
  intros Hg. unfold id_of. rewrite lookup_alter. case_decide; [|done].
  subst. destruct (h !! x); simpl; by rewrite ?Hg.
Qed.

Lemma findIndex_Some h cid cs i :
  CompositeTreeNode.findIndex h cid cs = Some i →
  ∃ x, cs !! i = Some x ∧ id_of h x = cid.
Proof.
  revert i. induction cs as [|c cs IH]; intros i; simpl; [done|].
  case_decide.
  - intros [= <-]. eauto.
  - destruct (CompositeTreeNode.findIndex h cid cs) as [k|] eqn:Hk; [|done].
    simpl. intros [= <-]. by apply IH.
Qed.

Lemma findIndex_None h cid cs x :
  CompositeTreeNode.findIndex h cid cs = None → x ∈ cs → id_of h x ≠ cid.
Proof.
  induction cs as [|c cs IH]; simpl; [by intros _ ?%elem_of_nil|].
  case_decide; [done|].
  destruct (CompositeTreeNode.findIndex h cid cs) eqn:Hk; [done|].
  intros _ [->|Hx]%elem_of_cons; [done|]. by apply IH.
Qed.

(** What [setParent] leaves in the three links of every object. *)
Lemma setParent_links h c i p cs x :
  field children h p = Some cs → NoDup cs → cs !! i = Some c →
  (∀ y, y ∈ cs → is_Some (h !! y)) → is_Some (h !! x) →
  field parent (CompositeTreeNode.setParent c i p h) x
    = (if decide (x = c) then Some p else field parent h x)
  ∧ field previousSibling (CompositeTreeNode.setParent c i p h) x
    = (if decide (x = c) then CompositeTreeNode.before cs i
       else if decide (cs !! S i = Some x) then Some c
       else field previousSibling h x)
  ∧ field nextSibling (CompositeTreeNode.setParent c i p h) x
    = (if decide (x = c) then cs !! S i
       else if decide (CompositeTreeNode.before cs i = Some x) then Some c
       else field nextSibling h x).
Proof.
  intros Hcs Hnd Hi Hall Hx.
  assert (CompositeTreeNode.before cs i ≠ Some c) as Hbc.
  { destruct i as [|i']; simpl; [done|]. intros Hb.
    pose proof (NoDup_lookup _ _ _ _ Hnd Hb Hi). lia. }
  assert (cs !! S i ≠ Some c) as Hnc.
  { intros Hn. pose proof (NoDup_lookup _ _ _ _ Hnd Hn Hi). lia. }
  assert (∀ a, CompositeTreeNode.before cs i = Some a → cs !! S i ≠ Some a)
    as Hbn.
  { intros a Hb Hn. destruct i as [|i']; simpl in Hb; [done|].
    pose proof (NoDup_lookup _ _ _ _ Hnd Hb Hn). lia. }
  assert (is_Some (h !! c)) as Hc.
  { apply Hall. by eapply list_elem_of_lookup_2. }
  unfold CompositeTreeNode.setParent. rewrite Hcs. simpl.
  destruct (CompositeTreeNode.before cs i) as [pr|] eqn:Hb;
    destruct (cs !! S i) as [nx|] eqn:Hn.
  all: split_and!; repeat case_decide; simplify_eq; field_alters; done.
Qed.


(** Once [children] has become [cs'], which differs from [cs] at [idx]
    only, where it holds [c]: [setParent] of [c] links all of [cs']. *)
Lemma setParent_relinks h p cs cs' idx c :
  field children h p = Some cs → links_ok h p →
  (∀ j, j ≠ idx → cs' !! j = cs !! j) → cs' !! idx = Some c →
  NoDup cs' → (∀ y, y ∈ cs' → is_Some (h !! y)) →
  links_ok (CompositeTreeNode.setParent c idx p
              (alter (set_children (Some cs')) p h)) p.
Proof.
  intros Hcs Hok Hsame Hidx Hnd Hall.
  set (h1 := alter (set_children (Some cs')) p h).
  assert (field children h1 p = Some cs') as Hcs1.
  { unfold h1. erewrite field_alter_here; [done| |by intros].
    by eapply field_is_Some. }
  assert (∀ y, is_Some (h !! y) → is_Some (h1 !! y)) as Halloc.
  { intros y Hy. by apply is_Some_alter. }
  intros cs'' j x Hcs'' Hj.
  rewrite (same_shape_children h1) in Hcs''
    by apply same_shape_setParent.
  rewrite Hcs1 in Hcs''. injection Hcs'' as <-.
  assert (is_Some (h1 !! x)) as Hx.
  { apply Halloc, Hall. by eapply list_elem_of_lookup_2. }
  destruct (setParent_links h1 c idx p cs' x Hcs1 Hnd Hidx) as (Hp & Hpr & Hnx);
    [by intros y Hy; apply Halloc, Hall|done|].
  assert (x ≠ c → linked h p cs j x) as Hold.
  { intros Hne. apply Hok; [done|]. rewrite <- Hsame; [done|].
    intros ->. congruence. }
  assert (∀ A (f : node → option A),
            (∀ n, f (set_children (Some cs') n) = f n) →
            field f h1 x = field f h x) as Hkeep.
  { intros A f Hf. unfold h1. by apply field_alter_keep. }
  unfold linked. rewrite Hp, Hpr, Hnx. clear Hp Hpr Hnx.
  rewrite !Hkeep by done.
  destruct (decide (x = c)) as [->|Hne].
  - pose proof (NoDup_lookup _ _ _ _ Hnd Hj Hidx) as ->. done.
  - destruct (Hold Hne) as (Hp' & Hpr' & Hnx'). split_and!; [done| |].
    + case_decide as Hs.
      * pose proof (NoDup_lookup _ _ _ _ Hnd Hj Hs) as ->. done.
      * rewrite Hpr'. destruct j as [|k]; simpl; [done|].
        symmetry. apply Hsame. intros ->. done.
    + case_decide as Hs.
      * destruct idx as [|k]; simpl in Hs; [done|].
        pose proof (NoDup_lookup _ _ _ _ Hnd Hj Hs) as ->. done.
      * rewrite Hnx'. symmetry. apply Hsame. intros <-. done.
Qed.

Lemma distinct_ids_transport h h' cs :
  (∀ x, id_of h' x = id_of h x) → distinct_ids h cs → distinct_ids h' cs.
Proof.
  intros Hid [Hall Hnd]. split.
  - eapply Forall_impl; [exact Hall|]. intros x Hx. simpl in Hx.
    specialize (Hid x). unfold id_of in Hid.
    destruct (h' !! x); [done|]. destruct Hx as [n Hn].
    by rewrite Hn in Hid.
  - replace (id_of h' <$> cs) with (id_of h <$> cs); [done|].
    apply list_fmap_ext. intros ? x _. by rewrite Hid.
Qed.

Lemma distinct_ids_NoDup h cs : distinct_ids h cs → NoDup cs.
Proof. intros [_ Hnd]. by eapply NoDup_fmap_1. Qed.

(** The child array [addChild] leaves, and where it puts the child. *)
Lemma addChild_unfold h p c cs :
  field children h p = Some cs →
  ∃ idx cs',
    CompositeTreeNode.addChild p c h
    = Some (CompositeTreeNode.setParent c idx p
              (alter (set_children (Some cs')) p h))
    ∧ cs' = match CompositeTreeNode.findIndex h (id_of h c) cs with
            | Some i => <[i := c]> cs
            | None => cs ++ [c]
            end
    ∧ idx = default (length cs)
                    (CompositeTreeNode.findIndex h (id_of h c) cs)
    ∧ (∀ j, j ≠ idx → cs' !! j = cs !! j) ∧ cs' !! idx = Some c
    ∧ (is_Some (h !! c) → distinct_ids h cs → distinct_ids h cs').
Proof.
  intros Hcs. unfold CompositeTreeNode.addChild. rewrite Hcs. simpl.
  destruct (CompositeTreeNode.findIndex h (id_of h c) cs) as [i|] eqn:Hf.
  - destruct (findIndex_Some _ _ _ _ Hf) as (x & Hx & Hid).
    exists i, (<[i := c]> cs). split_and!; try done.
    + intros j Hj. by rewrite list_lookup_insert_ne.
    + apply list_lookup_insert_eq. by eapply lookup_lt_Some.
    + intros Hc [Hall Hnd]. split.
      * by apply Forall_insert.
      * rewrite list_fmap_insert, list_insert_id; [done|].
        by rewrite list_lookup_fmap, Hx, <- Hid.
  - exists (length cs), (cs ++ [c]). split_and!; try done.
    + do 2 f_equal. rewrite length_app. simpl. lia.
    + intros j Hj. destruct (decide (j < length cs)).
      * by rewrite lookup_app_l.
      * rewrite !lookup_ge_None_2; [done|lia|].
        rewrite length_app. simpl. lia.
    + by rewrite list_lookup_middle.
    + intros Hc [Hall Hnd]. split.
      * apply Forall_app. split; [done|]. by apply Forall_singleton.
      * rewrite fmap_app. apply NoDup_app. split_and!; [done| |].
        -- intros i (y & -> & Hy)%list_elem_of_fmap. simpl.
           intros Heq%list_elem_of_singleton.
           by eapply findIndex_None.
        -- apply NoDup_singleton.
Qed.

Lemma id_of_setParent h c i p x :
  id_of (CompositeTreeNode.setParent c i p h) x = id_of h x.
Proof. apply same_shape_id, same_shape_setParent. Qed.

Lemma addChild_post h p c cs :
  field children h p = Some cs → is_Some (h !! c) → distinct_ids h cs →
  links_ok h p →
  ∃ h' idx cs',
    CompositeTreeNode.addChild p c h = Some h'
    ∧ h' = CompositeTreeNode.setParent c idx p
             (alter (set_children (Some cs')) p h)
    ∧ cs' = match CompositeTreeNode.findIndex h (id_of h c) cs with
            | Some i => <[i := c]> cs
            | None => cs ++ [c]
            end
    ∧ idx = default (length cs)
                    (CompositeTreeNode.findIndex h (id_of h c) cs)
    ∧ field children h' p = Some cs'
    ∧ cs' !! idx = Some c
    ∧ distinct_ids h' cs'
    ∧ links_ok h' p
    ∧ (∀ x, id_of h' x = id_of h x).
Proof.
  intros Hcs Hc Hd Hok.
  destruct (addChild_unfold h p c cs Hcs)
    as (idx & cs' & Hadd & Hcs' & Hidx & Hsame & Hat & Hd').
  specialize (Hd' Hc Hd).
  eexists _, idx, cs'. split; [exact Hadd|].
  assert (∀ x, id_of (CompositeTreeNode.setParent c idx p
                        (alter (set_children (Some cs')) p h)) x
               = id_of h x) as Hid.
  { intros x. rewrite id_of_setParent. by apply id_of_alter. }
  split_and!; try done.
  - rewrite (same_shape_children (alter (set_children (Some cs')) p h))
      by apply same_shape_setParent.
    erewrite field_alter_here; [done| |by intros].
    by eapply field_is_Some.
  - by apply (distinct_ids_transport h).
  - apply (setParent_relinks h p cs); try done.
    + by eapply distinct_ids_NoDup.
    + intros y Hy. destruct Hd' as [Hall _].
      rewrite Forall_forall in Hall. by apply Hall.
Qed.

(** What [removeChild] leaves in the links and in [children] of every
    object, when it finds the child at [i]. *)
Lemma removeChild_fields h p c cs i x :
  field children h p = Some cs →
  CompositeTreeNode.findIndex h (id_of h c) cs = Some i →
  is_Some (h !! x) →
  (∀ y, field previousSibling h c = Some y → is_Some (h !! y)) →
  (∀ y, field nextSibling h c = Some y → is_Some (h !! y)) →
  field parent (CompositeTreeNode.removeChild p c h) x = field parent h x
  ∧ field previousSibling (CompositeTreeNode.removeChild p c h) x
    = (if decide (field nextSibling h c = Some x)
       then field previousSibling h c else field previousSibling h x)
  ∧ field nextSibling (CompositeTreeNode.removeChild p c h) x
    = (if decide (field previousSibling h c = Some x)
       then field nextSibling h c else field nextSibling h x)
  ∧ field children (CompositeTreeNode.removeChild p c h) x
    = (if decide (x = p) then Some (delete i cs) else field children h x).
Proof.
  intros Hcs Hf Hx Hpr Hnx. unfold CompositeTreeNode.removeChild.
  rewrite Hcs. simpl. rewrite Hf.
  rewrite !(field_alter_keep _ (set_children _)) by done.
  destruct (field previousSibling h c) as [pr|] eqn:Hb;
    destruct (field nextSibling h c) as [nx|] eqn:Hn.
  all: try (specialize (Hpr _ eq_refl)); try (specialize (Hnx _ eq_refl)).
  all: assert (is_Some (h !! p)) by (by eapply field_is_Some).
  all: split_and!; repeat case_decide; simplify_eq; field_alters; done.
Qed.

(** Two objects with the same links, and the same properties otherwise,
    are the same record. *)
Lemma lookup_eq_of_links h h' x :
  set_links None None None <$> h !! x = set_links None None None <$> h' !! x →
  field parent h x = field parent h' x →
  field previousSibling h x = field previousSibling h' x →
  field nextSibling h x = field nextSibling h' x →
  h !! x = h' !! x.
Proof.
  unfold field. destruct (h !! x) as [[]|], (h' !! x) as [[]|];
    simpl; intros; simplify_eq; done.
Qed.

Lemma before_app cs cs2 :
  CompositeTreeNode.before (cs ++ cs2) (length cs) = last cs.
Proof.
  destruct cs as [|c cs _] using rev_ind; [done|].
  rewrite last_snoc, length_app. simpl.
  replace (length cs + 1) with (S (length cs)) by lia. simpl.
  rewrite <- app_assoc. simpl. by rewrite list_lookup_middle.
Qed.

Lemma same_shape_alter_children h h' v x :
  same_shape h h' →
  same_shape (alter (set_children v) x h) (alter (set_children v) x h').
Proof.
  intros Hs y. specialize (Hs y). rewrite !lookup_alter.
  case_decide; [|done]. subst.
  destruct (h !! y) as [[]|], (h' !! y) as [[]|]; simpl in *;
    simplify_eq; done.
Qed.

Lemma alter_children_undo h p cs cs' :
  field children h p = Some cs →
  alter (set_children (Some cs)) p (alter (set_children (Some cs')) p h) = h.
Proof.
  intros Hcs. apply map_eq. intros x.
  destruct (decide (p = x)) as [->|Hne].
  - rewrite !lookup_alter_eq. unfold field in Hcs.
    destruct (h !! x) as [[]|]; simpl in *; [|done]. by simplify_eq.
  - by rewrite !lookup_alter_ne.
Qed.

(** [removeChild] after [addChild] of a child with a new id. *)
Lemma removeChild_addChild h p c cs h1 :
  field children h p = Some cs → is_Some (h !! c) → distinct_ids h cs →
  id_of h c ∉ (id_of h <$> cs) → links_ok h p →
  CompositeTreeNode.addChild p c h = Some h1 →
  field children h1 p = Some (cs ++ [c])
  ∧ field children (CompositeTreeNode.removeChild p c h1) p = Some cs
  ∧ (∀ x, x ≠ c → CompositeTreeNode.removeChild p c h1 !! x = h !! x)
  ∧ field parent (CompositeTreeNode.removeChild p c h1) c = Some p
  ∧ field previousSibling (CompositeTreeNode.removeChild p c h1) c = last cs.
Proof.
  intros Hcs Hc Hd Hnew Hok Hadd.
  assert (CompositeTreeNode.findIndex h (id_of h c) cs = None) as Hf.
  { destruct (CompositeTreeNode.findIndex h (id_of h c) cs) as [i|] eqn:Hf;
      [|done].
    destruct (findIndex_Some _ _ _ _ Hf) as (x & Hx & Hid).
    destruct Hnew. apply list_elem_of_fmap. exists x. split; [done|].
    by eapply list_elem_of_lookup_2. }
  destruct (addChild_post h p c cs Hcs Hc Hd Hok)
    as (h' & idx & cs' & Hadd' & Hh' & Hcs' & Hidx & Hch & Hat & Hd' & Hok'
        & Hid).
  rewrite Hadd in Hadd'. injection Hadd' as <-.
  rewrite Hf in Hcs', Hidx. simpl in Hidx. subst cs' idx.
  set (h1a := alter (set_children (Some (cs ++ [c]))) p h) in *.
  assert (is_Some (h !! p)) as Hp by (by eapply field_is_Some).
  assert (field children h1a p = Some (cs ++ [c])) as Hch1a.
  { unfold h1a. by field_alters. }
  pose proof (distinct_ids_NoDup _ _ Hd') as Hnd.
  assert (∀ y, y ∈ cs ++ [c] → is_Some (h1 !! y)) as Hall1.
  { destruct Hd' as [Hall _]. rewrite Forall_forall in Hall. done. }
  assert (∀ y, is_Some (h1a !! y) ↔ is_Some (h !! y)) as Halloc_a.
  { intros y. unfold h1a. rewrite lookup_alter. case_decide; [|done].
    subst. by rewrite fmap_is_Some. }
  assert (same_shape h1a h1) as Hsh1.
  { subst h1. apply same_shape_setParent. }
  assert (∀ y, is_Some (h1 !! y) ↔ is_Some (h1a !! y)) as Halloc_1.
  { intros y. specialize (Hsh1 y).
    destruct (h1 !! y), (h1a !! y); simpl in *; try done;
      split; intros [? ?]; done. }
  destruct (Hok' _ _ _ Hch Hat) as (Hcp & Hcpr & Hcnx).
  rewrite before_app in Hcpr.
  rewrite lookup_ge_None_2 in Hcnx by (rewrite length_app; simpl; lia).
  assert (CompositeTreeNode.findIndex h1 (id_of h1 c) (cs ++ [c])
          = Some (length cs)) as Hf1.
  { apply findIndex_unique; [done|]. intros j c' Hj Heq.
    destruct Hd' as [_ Hnd'].
    eapply (NoDup_lookup _ _ _ _ Hnd').
    - by rewrite list_lookup_fmap, Hj.
    - by rewrite list_lookup_fmap, Hat, Heq. }
  assert (∀ x, is_Some (h1 !! x) →
            field parent (CompositeTreeNode.removeChild p c h1) x
              = field parent h1 x
            ∧ field previousSibling (CompositeTreeNode.removeChild p c h1) x
              = field previousSibling h1 x
            ∧ field nextSibling (CompositeTreeNode.removeChild p c h1) x
              = (if decide (last cs = Some x) then None
                 else field nextSibling h1 x)
            ∧ field children (CompositeTreeNode.removeChild p c h1) x
              = (if decide (x = p) then Some cs else field children h1 x))
    as Hrem.
  { intros x Hx.
    destruct (removeChild_fields h1 p c (cs ++ [c]) (length cs) x)
      as (H1 & H2 & H3 & H4); try done.
    - rewrite Hcpr. intros y Hy. apply Hall1, elem_of_app. left.
      by eapply last_Some_elem_of.
    - by rewrite Hcnx.
    - rewrite Hcpr, Hcnx in *. rewrite H1, H2, H3, H4.
      rewrite delete_middle, app_nil_r.
      split_and!; done. }
  assert (same_shape h (CompositeTreeNode.removeChild p c h1)) as Hsh.
  { destruct (removeChild_links h1 p (cs ++ [c]) (length cs) c)
      as (_ & _ & Hs); try done.
    - intros j c' Hj Heq. destruct Hd' as [_ Hnd'].
      eapply (NoDup_lookup _ _ _ _ Hnd').
      + by rewrite list_lookup_fmap, Hj.
      + by rewrite list_lookup_fmap, Hat, Heq.
    - rewrite delete_middle, app_nil_r in Hs.
      eapply same_shape_trans; [|exact Hs].
      rewrite <- (alter_children_undo h p cs (cs ++ [c])) at 1 by done.
      by apply same_shape_alter_children. }
  assert (is_Some (h1 !! c)) as Hc1 by (by apply Halloc_1, Halloc_a).
  destruct (Hrem c Hc1) as (Hrp & Hrpr & _).
  split_and!.
  - done.
  - destruct (Hrem p) as (_ & _ & _ & ->); [by apply Halloc_1, Halloc_a|].
    by rewrite decide_True.
  - intros x Hxc. symmetry. apply lookup_eq_of_links; [apply Hsh|..].
    all: destruct (h !! x) as [nd|] eqn:Hhx;
      [|pose proof (Hsh x) as Hn; rewrite Hhx in Hn; unfold field;
        destruct (CompositeTreeNode.removeChild p c h1 !! x);
        [done|by rewrite Hhx]].
    all: assert (is_Some (h1 !! x)) as Hx1
      by (apply Halloc_1, Halloc_a; by rewrite Hhx).
    all: destruct (Hrem x Hx1) as (Hxp & Hxpr & Hxnx & _).
    all: destruct (setParent_links h1a c (length cs) p (cs ++ [c]) x)
      as (Hsp & Hspr & Hsnx); try done;
      [by intros y Hy; apply Halloc_1, Hall1|by apply Halloc_1|].
    all: rewrite <- Hh' in Hsp, Hspr, Hsnx.
    all: rewrite decide_False in Hsp, Hspr, Hsnx by done.
    + rewrite Hxp, Hsp. unfold h1a. by field_alters.
    + rewrite Hxpr, Hspr.
      rewrite lookup_ge_None_2 by (rewrite length_app; simpl; lia).
      rewrite decide_False by done. unfold h1a. by field_alters.
    + rewrite Hxnx, Hsnx. clear Hsp Hspr Hsnx Hxp Hxpr Hxnx.
      rewrite before_app.
      case_decide as Hl.
      * apply last_Some in Hl as (cs0 & ->).
        assert ((cs0 ++ [x]) !! length cs0 = Some x) as Hlx
          by (by rewrite list_lookup_middle).
        destruct (Hok _ _ _ Hcs Hlx) as (_ & _ & ->).
        apply lookup_ge_None_2. rewrite length_app. simpl. lia.
      * unfold h1a. by field_alters.
  - by rewrite Hrp.
  - by rewrite Hrpr.
Qed.

(** [removeChild] writes no [id] and no [parent]. *)
Lemma same_ancestry_alter h (g : node → node) y :
  (∀ n, id (g n) = id n ∧ parent (g n) = parent n) →
  same_ancestry h (alter g y h).
Proof.
  intros Hg x. rewrite lookup_alter. case_decide; [|done]. subst.
  destruct (h !! x) as [n|]; simpl; [|done].
  destruct (Hg n) as [-> ->]. done.
Qed.

Lemma same_ancestry_trans h1 h2 h3 :
  same_ancestry h1 h2 → same_ancestry h2 h3 → same_ancestry h1 h3.
Proof. intros H1 H2 x. by rewrite H1. Qed.

Lemma same_ancestry_parent h h' x :
  same_ancestry h h' → field parent h' x = field parent h x.
Proof.
  intros Hs. specialize (Hs x). unfold field.
  destruct (h !! x), (h' !! x); simpl in *; by simplify_eq.
Qed.

Lemma same_ancestry_equals h h' a b :
  same_ancestry h h' → TreeNode_equals h' a b = TreeNode_equals h a b.
Proof.
  intros Hs. unfold TreeNode_equals. f_equal.
  destruct a as [l|], b as [r|]; try done.
  pose proof (Hs l) as Hl. pose proof (Hs r) as Hr.
  destruct (h !! l), (h' !! l), (h !! r), (h' !! r); simpl in *;
    simplify_eq; try done.
  by repeat match goal with H : id _ = id _ |- _ => rewrite H end.
Qed.

Lemma removeChild_ancestry h p c :
  same_ancestry h (CompositeTreeNode.removeChild p c h).
Proof.
  unfold CompositeTreeNode.removeChild.
  destruct (CompositeTreeNode.findIndex _ _ _); [|by intros ?].
  repeat first
    [ match goal with
      | |- same_ancestry _ (match ?o with _ => _ end) => destruct o
      end
    | eapply same_ancestry_trans;
      [|apply same_ancestry_alter; by intros []] ];
    by intros ?.
Qed.

Lemma getRootNode_ancestry fuel h h' n :
  same_ancestry h h' →
  TreeImpl.getRootNode fuel h' n = TreeImpl.getRootNode fuel h n.
Proof.
  intros Hs. revert n. induction fuel as [|k IH]; intros n; [done|].
  simpl. pose proof (Hs n) as Hn.
  destruct (h !! n) as [a|], (h' !! n) as [b|]; simpl in *;
    simplify_eq; try done.
  replace (parent b) with (parent a) by congruence.
  destruct (parent a); [apply IH|done].
Qed.

Lemma isAncestor_ancestry fuel h h' a n :
  same_ancestry h h' →
  CompositeTreeNode.isAncestor fuel h' a n
  = CompositeTreeNode.isAncestor fuel h a n.
Proof.
  intros Hs. revert n. induction fuel as [|k IH]; intros n; [done|].
  simpl. destruct n as [c|]; [|done].
  rewrite (same_ancestry_parent h h') by done.
  rewrite (same_ancestry_equals h h') by done.
  by rewrite IH.
Qed.

Lemma equals_true h a b :
  TreeNode_equals h (Some a) (Some b) = true →
  a = b ∨ id_of h a = id_of h b ∧ is_Some (h !! a) ∧ is_Some (h !! b).
Proof.
  unfold TreeNode_equals, id_of. intros [Heq|Hid]%orb_true_iff.
  - left. apply bool_decide_eq_true in Heq. by simplify_eq.
  - right. destruct (h !! a), (h !! b); try done.
    apply bool_decide_eq_true in Hid. simpl. rewrite Hid. eauto.
Qed.

Lemma indexOf_Some_inv h p cs c i :
  field children h p = Some cs →
  CompositeTreeNode.indexOf h p (Some c) = Some i →
  ∃ x, cs !! i = Some x ∧ TreeNode_equals h (Some c) (Some x) = true
       ∧ ∀ j y, j < i → cs !! j = Some y →
                TreeNode_equals h (Some c) (Some y) ≠ true.
Proof.
  intros Hcs. unfold CompositeTreeNode.indexOf. rewrite Hcs. simpl.
  destruct (list_find _ cs) as [[k x]|] eqn:Hfind; [|done].
  simpl. intros [= ->]. apply list_find_Some in Hfind as (Hx & HP & Hmin).
  exists x. split_and!; [done..|]. intros j y Hj Hy. by eapply Hmin.
Qed.

Lemma indexOf_child h p cs i c :
  field children h p = Some cs → distinct_ids h cs → cs !! i = Some c →
  CompositeTreeNode.indexOf h p (Some c) = Some i.
Proof.
  intros Hcs [Hall Hnd] Hi. unfold CompositeTreeNode.indexOf.
  rewrite Hcs. simpl.
  assert (list_find (λ child, TreeNode_equals h (Some c) (Some child) = true)
                    cs = Some (i, c)) as ->; [|done].
  apply list_find_Some. split_and!; [done| |].
  - unfold TreeNode_equals. by rewrite bool_decide_eq_true_2.
  - intros j y Hy Hj [->|(Hid & _)]%equals_true.
    + pose proof (NoDup_fmap_1 _ _ Hnd) as Hnd'.
      pose proof (NoDup_lookup _ _ _ _ Hnd' Hy Hi). lia.
    + assert (j = i); [|lia]. eapply (NoDup_lookup _ _ _ _ Hnd).
      * by rewrite list_lookup_fmap, Hy.
      * by rewrite list_lookup_fmap, Hi, <- Hid.
Qed.

Lemma indexOf_stranger h p cs c :
  field children h p = Some cs → c ∉ cs →
  id_of h c ∉ (id_of h <$> cs) →
  CompositeTreeNode.indexOf h p (Some c) = None.
Proof.
  intros Hcs Hc Hid. unfold CompositeTreeNode.indexOf. rewrite Hcs. simpl.
  assert (list_find (λ child, TreeNode_equals h (Some c) (Some child) = true)
                    cs = None) as ->; [|done].
  apply list_find_None, Forall_forall.
  intros x Hx [->|(Heq & _)]%equals_true; [done|].
  apply Hid, list_elem_of_fmap. eauto.
Qed.

(** The chains of siblings of linked children. *)
Lemma nextSiblings_drop h p cs k i :
  links_ok h p → field children h p = Some cs →
  i + k = length cs → nextSiblings k h (cs !! i) = drop i cs.
Proof.
  intros Hok Hcs. revert i. induction k as [|k IH]; intros i Hlen.
  - rewrite drop_ge by lia. done.
  - destruct (lookup_lt_is_Some_2 cs i) as [x Hx]; [lia|].
    rewrite Hx. simpl. destruct (Hok _ _ _ Hcs Hx) as (_ & _ & ->).
    rewrite IH by lia. symmetry. by apply drop_S.
Qed.

Lemma previousSiblings_take h p cs i x :
  links_ok h p → field children h p = Some cs → cs !! i = Some x →
  previousSiblings (S i) h (Some x) = reverse (take (S i) cs).
Proof.
  intros Hok Hcs. revert x. induction i as [|i IH]; intros x Hx.
  - simpl. destruct cs as [|c cs]; [done|]. simpl in *.
    by simplify_eq.
  - destruct (lookup_lt_is_Some_2 cs i) as [y Hy].
    { apply lookup_lt_Some in Hx. lia. }
    change (previousSiblings (S (S i)) h (Some x))
      with (x :: previousSiblings (S i) h (field previousSibling h x)).
    destruct (Hok _ _ _ Hcs Hx) as (_ & -> & _).
    change (CompositeTreeNode.before cs (S i)) with (cs !! i).
    rewrite Hy, (IH y Hy).
    rewrite (take_S_r cs (S i) x) by done.
    by rewrite reverse_snoc.
Qed.

End children_facts.

(** The example tree is linked below [root] and below [dir1]. *)
Lemma linked_three_levels_links p :
  p = 0 ∨ p = 1 → links_ok (heap Examples.linked_three_levels) p.
Proof.
  intros [-> | ->] cs i c Hcs Hi; vm_compute in Hcs; injection Hcs as <-;
    (destruct i as [|[|i]]; vm_compute in Hi; [| |discriminate]);
    injection Hi as <-; vm_compute; repeat split.
Qed.

(** X1.  [addChild(parent, child)] on a parent whose children are linked
    objects with pairwise distinct ids: the child takes the place of the
    child with its id when there is one, and the end of the array
    otherwise; the children still have pairwise distinct ids, and every one
    of them points to the parent and to its neighbours in the array.  No
    id is written. *)
Theorem addChild_keeps_children_linked h p c cs :
  field children h p = Some cs → is_Some (h !! c) → distinct_ids h cs →
  links_ok h p →
  ∃ h' cs',
    CompositeTreeNode.addChild p c h = Some h'
    ∧ cs' = match CompositeTreeNode.findIndex h (id_of h c) cs with
            | Some i => <[i := c]> cs
            | None => cs ++ [c]
            end
    ∧ field children h' p = Some cs'
    ∧ c ∈ cs'
    ∧ distinct_ids h' cs'
    ∧ links_ok h' p
    ∧ (∀ x, id_of h' x = id_of h x).
Proof.
  intros Hcs Hc Hd Hok.
  destruct (addChild_post h p c cs Hcs Hc Hd Hok)
    as (h' & idx & cs' & Hadd & _ & Hcs' & _ & Hch & Hat & Hd' & Hok' & Hid).
  exists h', cs'. split_and!; try done.
  by eapply list_elem_of_lookup_2.
Qed.

(** The theorem at [dir1] of the example tree, to which [dir2] is added:
    it becomes the last child, after [file1] and [file2]. *)
Lemma addChild_keeps_children_linked_witness :
  ∃ h', CompositeTreeNode.addChild 1 2 (heap Examples.linked_three_levels)
        = Some h'
        ∧ field children h' 1 = Some [3; 4; 2]
        ∧ links_ok h' 1.
Proof.
  destruct (addChild_keeps_children_linked
              (heap Examples.linked_three_levels) 1 2 [3; 4])
    as (h' & cs' & Hadd & Hcs' & Hch & _ & _ & Hok & _).
  - vm_compute. reflexivity.
  - vm_compute. eauto.
  - split.
    + repeat constructor; vm_compute; eauto.
    + refine (bool_decide_unpack _ _). vm_compute. exact I.
  - apply linked_three_levels_links. by right.
  - exists h'. split; [exact Hadd|]. split; [|exact Hok].
    rewrite Hch, Hcs'. vm_compute. reflexivity.
Defined.

(** X2.  [removeChild] undoes [addChild] of a child with a new id: the
    array of children is what it was, and so is every object but the child,
    which keeps the [parent] and the [previousSibling] that [addChild] gave
    it. *)
Theorem removeChild_undoes_addChild h p c cs h1 :
  field children h p = Some cs → is_Some (h !! c) → distinct_ids h cs →
  id_of h c ∉ (id_of h <$> cs) → links_ok h p →
  CompositeTreeNode.addChild p c h = Some h1 →
  field children h1 p = Some (cs ++ [c])
  ∧ field children (CompositeTreeNode.removeChild p c h1) p = Some cs
  ∧ (∀ x, x ≠ c → CompositeTreeNode.removeChild p c h1 !! x = h !! x)
  ∧ field parent (CompositeTreeNode.removeChild p c h1) c = Some p
  ∧ field previousSibling (CompositeTreeNode.removeChild p c h1) c = last cs.
Proof. apply removeChild_addChild. Qed.

(** The theorem at [dir1] of the example tree: [dir2] is added and removed
    again. *)
Lemma removeChild_undoes_addChild_witness :
  ∃ h1, CompositeTreeNode.addChild 1 2 (heap Examples.linked_three_levels)
        = Some h1
        ∧ field children (CompositeTreeNode.removeChild 1 2 h1) 1
          = Some [3; 4]
        ∧ CompositeTreeNode.removeChild 1 2 h1 !! 4
          = heap Examples.linked_three_levels !! 4
        ∧ field parent (CompositeTreeNode.removeChild 1 2 h1) 2 = Some 1.
Proof.
  eexists. split; [vm_compute; reflexivity|].
  match goal with
  | |- context [CompositeTreeNode.removeChild 1 2 ?h1] =>
      destruct (removeChild_undoes_addChild
                  (heap Examples.linked_three_levels) 1 2 [3; 4] h1)
        as (_ & Hch & Hsame & Hp & _)
  end.
  - vm_compute. reflexivity.
  - vm_compute. eauto.
  - split.
    + repeat constructor; vm_compute; eauto.
    + refine (bool_decide_unpack _ _). vm_compute. exact I.
  - refine (bool_decide_unpack _ _). vm_compute. exact I.
  - apply linked_three_levels_links. by right.
  - vm_compute. reflexivity.
  - split; [exact Hch|]. split; [apply Hsame; lia|exact Hp].
Defined.

(** X3.  [removeChild] writes no [parent]: the removed child still names
    its former parent, so that [getRootNode] finds the same root from every
    node as before, and [isAncestor] gives the same answers. *)
Theorem removeChild_keeps_parents h p c :
  (∀ x, field parent (CompositeTreeNode.removeChild p c h) x
        = field parent h x)
  ∧ (∀ fuel n,
       TreeImpl.getRootNode fuel (CompositeTreeNode.removeChild p c h) n
       = TreeImpl.getRootNode fuel h n)
  ∧ (∀ fuel a n,
       CompositeTreeNode.isAncestor fuel
         (CompositeTreeNode.removeChild p c h) a n
       = CompositeTreeNode.isAncestor fuel h a n).
Proof.
  pose proof (removeChild_ancestry h p c) as Hs. split_and!.
  - intros x. by apply same_ancestry_parent.
  - intros fuel n. by apply getRootNode_ancestry.
  - intros fuel a n. by apply isAncestor_ancestry.
Qed.

(** X4.  [indexOf(parent, node)] returns an index of the array at which a
    node equal to [node] stands ([TreeNode.equals]: the same object, or the
    same id); among children with pairwise distinct ids it returns the
    index of each child; it is [-1] for a node that is no child and has
    the id of none, and for [undefined]. *)
Theorem indexOf_finds_children h p cs :
  field children h p = Some cs →
  (∀ c i, CompositeTreeNode.indexOf h p (Some c) = Some i →
          ∃ x, cs !! i = Some x
               ∧ TreeNode_equals h (Some c) (Some x) = true)
  ∧ (distinct_ids h cs →
     ∀ i c, cs !! i = Some c →
            CompositeTreeNode.indexOf h p (Some c) = Some i)
  ∧ (∀ c, c ∉ cs → id_of h c ∉ (id_of h <$> cs) →
          CompositeTreeNode.indexOf h p (Some c) = None)
  ∧ CompositeTreeNode.indexOf h p None = None.
Proof.
  intros Hcs. split_and!.
  - intros c i Hi.
    destruct (indexOf_Some_inv h p cs c i Hcs Hi) as (x & ? & ? & _). eauto.
  - intros Hd i c Hi. by eapply indexOf_child.
  - intros c Hc Hid. by eapply indexOf_stranger.
  - done.
Qed.

(** The theorem at the root of the example tree: [dir2] is its child 1,
    and [file1] is none of its children. *)
Lemma indexOf_finds_children_witness :
  CompositeTreeNode.indexOf (heap Examples.linked_three_levels) 0 (Some 2)
  = Some 1
  ∧ CompositeTreeNode.indexOf (heap Examples.linked_three_levels) 0 (Some 3)
    = None.
Proof.
  destruct (indexOf_finds_children (heap Examples.linked_three_levels) 0
              [1; 2]) as (_ & Hchild & Hnone & _).
  - vm_compute. reflexivity.
  - split.
    + apply Hchild; [|reflexivity]. split.
      * repeat constructor; vm_compute; eauto.
      * refine (bool_decide_unpack _ _). vm_compute. exact I.
    + apply Hnone; refine (bool_decide_unpack _ _); vm_compute; exact I.
Defined.

(** X5.  After [root = node] on nodes that are pairwise distinct objects,
    the children of every composite node are chained: from
    [getFirstChild] the [nextSibling]s are the children in order, from
    [getLastChild] the [previousSibling]s are the children in reverse, the
    first child has no [previousSibling] and the last no [nextSibling]. *)
Theorem siblings_enumerate_children fuel st l ls st' :
  reach fuel (heap st) l = Some ls → NoDup ls →
  TreeImpl.set_root_sync fuel (Some l) st = Some st' →
  ∀ p cs,
    p ∈ ls → field children (heap st') p = Some cs →
    nextSiblings (length cs) (heap st')
                 (CompositeTreeNode.getFirstChild (heap st') p) = cs
    ∧ previousSiblings (length cs) (heap st')
                       (CompositeTreeNode.getLastChild (heap st') p)
      = reverse cs
    ∧ CompositeTreeNode.getFirstChild (heap st') p
        ≫= field previousSibling (heap st') = None
    ∧ CompositeTreeNode.getLastChild (heap st') p
        ≫= field nextSibling (heap st') = None.
Proof.
  intros Hreach Hnd Hset p cs Hp Hcs.
  unfold TreeImpl.set_root_sync in Hset.
  destruct (addNode_links fuel
              (mkTree (heap st) ∅ (Some l) (log st)) l ls Hreach Hnd)
    as (st2 & Hadd & _ & _ & Hok & _).
  rewrite Hadd in Hset. injection Hset as <-.
  specialize (Hok p Hp).
  unfold CompositeTreeNode.getFirstChild, CompositeTreeNode.getLastChild.
  rewrite Hcs. simpl. split_and!.
  - rewrite head_lookup.
    rewrite (nextSiblings_drop _ p cs (length cs) 0); done.
  - destruct cs as [|c cs' _] using rev_ind; [done|].
    rewrite last_snoc, length_app. simpl.
    replace (length cs' + 1) with (S (length cs')) by lia.
    rewrite (previousSiblings_take _ p (cs' ++ [c])); try done.
    + rewrite take_ge; [done|]. rewrite length_app. simpl. lia.
    + by rewrite list_lookup_middle.
  - destruct cs as [|c cs']; [done|]. simpl.
    by destruct (Hok _ 0 c Hcs eq_refl) as (_ & -> & _).
  - destruct cs as [|c cs' _] using rev_ind; [done|].
    rewrite last_snoc. simpl.
    destruct (Hok _ (length cs') c Hcs) as (_ & _ & ->);
      [by rewrite list_lookup_middle|].
    apply lookup_ge_None_2. rewrite length_app. simpl. lia.
Qed.

(** The theorem at [dir1] of the example tree. *)
Lemma siblings_enumerate_children_witness :
  nextSiblings 2 (heap Examples.linked_three_levels)
    (CompositeTreeNode.getFirstChild (heap Examples.linked_three_levels) 1)
  = [3; 4]
  ∧ previousSiblings 2 (heap Examples.linked_three_levels)
      (CompositeTreeNode.getLastChild (heap Examples.linked_three_levels) 1)
    = [4; 3].
Proof.
  destruct (siblings_enumerate_children 3 Examples.three_levels 0
              [0; 1; 3; 4; 2] Examples.linked_three_levels)
    with (p := 1) (cs := [3; 4]) as (Hn & Hp & _).
  - vm_compute. reflexivity.
  - refine (bool_decide_unpack _ _). vm_compute. exact I.
  - vm_compute. reflexivity.
  - refine (bool_decide_unpack _ _). vm_compute. exact I.
  - vm_compute. reflexivity.
  - split; [exact Hn|exact Hp].
Defined.

(** ** [TreeImpl]: what the Node Store holds *)

Section store_facts.
Implicit Types (h : gmap nat node) (x y l p c : nat) (ls cs : list nat)
  (st : TreeState) (ns : gmap string nat).

Lemma register_app h ls1 ls2 ns :
  register h (ls1 ++ ls2) ns = register h ls2 (register h ls1 ns).
Proof. apply foldl_app. Qed.

Lemma register_ext h h' ls ns :
  (∀ x, id_of h' x = id_of h x) → register h' ls ns = register h ls ns.
Proof.
  intros Hid. revert ns. induction ls as [|x ls IH]; intros ns; [done|].
  simpl. rewrite Hid. apply IH.
Qed.

Lemma register_lookup_notin h ls ns i :
  Some i ∉ (id_of h <$> ls) → register h ls ns !! i = ns !! i.
Proof.
  revert ns. induction ls as [|x ls IH]; intros ns Hi; [done|].
  simpl. rewrite fmap_cons, not_elem_of_cons in Hi. destruct Hi as [Hx Hi].
  rewrite IH by done. destruct (id_of h x) as [j|]; [|done].
  rewrite lookup_insert_ne; [done|congruence].
Qed.

Lemma register_lookup_in h ls ns x i :
  NoDup (id_of h <$> ls) → x ∈ ls → id_of h x = Some i →
  register h ls ns !! i = Some x.
Proof.
  revert ns. induction ls as [|y ls IH]; intros ns Hnd Hx Hi;
    [by apply elem_of_nil in Hx|].
  rewrite fmap_cons in Hnd. apply NoDup_cons in Hnd as [Hy Hnd].
  simpl. apply elem_of_cons in Hx as [->|Hx].
  - rewrite Hi in *. rewrite register_lookup_notin by done.
    apply lookup_insert_eq.
  - by apply IH.
Qed.

(** [addNode] files the nodes below the node in the order it visits
    them. *)
Lemma addNode_loop_nodes k l h0
  (IH : ∀ st c ls, reach k (heap st) c = Some ls →
        ∃ st', TreeImpl.addNode k c st = Some st'
               ∧ nodes st' = register (heap st) ls (nodes st)
               ∧ same_shape (heap st) (heap st')
               ∧ root st' = root st ∧ log st' = log st) :
  ∀ cs lss i s,
    Forall2 (λ c ls, reach k h0 c = Some ls) cs lss →
    same_shape h0 (heap s) →
    ∃ s',
      forEach (λ child index s,
                 TreeImpl.addNode k child
                   (with_heap
                      (CompositeTreeNode.setParent child index l (heap s)) s))
              cs i s = Some s'
      ∧ nodes s' = register h0 (concat lss) (nodes s)
      ∧ same_shape h0 (heap s')
      ∧ root s' = root s ∧ log s' = log s.
Proof.
  intros cs lss i s Hall. revert i s.
  induction Hall as [|c lsc cs lss Hc Hall IHl]; intros i s Hs.
  - exists s. done.
  - simpl.
    set (sc := with_heap (CompositeTreeNode.setParent c i l (heap s)) s).
    assert (same_shape h0 (heap sc)) as Hsc.
    { eapply same_shape_trans; [done|]. apply same_shape_setParent. }
    destruct (IH sc c lsc) as (s1 & -> & Hn1 & Hs1 & Hr1 & Hl1).
    { by rewrite (reach_same_shape _ h0). }
    destruct (IHl (S i) s1) as (s' & -> & Hn' & Hs' & Hr' & Hl').
    { by eapply same_shape_trans. }
    exists s'. split_and!;
      [done| |done|by rewrite Hr', Hr1|by rewrite Hl', Hl1].
    rewrite Hn', Hn1, register_app. f_equal.
    apply register_ext. intros x. by apply same_shape_id.
Qed.

Lemma addNode_nodes fuel st l ls :
  reach fuel (heap st) l = Some ls →
  ∃ st', TreeImpl.addNode fuel l st = Some st'
         ∧ nodes st' = register (heap st) ls (nodes st)
         ∧ same_shape (heap st) (heap st')
         ∧ root st' = root st ∧ log st' = log st.
Proof.
  revert st l ls. induction fuel as [|k IH]; intros st l ls Hr; [done|].
  pose proof Hr as [[nd Hl] Hcases]%reach_unfold.
  simpl. rewrite Hl. unfold field in Hcases. rewrite Hl in Hcases.
  simpl in Hcases.
  destruct Hcases as [[Hnone ->] | (cs & lss & Hcs & Hall & ->)].
  - rewrite Hnone. eexists. split; [done|]. simpl. unfold id_of.
    rewrite Hl. simpl. split_and!; auto using same_shape_refl.
  - rewrite Hcs.
    destruct (addNode_loop_nodes k l (heap st) IH cs lss 0
                (with_nodes (<[id nd:=l]> (nodes st)) st))
      as (s' & -> & Hn & Hs & Hroot & Hlog); [done|apply same_shape_refl|].
    exists s'. split_and!; try done.
    rewrite Hn. simpl. unfold id_of. by rewrite Hl.
Qed.

(** [removeNode] deletes the ids of the nodes below the node, whatever is
    filed under them. *)
Lemma removeNode_loop_nodes k h0
  (IH : ∀ st c ls, reach k (heap st) c = Some ls →
        ∃ st', TreeImpl.removeNode k c st = Some st'
               ∧ heap st' = heap st ∧ root st' = root st
               ∧ log st' = log st
               ∧ ∀ i, nodes st' !! i
                      = if decide (Some i ∈ id_of (heap st) <$> ls)
                        then None else nodes st !! i) :
  ∀ cs lss i s,
    Forall2 (λ c ls, reach k h0 c = Some ls) cs lss → heap s = h0 →
    ∃ s', forEach (λ child _ s, TreeImpl.removeNode k child s) cs i s
          = Some s'
          ∧ heap s' = h0 ∧ root s' = root s ∧ log s' = log s
          ∧ ∀ j, nodes s' !! j
                 = if decide (Some j ∈ id_of h0 <$> concat lss)
                   then None else nodes s !! j.
Proof.
  intros cs lss i s Hall. revert i s.
  induction Hall as [|c lsc cs lss Hc Hall IHl]; intros i s Hs.
  - exists s. split_and!; done.
  - simpl. destruct (IH s c lsc) as (s1 & -> & Hh1 & Hr1 & Hl1 & Hn1).
    { by rewrite Hs. }
    destruct (IHl (S i) s1) as (s' & -> & Hh' & Hr' & Hl' & Hn');
      [congruence|].
    exists s'. split_and!; [done|done|congruence..|].
    intros j. rewrite Hn', Hn1, Hs, fmap_app.
    repeat case_decide; try done.
    all: match goal with
         | H : ¬ _ ∈ _ ++ _ |- _ => destruct H; apply elem_of_app; eauto
         | H : _ ∈ _ ++ _ |- _ => apply elem_of_app in H as [?|?]; done
         end.
Qed.

Lemma removeNode_nodes fuel st l ls :
  reach fuel (heap st) l = Some ls →
  ∃ st', TreeImpl.removeNode fuel l st = Some st'
         ∧ heap st' = heap st ∧ root st' = root st ∧ log st' = log st
         ∧ ∀ i, nodes st' !! i
                = if decide (Some i ∈ id_of (heap st) <$> ls)
                  then None else nodes st !! i.
Proof.
  revert st l ls. induction fuel as [|k IH]; intros st l ls Hr; [done|].
  pose proof Hr as [[nd Hl] Hcases]%reach_unfold.
  simpl. rewrite Hl. unfold field in Hcases. rewrite Hl in Hcases.
  simpl in Hcases.
  assert (id_of (heap st) l = Some (id nd)) as Hid.
  { unfold id_of. by rewrite Hl. }
  destruct Hcases as [[-> ->] | (cs & lss & -> & Hall & ->)]; simpl.
  - eexists. split; [done|]. simpl. split_and!; try done.
    intros i. rewrite Hid. destruct (decide (id nd = i)) as [->|Hne].
    + rewrite lookup_delete_eq, decide_True; [done|].
      by apply list_elem_of_singleton.
    + rewrite lookup_delete_ne by done. rewrite decide_False; [done|].
      intros ?%list_elem_of_singleton. congruence.
  - destruct (removeNode_loop_nodes k (heap st) IH cs lss 0 st)
      as (s' & -> & Hh & Hr' & Hl' & Hn); [done..|].
    simpl. eexists. split; [done|]. simpl. split_and!; try done.
    intros i. rewrite Hid. destruct (decide (id nd = i)) as [->|Hne].
    + rewrite lookup_delete_eq, decide_True; [done|].
      apply elem_of_cons. by left.
    + rewrite lookup_delete_ne by done. rewrite Hn.
      repeat case_decide; try done.
      * destruct H0. apply elem_of_cons. by right.
      * apply elem_of_cons in H0 as [?|?]; [congruence|done].
Qed.

(** The entries of the Node Store stay filed under the ids of their
    nodes. *)
Lemma store_ok_transport st st' :
  (∀ x, id_of (heap st') x = id_of (heap st) x) →
  (∀ i l, nodes st' !! i = Some l → nodes st !! i = Some l) →
  store_ok st → store_ok st'.
Proof. intros Hid Hsub Hok i l Hl. rewrite Hid. by apply Hok, Hsub. Qed.

Lemma addNode_store_ok fuel n st st' :
  TreeImpl.addNode fuel n st = Some st' → store_ok st → store_ok st'.
Proof.
  revert n st st'. induction fuel as [|k IH]; intros n st st'; [done|].
  simpl. destruct (heap st !! n) as [nd|] eqn:Hn; [|done].
  assert (store_ok st → store_ok (with_nodes (<[id nd:=n]> (nodes st)) st))
    as Hst1.
  { intros Hok i l. simpl. rewrite lookup_insert. case_decide.
    - intros [= <-]. subst. unfold id_of. by rewrite Hn.
    - apply Hok. }
  destruct (children nd) as [cs|]; [|intros [= <-]; done].
  intros Hloop Hok.
  apply (forEach_invariant (λ s s', store_ok s → store_ok s')) in Hloop;
    [done|done|by auto| |by apply Hst1].
  intros c j s s1 Hadd Hs. eapply IH; [done|].
  apply (store_ok_transport s); [|done|done].
  intros x. simpl. apply id_of_setParent.
Qed.

Lemma removeNode_subset fuel n st st' :
  TreeImpl.removeNode fuel n st = Some st' →
  ∀ i l, nodes st' !! i = Some l → nodes st !! i = Some l.
Proof.
  revert n st st'. induction fuel as [|k IH]; intros n st st'; [done|].
  simpl. destruct (heap st !! n) as [nd|]; [|done].
  assert (∀ s i l, delete (id nd) (nodes s) !! i = Some l →
                   nodes s !! i = Some l) as Hdel.
  { intros s i l. rewrite lookup_delete. by case_decide. }
  destruct (children nd) as [cs|]; simpl; [|intros [= <-]; apply Hdel].
  destruct (forEach _ cs 0 st) as [s1|] eqn:Hloop; simpl; [|done].
  intros [= <-] i l Hl. simpl in Hl. apply Hdel in Hl. revert i l Hl.
  eapply (forEach_invariant
            (λ s s', ∀ i l, nodes s' !! i = Some l → nodes s !! i = Some l));
    [done|by auto| |exact Hloop].
  intros c j s s' Hr. exact (IH _ _ _ Hr).
Qed.

Lemma setChildren_store_ok fuel p cs st res st' :
  TreeImpl.setChildren fuel p cs st = Some (res, st') →
  store_ok st → store_ok st'.
Proof.
  unfold TreeImpl.setChildren. intros Hs Hok.
  destruct (TreeImpl.getRootNode fuel (heap st) p) as [r|]; [|done].
  simpl in Hs. destruct (id_of (heap st) r) as [rid|]; [|done].
  simpl in Hs. destruct (id_of (heap st) p) as [pid|]; [|done].
  simpl in Hs.
  destruct (match nodes st !! rid with
            | Some r' => bool_decide (r' ≠ r)
            | None => false
            end).
  { injection Hs as <- <-. done. }
  destruct (TreeImpl.removeNode fuel p st) as [st1|] eqn:Hrm; [|done].
  simpl in Hs.
  destruct (TreeImpl.addNode fuel p _) as [st2|] eqn:Hadd; [|done].
  simpl in Hs. injection Hs as <- <-.
  apply addNode_store_ok in Hadd; [done|].
  eapply (store_ok_transport st);
    [|intros i l; simpl; by eapply removeNode_subset|done].
  intros x. simpl. rewrite (removeNode_heap_eq _ _ _ _ Hrm).
  by apply id_of_alter.
Qed.

(** What every step of [refresh] keeps, [refresh] keeps. *)
Lemma refresh_preserves (P : TreeState → Prop) :
  (∀ st st', same_but_busy (heap st) (heap st') → nodes st' = nodes st →
             root st' = root st → P st → P st') →
  (∀ fuel p cs st res st',
     TreeImpl.setChildren fuel p cs st = Some (res, st') → P st → P st') →
  ∀ fuel raw token env st res st',
    TreeImpl.refresh fuel raw token env st = Some (res, st') → P st → P st'.
Proof.
  intros Hbusy Hset fuel raw token env st res st'. unfold TreeImpl.refresh.
  assert (∀ s, P s → P (fire Changed s)) as Hfire.
  { intros s. by apply Hbusy; [apply same_but_busy_refl|..]. }
  assert (∀ n s, P s → P (TreeImpl.doResetBusy n s)) as Hreset.
  { intros n s. destruct (doResetBusy_effect n s) as (? & ? & ?).
    by apply Hbusy. }
  assert (∀ here n s, P s → P (TreeImpl.elapse here env n s)) as Helapse.
  { intros here n s. destruct (elapse_effect here env n s) as (? & ? & ?).
    by apply Hbusy. }
  destruct (TreeImpl.refreshTarget raw st) as [p|];
    [|intros [= <- <-]; apply Hfire].
  destruct (CompositeTreeNode.is_ (heap st) p);
    [|intros [= <- <-]; apply Hfire].
  destruct (token && TreeImpl.cancelledAfterResolve env).
  { intros [= <- <-] HP. by apply Hreset, Helapse. }
  destruct (TreeImpl.setChildren fuel p (TreeImpl.resolved env) _)
    as [[result st2]|] eqn:Hsc; [|done]. simpl.
  intros Hres HP. apply Hset in Hsc; [|by apply Helapse].
  assert (P (match result with
             | Some _ =>
                 fire Changed
                   (TreeImpl.elapse TreeImpl.AwaitSetChildren env p st2)
             | None => st2
             end)) as H3.
  { destruct result; [|done]. by apply Hfire, Helapse. }
  destruct (token && TreeImpl.cancelledAfterSetChildren env);
    injection Hres as <- <-; auto.
Qed.

Lemma refresh_store_ok fuel raw token env st res st' :
  TreeImpl.refresh fuel raw token env st = Some (res, st') →
  store_ok st → store_ok st'.
Proof.
  apply (refresh_preserves store_ok).
  - intros s s' Hb Hn _ Hok. apply (store_ok_transport s); [|by rewrite Hn|done].
    intros x. by apply same_but_busy_id.
  - apply setChildren_store_ok.
Qed.

Lemma set_root_sync_store_ok fuel r st st' :
  TreeImpl.set_root_sync fuel r st = Some st' → store_ok st'.
Proof.
  unfold TreeImpl.set_root_sync. destruct r as [l|].
  - intros Hadd. apply addNode_store_ok in Hadd; [done|].
    intros i x. simpl. by rewrite lookup_empty.
  - intros [= <-] i x. simpl. by rewrite lookup_empty.
Qed.

Lemma validateNode_idem st n :
  store_ok st →
  TreeImpl.validateNode st (TreeImpl.validateNode st n)
  = TreeImpl.validateNode st n.
Proof.
  intros Hok. unfold TreeImpl.validateNode, TreeImpl.getNode.
  destruct (n ≫= id_of (heap st)) as [i|]; simpl; [|done].
  destruct (nodes st !! i) as [l|] eqn:Hl; simpl; [|done].
  rewrite (Hok _ _ Hl). simpl. done.
Qed.

(** ** Chains of parents *)

Lemma above_snoc h a c x :
  above h c x → field parent h c = Some a → above h a x.
Proof.
  induction 1 as [x Hx|x q Hx Hq IH]; intros Hc.
  - eapply above_step; [done|]. by apply above_parent.
  - eapply above_step; [done|]. by apply IH.
Qed.

Lemma concat_reach_elem k h cs lss x :
  Forall2 (λ c ls, reach k h c = Some ls) cs lss → x ∈ concat lss →
  ∃ c lsc, c ∈ cs ∧ reach k h c = Some lsc ∧ x ∈ lsc
           ∧ (NoDup (concat lss) → NoDup lsc)
           ∧ (∀ y, y ∈ lsc → y ∈ concat lss).
Proof.
  induction 1 as [|c lsc cs lss Hc Hall IH]; simpl;
    [by intros ?%elem_of_nil|].
  intros [Hx|Hx]%elem_of_app.
  - exists c, lsc. split_and!; [by left|done|done| |].
    + by intros (? & _ & _)%NoDup_app.
    + intros y Hy. apply elem_of_app. by left.
  - destruct (IH Hx) as (c' & lsc' & Hc' & Hr & Hx' & Hnd & Hsub).
    exists c', lsc'. split_and!; [by right|done|done| |].
    + intros (_ & _ & ?)%NoDup_app. auto.
    + intros y Hy. apply elem_of_app. right. auto.
Qed.

(** Below a node whose nodes are linked, every node has the node above
    it. *)
Lemma reach_above fuel h l ls :
  reach fuel h l = Some ls → NoDup ls → (∀ p, p ∈ ls → links_ok h p) →
  ∀ x, x ∈ ls → x ≠ l → above h l x.
Proof.
  revert l ls. induction fuel as [|k IH]; intros l ls Hr Hnd Hok x Hx Hne;
    [done|].
  apply reach_unfold in Hr
    as [_ [[_ ->] | (cs & lss & Hcs & Hall & ->)]].
  { apply list_elem_of_singleton in Hx. done. }
  apply elem_of_cons in Hx as [->|Hx]; [done|].
  apply NoDup_cons in Hnd as [_ Hnd].
  destruct (concat_reach_elem k h cs lss x Hall Hx)
    as (c & lsc & Hc & Hrc & Hxc & Hndc & Hsub).
  assert (field parent h c = Some l) as Hpc.
  { apply list_elem_of_lookup in Hc as [i Hi].
    destruct (Hok l) with (cs := cs) (i := i) (c := c) as (Hp & _);
      [by left|done|done|done]. }
  destruct (decide (x = c)) as [->|Hxne]; [by apply above_parent|].
  eapply above_snoc; [|exact Hpc].
  apply (IH c lsc); auto.
  intros p Hp. apply Hok. right. auto.
Qed.

Lemma getRootNode_above h l x :
  above h l x → is_Some (h !! l) → field parent h l = None →
  ∃ k, ∀ fuel, k ≤ fuel → TreeImpl.getRootNode fuel h x = Some l.
Proof.
  intros Ha [nl Hl] Hroot.
  assert (∀ fuel, 1 ≤ fuel → TreeImpl.getRootNode fuel h l = Some l) as Htop.
  { intros [|f] ?; [lia|]. simpl. rewrite Hl. simpl.
    unfold field in Hroot. rewrite Hl in Hroot. simpl in Hroot.
    by rewrite Hroot. }
  induction Ha as [x Hx|x q Hx Hq (k & IH)].
  - exists 2. intros [|f] ?; [lia|]. simpl. unfold field in Hx.
    destruct (h !! x) as [nx|]; simpl in *; [|done]. rewrite Hx.
    apply Htop. lia.
  - exists (S k). intros [|f] ?; [lia|]. simpl. unfold field in Hx.
    destruct (h !! x) as [nx|]; simpl in *; [|done]. rewrite Hx.
    apply IH. lia.
Qed.

Lemma getRootNode_mono fuel fuel' h x r :
  TreeImpl.getRootNode fuel h x = Some r → fuel ≤ fuel' →
  TreeImpl.getRootNode fuel' h x = Some r.
Proof.
  revert fuel' x. induction fuel as [|k IH]; intros [|f] x; try done;
    [lia|].
  simpl. destruct (h !! x) as [nx|]; simpl; [|done].
  destruct (parent nx); [|done]. intros Hr ?. apply IH; [done|lia].
Qed.

Lemma isAncestor_above h a x :
  above h a x →
  ∃ k, ∀ fuel, k ≤ fuel →
       CompositeTreeNode.isAncestor fuel h a (Some x) = Some true.
Proof.
  induction 1 as [x Hx|x q Hx Hq (k & IH)].
  - exists 1. intros [|f] ?; [lia|]. simpl. rewrite Hx.
    unfold TreeNode_equals. by rewrite bool_decide_eq_true_2.
  - exists (S k). intros [|f] ?; [lia|]. simpl. rewrite Hx.
    destruct (TreeNode_equals h (Some a) (Some q)); [done|].
    apply IH. lia.
Qed.

(** ** Installing what is installed already *)

Lemma alter_children_same h p cs :
  field children h p = Some cs → alter (set_children (Some cs)) p h = h.
Proof.
  intros Hcs. apply map_eq. intros x.
  destruct (decide (p = x)) as [->|Hne].
  - rewrite lookup_alter_eq. unfold field in Hcs.
    destruct (h !! x) as [[]|]; simpl in *; [|done]. by simplify_eq.
  - by rewrite lookup_alter_ne.
Qed.

Lemma addNode_relinked fuel st l ls :
  reach fuel (heap st) l = Some ls → NoDup ls →
  (∀ p, p ∈ ls → links_ok (heap st) p) →
  ∃ st', TreeImpl.addNode fuel l st = Some st'
         ∧ heap st' = heap st
         ∧ nodes st' = register (heap st) ls (nodes st)
         ∧ root st' = root st ∧ log st' = log st.
Proof.
  intros Hr Hnd Hok.
  destruct (addNode_links fuel st l ls Hr Hnd)
    as (st' & Hadd & Hshape & Hframe & Hok' & Hroot & Hlog).
  destruct (addNode_nodes fuel st l ls Hr) as (st2 & Hadd2 & Hn & _).
  rewrite Hadd in Hadd2. injection Hadd2 as <-.
  exists st'. split_and!; try done.
  apply map_eq. intros x.
  destruct (decide (x ∈ tail ls)) as [Hx|Hx]; [|by apply Hframe].
  destruct (reach_head _ _ _ _ Hr) as [t ->]. simpl in Hx.
  apply NoDup_cons in Hnd as [Hl Hnd].
  assert (x ≠ l) as Hne by (by intros ->).
  destruct (reach_parent fuel (heap st) l (l :: t) x Hr)
    as (p & cs & i & Hp & Hcs & Hi); [by right|done|].
  destruct (Hok p Hp _ _ _ Hcs Hi) as (H1 & H2 & H3).
  assert (field children (heap st') p = Some cs) as Hcs'.
  { by rewrite (same_shape_children _ _ _ Hshape). }
  destruct (Hok' p Hp _ _ _ Hcs' Hi) as (H1' & H2' & H3').
  symmetry. apply lookup_eq_of_links; [apply Hshape|congruence..].
Qed.

(** [setChildren] with the children the node has already. *)
Lemma setChildren_same fuel st p cs ls r :
  field children (heap st) p = Some cs →
  reach fuel (heap st) p = Some ls → NoDup ls →
  NoDup (id_of (heap st) <$> ls) →
  (∀ q, q ∈ ls → links_ok (heap st) q) →
  (∀ x i, x ∈ ls → id_of (heap st) x = Some i → nodes st !! i = Some x) →
  TreeImpl.getRootNode fuel (heap st) p = Some r →
  (∀ rid r', id_of (heap st) r = Some rid → nodes st !! rid = Some r' →
             r' = r) →
  TreeImpl.setChildren fuel p cs st
  = Some (Some p, fire (NodeRefreshed p) st).
Proof.
  intros Hcs Hr Hnd Hids Hok Hreg Hroot Hown.
  unfold TreeImpl.setChildren. rewrite Hroot. simpl.
  destruct (getRootNode_is_Some _ _ _ _ Hroot) as [nr Hnr].
  assert (id_of (heap st) r = Some (id nr)) as Hrid.
  { unfold id_of. by rewrite Hnr. }
  rewrite Hrid. simpl.
  destruct (field_is_Some _ _ _ _ Hcs) as [np Hnp].
  assert (id_of (heap st) p = Some (id np)) as Hpid.
  { unfold id_of. by rewrite Hnp. }
  rewrite Hpid. simpl.
  assert (match nodes st !! id nr with
          | Some r' => bool_decide (r' ≠ r)
          | None => false
          end = false) as ->.
  { destruct (nodes st !! id nr) as [r'|] eqn:Hr'; [|done].
    rewrite (Hown _ _ Hrid Hr'). by rewrite bool_decide_eq_false_2 by auto. }
  destruct (removeNode_nodes fuel st p ls Hr)
    as (st1 & -> & Hh1 & Hr1 & Hl1 & Hn1).
  simpl. rewrite Hh1, (alter_children_same _ _ _ Hcs).
  destruct (addNode_relinked fuel (with_heap (heap st) st1) p ls)
    as (st2 & -> & Hh2 & Hn2 & Hr2 & Hl2); [done..|].
  simpl in *. do 2 f_equal.
  assert (nodes st2 = nodes st) as Hnodes.
  { rewrite Hn2. apply map_eq. intros i.
    destruct (decide (Some i ∈ id_of (heap st) <$> ls)) as [Hi|Hi].
    - apply list_elem_of_fmap in Hi as (x & Hx & Hin).
      rewrite (register_lookup_in _ _ _ x); auto.
      symmetry. by apply Hreg.
    - rewrite register_lookup_notin by done.
      rewrite Hn1. by rewrite decide_False. }
  destruct st as [h ns ro lg], st2 as [h2 ns2 ro2 lg2]. simpl in *.
  unfold fire. simpl. congruence.
Qed.

Lemma doResetBusy_idle n st :
  TreeImpl.busyOr0 (heap st) n = 0%Z → TreeImpl.doResetBusy n st = st.
Proof. intros Hz. unfold TreeImpl.doResetBusy. rewrite Hz. done. Qed.

Lemma refresh_same fuel raw token env st p cs ls r :
  TreeImpl.refreshTarget raw st = Some p →
  field children (heap st) p = Some cs →
  TreeImpl.resolved env = TreeImpl.resolveChildren (heap st) p →
  TreeImpl.busyElapses env = None →
  token && TreeImpl.cancelledAfterResolve env = false →
  token && TreeImpl.cancelledAfterSetChildren env = false →
  TreeImpl.busyOr0 (heap st) p = 0%Z →
  reach fuel (heap st) p = Some ls → NoDup ls →
  NoDup (id_of (heap st) <$> ls) →
  (∀ q, q ∈ ls → links_ok (heap st) q) →
  (∀ x i, x ∈ ls → id_of (heap st) x = Some i → nodes st !! i = Some x) →
  TreeImpl.getRootNode fuel (heap st) p = Some r →
  (∀ rid r', id_of (heap st) r = Some rid → nodes st !! rid = Some r' →
             r' = r) →
  TreeImpl.refresh fuel raw token env st
  = Some (Some p,
          mkTree (heap st) (nodes st) (root st)
                 (log st ++ [NodeRefreshed p; Changed; Changed])).
Proof.
  intros Ht Hcs Hres Hbusy Hc1 Hc2 Hz Hr Hnd Hids Hok Hreg Hroot Hown.
  unfold TreeImpl.refresh. rewrite Ht.
  unfold CompositeTreeNode.is_. rewrite Hcs.
  unfold TreeImpl.elapse. rewrite Hbusy, Hc1, Hres.
  unfold TreeImpl.resolveChildren. rewrite Hcs. simpl.
  rewrite (setChildren_same fuel st p cs ls r) by done. simpl.
  rewrite Hc2. rewrite doResetBusy_idle by done.
  unfold fire. simpl. by rewrite <- !app_assoc.
Qed.

(** [refresh] ends with [doResetBusy(parent)], whether its timer has
    elapsed or not. *)
Lemma same_shape_busyOr0 h h' x :
  same_shape h h' → TreeImpl.busyOr0 h' x = TreeImpl.busyOr0 h x.
Proof.
  intros Hs. specialize (Hs x). unfold TreeImpl.busyOr0, field.
  destruct (h !! x) as [[]|], (h' !! x) as [[]|]; simpl in *;
    by simplify_eq.
Qed.

Lemma setChildren_busy fuel p cs st res st' x :
  TreeImpl.setChildren fuel p cs st = Some (res, st') →
  TreeImpl.busyOr0 (heap st') x = TreeImpl.busyOr0 (heap st) x
  ∧ (is_Some (heap st !! x) → is_Some (heap st' !! x)).
Proof.
  unfold TreeImpl.setChildren. intros Hs.
  destruct (TreeImpl.getRootNode fuel (heap st) p) as [r|]; [|done].
  simpl in Hs. destruct (id_of (heap st) r) as [rid|]; [|done].
  simpl in Hs. destruct (id_of (heap st) p) as [pid|]; [|done].
  simpl in Hs.
  destruct (match nodes st !! rid with
            | Some r' => bool_decide (r' ≠ r)
            | None => false
            end).
  { injection Hs as <- <-. done. }
  destruct (TreeImpl.removeNode fuel p st) as [st1|] eqn:Hrm; [|done].
  simpl in Hs.
  destruct (TreeImpl.addNode fuel p _) as [st2|] eqn:Hadd; [|done].
  simpl in Hs. injection Hs as <- <-. simpl.
  pose proof (removeNode_heap_eq _ _ _ _ Hrm) as Hh1.
  pose proof (addNode_same_shape _ _ _ _ Hadd) as Hsh. simpl in Hsh.
  rewrite Hh1 in Hsh. split.
  - rewrite (same_shape_busyOr0 _ _ _ Hsh). unfold TreeImpl.busyOr0.
    by rewrite field_alter_keep.
  - intros Hx. eapply same_shape_is_Some; [done|]. by apply is_Some_alter.
Qed.

Lemma refresh_resets_busy fuel raw token env st res st' p :
  TreeImpl.refreshTarget raw st = Some p →
  CompositeTreeNode.is_ (heap st) p = true →
  TreeImpl.busyElapses env = None →
  TreeImpl.refresh fuel raw token env st = Some (res, st') →
  TreeImpl.busyOr0 (heap st') p
  = (if decide (0 < TreeImpl.busyOr0 (heap st) p)%Z
     then (TreeImpl.busyOr0 (heap st) p - 1)%Z
     else TreeImpl.busyOr0 (heap st) p)
  ∧ (TreeImpl.busyOr0 (heap st) p = 1%Z → DidChangeBusy p 0 ∈ log st').
Proof.
  intros Ht Hcomp Hbusy. unfold TreeImpl.refresh. rewrite Ht, Hcomp.
  unfold TreeImpl.elapse. rewrite Hbusy.
  assert (is_Some (heap st !! p)) as Hp.
  { unfold CompositeTreeNode.is_ in Hcomp.
    destruct (field children (heap st) p) eqn:Hc; [|done].
    by eapply field_is_Some. }
  assert (∀ s, is_Some (heap s !! p) →
               TreeImpl.busyOr0 (heap s) p = TreeImpl.busyOr0 (heap st) p →
               ∀ s', (s' = TreeImpl.doResetBusy p s
                      ∨ s' = fire Changed (TreeImpl.doResetBusy p s)) →
               TreeImpl.busyOr0 (heap s') p
               = (if decide (0 < TreeImpl.busyOr0 (heap st) p)%Z
                  then (TreeImpl.busyOr0 (heap st) p - 1)%Z
                  else TreeImpl.busyOr0 (heap st) p)
               ∧ (TreeImpl.busyOr0 (heap st) p = 1%Z →
                  DidChangeBusy p 0 ∈ log s')) as Hend.
  { intros s Hs Hb s' Hs'.
    pose proof (doResetBusy_busy p s Hs) as Hcount.
    pose proof (doResetBusy_log p s) as Hlog. rewrite Hb in Hcount, Hlog.
    destruct Hs' as [-> | ->]; simpl; (split; [done|]); intros H1;
      rewrite Hlog, decide_True by done; set_solver. }
  destruct (token && TreeImpl.cancelledAfterResolve env).
  { intros [= <- <-]. apply (Hend st); auto. }
  destruct (TreeImpl.setChildren fuel p (TreeImpl.resolved env) st)
    as [[result st2]|] eqn:Hsc; [|done]. simpl.
  destruct (setChildren_busy _ _ _ _ _ _ p Hsc) as [Hb2 Ha2].
  set (st3 := match result with
              | Some _ => fire Changed st2
              | None => st2
              end).
  assert (heap st3 = heap st2) as Hh3 by (unfold st3; by destruct result).
  destruct (token && TreeImpl.cancelledAfterSetChildren env);
    intros [= <- <-]; apply (Hend st3); rewrite ?Hh3; auto.
Qed.

End store_facts.

(** The example tree: what is below the root, linked and filed. *)
Lemma linked_three_levels_installed :
  reach 3 (heap Examples.linked_three_levels) 0 = Some [0; 1; 3; 4; 2]
  ∧ NoDup [0; 1; 3; 4; 2]
  ∧ NoDup (id_of (heap Examples.linked_three_levels) <$> [0; 1; 3; 4; 2])
  ∧ (∀ q, q ∈ [0; 1; 3; 4; 2] →
          links_ok (heap Examples.linked_three_levels) q)
  ∧ (∀ x i, x ∈ [0; 1; 3; 4; 2] →
            id_of (heap Examples.linked_three_levels) x = Some i →
            nodes Examples.linked_three_levels !! i = Some x).
Proof.
  split_and!.
  - vm_compute. reflexivity.
  - refine (bool_decide_unpack _ _). vm_compute. exact I.
  - refine (bool_decide_unpack _ _). vm_compute. exact I.
  - intros q Hq. repeat (apply elem_of_cons in Hq as [->|Hq]);
      [apply linked_three_levels_links; by left
      |apply linked_three_levels_links; by right
      |intros cs i c Hcs; vm_compute in Hcs; try discriminate..|].
    + injection Hcs as <-. intros Hi. vm_compute in Hi. discriminate.
    + by apply elem_of_nil in Hq.
  - intros x i Hx Hid.
    repeat (apply elem_of_cons in Hx as [->|Hx]);
      [vm_compute in Hid; injection Hid as <-; vm_compute; reflexivity..|].
    by apply elem_of_nil in Hx.
Qed.

(** What [this.nodes[id]] is under an ordinary id. *)
Lemma nodes_at_ordinary st i :
  TreeImpl.ordinary i →
  TreeImpl.nodes_at st i
  = match TreeImpl.getNode st (Some i) with
    | Some l => TreeImpl.Own l
    | None => TreeImpl.Absent
    end.
Proof.
  intros Hi. unfold TreeImpl.nodes_at, TreeImpl.getNode. simpl.
  destruct (nodes st !! i); [done|]. by rewrite bool_decide_eq_false_2.
Qed.

Lemma ordinary_ids_id_of h x i :
  ordinary_ids h → id_of h x = Some i → TreeImpl.ordinary i.
Proof.
  intros Hord Hid. unfold id_of in Hid.
  destruct (h !! x) as [nd|] eqn:Hx; [|done].
  simpl in Hid. injection Hid as <-. by apply (Hord x nd).
Qed.

(** X6.  The Node Store is keyed by id: after [root = node], and after
    every [refresh] from then on, the node filed under an id has that id.
    So, in a tree whose node ids are ordinary (none is a key of
    [Object.prototype]), [validateNode] returns exactly what the store has
    under the id of the node, and changes nothing when it is applied a
    second time. *)
Theorem node_store_is_keyed_by_id :
  (∀ fuel r st st',
     TreeImpl.set_root_sync fuel r st = Some st' → store_ok st')
  ∧ (∀ fuel raw token env st res st',
       store_ok st →
       TreeImpl.refresh fuel raw token env st = Some (res, st') →
       store_ok st')
  ∧ (∀ st n,
       store_ok st → ordinary_ids (heap st) →
       TreeImpl.validateNode st (TreeImpl.validateNode st n)
       = TreeImpl.validateNode st n
       ∧ ∀ x i, n = Some x → id_of (heap st) x = Some i →
                TreeImpl.nodes_at st i
                = match TreeImpl.validateNode st n with
                  | Some l => TreeImpl.Own l
                  | None => TreeImpl.Absent
                  end).
Proof.
  split_and!.
  - intros. by eapply set_root_sync_store_ok.
  - intros. by eapply refresh_store_ok.
  - intros st n Hok Hord. split; [by apply validateNode_idem|].
    intros x i -> Hid. unfold TreeImpl.validateNode. simpl. rewrite Hid.
    apply nodes_at_ordinary. by eapply ordinary_ids_id_of.
Qed.

(** The theorem at the example tree, made the root and then refreshed
    with the children of the root in reverse. *)
Lemma node_store_is_keyed_by_id_witness :
  store_ok Examples.linked_three_levels
  ∧ (∃ st', TreeImpl.refresh 3 None false (Examples.quiet [2; 1])
              Examples.linked_three_levels = Some (Some 0, st')
            ∧ store_ok st')
  ∧ TreeImpl.validateNode Examples.linked_three_levels
      (TreeImpl.validateNode Examples.linked_three_levels (Some 3))
    = TreeImpl.validateNode Examples.linked_three_levels (Some 3).
Proof.
  destruct node_store_is_keyed_by_id as (Hroot & Hrefresh & Hvalid).
  assert (store_ok Examples.linked_three_levels) as Hok.
  { apply (Hroot 3 (Some 0) Examples.three_levels). vm_compute. reflexivity. }
  split_and!; [exact Hok| |].
  - eexists. split; [vm_compute; reflexivity|].
    eapply (Hrefresh 3 None false (Examples.quiet [2; 1])); [exact Hok|].
    vm_compute. reflexivity.
  - apply Hvalid; [exact Hok|].
    refine (bool_decide_unpack _ _). vm_compute. exact I.
Defined.

Lemma reach_allocated fuel (h : gmap nat node) (l : nat) (ls : list nat) :
  reach fuel h l = Some ls → ∀ x, x ∈ ls → is_Some (h !! x).
Proof.
  revert l ls. induction fuel as [|k IH]; intros l ls Hr x Hx; [done|].
  apply reach_unfold in Hr
    as [Hl [[_ ->] | (cs & lss & Hcs & Hall & ->)]].
  { by apply list_elem_of_singleton in Hx as ->. }
  apply elem_of_cons in Hx as [->|Hx]; [done|].
  destruct (concat_reach_elem k h cs lss x Hall Hx)
    as (c & lsc & _ & Hrc & Hxc & _). by eapply IH.
Qed.

(** X7.  [removeNode(node)] leaves every object as it is and deletes from
    the Node Store the ids of the nodes below the node, the node included.
    In a tree whose node ids are ordinary (none is a key of
    [Object.prototype]) the store has nothing under any of those ids
    afterwards, and under every other id what it had before. *)
Theorem removeNode_forgets_the_subtree fuel st l ls :
  reach fuel (heap st) l = Some ls →
  ordinary_ids (heap st) →
  ∃ st', TreeImpl.removeNode fuel l st = Some st'
         ∧ heap st' = heap st ∧ root st' = root st
         ∧ (∀ x i, x ∈ ls → id_of (heap st) x = Some i →
                   TreeImpl.getNode st' (Some i) = None
                   ∧ TreeImpl.nodes_at st' i = TreeImpl.Absent)
         ∧ (∀ i, Some i ∉ (id_of (heap st) <$> ls) →
                 TreeImpl.getNode st' (Some i) = TreeImpl.getNode st (Some i)
                 ∧ TreeImpl.nodes_at st' i = TreeImpl.nodes_at st i).
Proof.
  intros Hr Hord.
  destruct (removeNode_nodes fuel st l ls Hr)
    as (st' & Hrm & Hh & Hroot & _ & Hn).
  exists st'. split_and!; try done.
  - intros x i Hx Hi.
    assert (TreeImpl.getNode st' (Some i) = None) as Hget.
    { unfold TreeImpl.getNode. simpl. rewrite Hn, decide_True; [done|].
      apply list_elem_of_fmap. eauto. }
    split; [done|].
    rewrite nodes_at_ordinary by (by eapply ordinary_ids_id_of).
    by rewrite Hget.
  - intros i Hi.
    assert (nodes st' !! i = nodes st !! i) as Heq.
    { by rewrite Hn, decide_False. }
    unfold TreeImpl.nodes_at, TreeImpl.getNode. simpl. by rewrite Heq.
Qed.

(** The theorem at [dir1] of the example tree. *)
Lemma removeNode_forgets_the_subtree_witness :
  ∃ st', TreeImpl.removeNode 3 1 Examples.linked_three_levels = Some st'
         ∧ TreeImpl.nodes_at st' "file1" = TreeImpl.Absent
         ∧ TreeImpl.getNode st' (Some "dir2") = Some 2.
Proof.
  destruct (removeNode_forgets_the_subtree 3 Examples.linked_three_levels 1
              [1; 3; 4]) as (st' & Hrm & _ & _ & Hgone & Hkept).
  - vm_compute. reflexivity.
  - refine (bool_decide_unpack _ _). vm_compute. exact I.
  - exists st'. split; [exact Hrm|]. split.
    + apply (Hgone 3 "file1"); [|vm_compute; reflexivity].
      refine (bool_decide_unpack _ _). vm_compute. exact I.
    + destruct (Hkept "dir2") as [Hget _].
      { refine (bool_decide_unpack _ _). vm_compute. exact I. }
      rewrite Hget. vm_compute. reflexivity.
Defined.

(** X8.  [addNode(node)] files the node and the nodes below it in the
    Node Store, in the order it visits them, whatever was filed under their
    ids.  In a tree whose node ids are ordinary (none is a key of
    [Object.prototype]): when the ids of those nodes are pairwise
    distinct, the store has each of them under its id and [validateNode]
    finds it; and the store has under every other id what it had
    before. *)
Theorem addNode_files_the_subtree fuel st l ls :
  reach fuel (heap st) l = Some ls →
  ordinary_ids (heap st) →
  ∃ st', TreeImpl.addNode fuel l st = Some st'
         ∧ nodes st' = register (heap st) ls (nodes st)
         ∧ (NoDup (id_of (heap st) <$> ls) →
            ∀ x, x ∈ ls →
                 TreeImpl.validateNode st' (Some x) = Some x
                 ∧ ∀ i, id_of (heap st) x = Some i →
                        TreeImpl.nodes_at st' i = TreeImpl.Own x)
         ∧ (∀ i, Some i ∉ (id_of (heap st) <$> ls) →
                 TreeImpl.getNode st' (Some i) = TreeImpl.getNode st (Some i)
                 ∧ TreeImpl.nodes_at st' i = TreeImpl.nodes_at st i).
Proof.
  intros Hr Hord.
  destruct (addNode_nodes fuel st l ls Hr) as (st' & Hadd & Hn & Hs & _).
  exists st'. split_and!; try done.
  - intros Hnd x Hx.
    destruct (reach_allocated _ _ _ _ Hr x Hx) as [nx Hnx].
    assert (id_of (heap st) x = Some (id nx)) as Hid.
    { unfold id_of. by rewrite Hnx. }
    assert (nodes st' !! id nx = Some x) as Hfiled.
    { rewrite Hn. by eapply register_lookup_in. }
    split.
    + unfold TreeImpl.validateNode, TreeImpl.getNode. simpl.
      rewrite (same_shape_id _ _ _ Hs), Hid. simpl. exact Hfiled.
    + intros i Hi. rewrite Hid in Hi. injection Hi as <-.
      unfold TreeImpl.nodes_at. by rewrite Hfiled.
  - intros i Hi.
    assert (nodes st' !! i = nodes st !! i) as Heq.
    { rewrite Hn. by apply register_lookup_notin. }
    unfold TreeImpl.nodes_at, TreeImpl.getNode. simpl. by rewrite Heq.
Qed.

(** The theorem at the example tree, before it is made the root. *)
Lemma addNode_files_the_subtree_witness :
  ∃ st', TreeImpl.addNode 3 0 Examples.three_levels = Some st'
         ∧ TreeImpl.validateNode st' (Some 4) = Some 4.
Proof.
  destruct (addNode_files_the_subtree 3 Examples.three_levels 0
              [0; 1; 3; 4; 2]) as (st' & Hadd & _ & Hfound & _).
  - vm_compute. reflexivity.
  - refine (bool_decide_unpack _ _). vm_compute. exact I.
  - exists st'. split; [exact Hadd|]. apply Hfound.
    + refine (bool_decide_unpack _ _). vm_compute. exact I.
    + refine (bool_decide_unpack _ _). vm_compute. exact I.
Defined.

(** X9.  [refresh] with the [resolveChildren] of [TreeImpl], which resolves
    to the children the node has, on a node whose nodes are installed
    (linked, filed under pairwise distinct ids) and not busy: every object,
    the Node Store and the root are as they were; [onNodeRefreshed] is
    fired once and [onChanged] twice. *)
Theorem refresh_of_unchanged_children fuel raw token env st p cs ls r :
  TreeImpl.refreshTarget raw st = Some p →
  field children (heap st) p = Some cs →
  TreeImpl.resolved env = TreeImpl.resolveChildren (heap st) p →
  TreeImpl.busyElapses env = None →
  token && TreeImpl.cancelledAfterResolve env = false →
  token && TreeImpl.cancelledAfterSetChildren env = false →
  TreeImpl.busyOr0 (heap st) p = 0%Z →
  reach fuel (heap st) p = Some ls → NoDup ls →
  NoDup (id_of (heap st) <$> ls) →
  (∀ q, q ∈ ls → links_ok (heap st) q) →
  (∀ x i, x ∈ ls → id_of (heap st) x = Some i → nodes st !! i = Some x) →
  TreeImpl.getRootNode fuel (heap st) p = Some r →
  (∀ rid r', id_of (heap st) r = Some rid → nodes st !! rid = Some r' →
             r' = r) →
  TreeImpl.refresh fuel raw token env st
  = Some (Some p,
          mkTree (heap st) (nodes st) (root st)
                 (log st ++ [NodeRefreshed p; Changed; Changed])).
Proof. apply refresh_same. Qed.

(** The theorem at the root of the example tree. *)
Lemma refresh_of_unchanged_children_witness :
  TreeImpl.refresh 3 None false (Examples.quiet [1; 2])
    Examples.linked_three_levels
  = Some (Some 0,
          mkTree (heap Examples.linked_three_levels)
                 (nodes Examples.linked_three_levels) (Some 0)
                 [NodeRefreshed 0; Changed; Changed]).
Proof.
  destruct linked_three_levels_installed
    as (Hreach & Hnd & Hids & Hok & Hreg).
  apply (refresh_of_unchanged_children 3 None false (Examples.quiet [1; 2])
           Examples.linked_three_levels 0 [1; 2] [0; 1; 3; 4; 2] 0).
  - vm_compute. reflexivity.
  - vm_compute. reflexivity.
  - vm_compute. reflexivity.
  - reflexivity.
  - reflexivity.
  - reflexivity.
  - vm_compute. reflexivity.
  - exact Hreach.
  - exact Hnd.
  - exact Hids.
  - exact Hok.
  - exact Hreg.
  - vm_compute. reflexivity.
  - intros rid r' Hid Hn. vm_compute in Hid. injection Hid as <-.
    vm_compute in Hn. injection Hn as <-. reflexivity.
Defined.

(** X10.  After [root = node] on nodes that are pairwise distinct objects,
    [isAncestor(root, x)] holds of every other node [x] below the root;
    and when the root has no parent, [isAncestor(a, root)] holds of no
    [a]. *)
Theorem root_is_ancestor_of_every_node fuel st l ls st' :
  reach fuel (heap st) l = Some ls → NoDup ls →
  TreeImpl.set_root_sync fuel (Some l) st = Some st' →
  (∀ x, x ∈ ls → x ≠ l →
        ∃ k, ∀ fuel', k ≤ fuel' →
             CompositeTreeNode.isAncestor fuel' (heap st') l (Some x)
             = Some true)
  ∧ (field parent (heap st) l = None →
     ∀ a fuel',
       CompositeTreeNode.isAncestor (S (S fuel')) (heap st') a (Some l)
       = Some false).
Proof.
  intros Hr Hnd Hset. unfold TreeImpl.set_root_sync in Hset.
  destruct (addNode_links fuel (mkTree (heap st) ∅ (Some l) (log st)) l ls
              Hr Hnd) as (st2 & Hadd & Hshape & Hframe & Hok & _).
  rewrite Hadd in Hset. injection Hset as <-. simpl in *. split.
  - intros x Hx Hne. apply isAncestor_above.
    apply (reach_above fuel _ l ls); try done.
    by rewrite (reach_same_shape _ (heap st)).
  - intros Hroot a fuel'. simpl.
    assert (field parent (heap st2) l = None) as ->.
    { unfold field. rewrite Hframe; [done|].
      destruct (reach_head _ _ _ _ Hr) as [t ->]. simpl.
      by apply NoDup_cons in Hnd as [? _]. }
    done.
Qed.

(** The theorem at the example tree: the root is an ancestor of
    [file2]. *)
Lemma root_is_ancestor_of_every_node_witness :
  ∃ k, ∀ fuel', k ≤ fuel' →
       CompositeTreeNode.isAncestor fuel'
         (heap Examples.linked_three_levels) 0 (Some 4) = Some true.
Proof.
  destruct (root_is_ancestor_of_every_node 3 Examples.three_levels 0
              [0; 1; 3; 4; 2] Examples.linked_three_levels)
    as [Hanc _].
  - vm_compute. reflexivity.
  - refine (bool_decide_unpack _ _). vm_compute. exact I.
  - vm_compute. reflexivity.
  - apply Hanc; [|lia].
    refine (bool_decide_unpack _ _). vm_compute. exact I.
Defined.

(** X11.  After [root = node] on a root without parent whose nodes are
    pairwise distinct objects with pairwise distinct ids, [getRootNode]
    leads from every node to the root, the Node Store holds the root under
    its id, and so [setChildren] on any of the nodes is never turned down:
    when it returns, it returns the node. *)
Theorem installed_nodes_pass_root_validation fuel st l ls st' :
  reach fuel (heap st) l = Some ls → NoDup ls →
  NoDup (id_of (heap st) <$> ls) → field parent (heap st) l = None →
  TreeImpl.set_root_sync fuel (Some l) st = Some st' →
  ∀ p, p ∈ ls →
    (∃ k, ∀ fuel', k ≤ fuel' →
          TreeImpl.getRootNode fuel' (heap st') p = Some l)
    ∧ TreeImpl.validateNode st' (Some l) = Some l
    ∧ ∀ fuel' cs res st'',
        TreeImpl.setChildren fuel' p cs st' = Some (res, st'') →
        res = Some p.
Proof.
  intros Hr Hnd Hids Hroot Hset p Hp.
  unfold TreeImpl.set_root_sync in Hset.
  pose (st1 := mkTree (heap st) ∅ (Some l) (log st)).
  destruct (addNode_links fuel st1 l ls Hr Hnd)
    as (st2 & Hadd & Hshape & Hframe & Hok & _).
  destruct (addNode_nodes fuel st1 l ls Hr) as (st3 & Hadd3 & Hn & _).
  fold st1 in Hset. rewrite Hadd in Hset, Hadd3.
  injection Hset as <-. injection Hadd3 as <-. simpl in *.
  destruct (reach_head _ _ _ _ Hr) as [t ->].
  assert (heap st2 !! l = heap st !! l) as Hl.
  { apply Hframe. simpl. by apply NoDup_cons in Hnd as [? _]. }
  destruct (reach_is_Some _ _ _ _ Hr) as [nl Hnl].
  assert (field parent (heap st2) l = None) as Hroot2.
  { unfold field. by rewrite Hl. }
  assert (id_of (heap st2) l = Some (id nl)) as Hid2.
  { unfold id_of. by rewrite Hl, Hnl. }
  assert (nodes st2 !! id nl = Some l) as Hfiled.
  { rewrite Hn. apply register_lookup_in; [done|by left|].
    unfold id_of. by rewrite Hnl. }
  assert (∃ k, ∀ fuel', k ≤ fuel' →
               TreeImpl.getRootNode fuel' (heap st2) p = Some l) as Hup.
  { destruct (decide (p = l)) as [->|Hne].
    - exists 1. intros [|f] ?; [lia|]. simpl. rewrite Hl, Hnl. simpl.
      unfold field in Hroot. rewrite Hnl in Hroot. simpl in Hroot.
      by rewrite Hroot.
    - apply getRootNode_above; [|by rewrite Hl, Hnl|done].
      apply (reach_above fuel _ l (l :: t)); try done.
      by rewrite (reach_same_shape _ (heap st)). }
  split_and!; [done| |].
  - unfold TreeImpl.validateNode, TreeImpl.getNode. simpl.
    by rewrite Hid2.
  - intros fuel' cs res st'' Hsc. destruct Hup as [k Hk].
    unfold TreeImpl.setChildren in Hsc.
    destruct (TreeImpl.getRootNode fuel' (heap st2) p) as [r|] eqn:Hg;
      [|done].
    assert (r = l) as ->.
    { pose proof (getRootNode_mono _ (fuel' + k) _ _ _ Hg) as H1.
      rewrite Hk in H1 by lia. symmetry. apply (inj Some), H1. lia. }
    simpl in Hsc. rewrite Hid2 in Hsc. simpl in Hsc.
    destruct (id_of (heap st2) p) as [pid|]; [|done]. simpl in Hsc.
    rewrite Hfiled in Hsc.
    rewrite bool_decide_eq_false_2 in Hsc by auto.
    destruct (TreeImpl.removeNode fuel' p st2) as [s1|]; [|done].
    simpl in Hsc.
    destruct (TreeImpl.addNode fuel' p _) as [s2|]; [|done].
    simpl in Hsc. by injection Hsc as <- _.
Qed.

(** The theorem at the example tree: [getRootNode] leads from [file1] to
    the root. *)
Lemma installed_nodes_pass_root_validation_witness :
  ∃ k, ∀ fuel', k ≤ fuel' →
       TreeImpl.getRootNode fuel' (heap Examples.linked_three_levels) 3
       = Some 0.
Proof.
  destruct (installed_nodes_pass_root_validation 3 Examples.three_levels 0
              [0; 1; 3; 4; 2] Examples.linked_three_levels)
    with (p := 3) as [Hup _].
  - vm_compute. reflexivity.
  - refine (bool_decide_unpack _ _). vm_compute. exact I.
  - refine (bool_decide_unpack _ _). vm_compute. exact I.
  - vm_compute. reflexivity.
  - vm_compute. reflexivity.
  - refine (bool_decide_unpack _ _). vm_compute. exact I.
  - exact Hup.
Defined.

(** X12.  [refresh] always ends with [doResetBusy(parent)]: when its own
    800 ms timer has not elapsed, a busy count that another marker has
    raised is one less afterwards, and [onDidChangeBusy] is fired when it
    drops to zero. *)
Theorem refresh_resets_a_busy_count_it_did_not_raise
    fuel raw token env st res st' p :
  TreeImpl.refreshTarget raw st = Some p →
  CompositeTreeNode.is_ (heap st) p = true →
  TreeImpl.busyElapses env = None →
  TreeImpl.refresh fuel raw token env st = Some (res, st') →
  TreeImpl.busyOr0 (heap st') p
  = (if decide (0 < TreeImpl.busyOr0 (heap st) p)%Z
     then (TreeImpl.busyOr0 (heap st) p - 1)%Z
     else TreeImpl.busyOr0 (heap st) p)
  ∧ (TreeImpl.busyOr0 (heap st) p = 1%Z → DidChangeBusy p 0 ∈ log st').
Proof. apply refresh_resets_busy. Qed.

(** The theorem at the lone root, which a marker of a caller has made busy:
    a refresh that ends before its own timer elapses leaves it not busy. *)
Lemma refresh_resets_a_busy_count_it_did_not_raise_witness :
  TreeImpl.busyOr0 (heap Examples.busy_root) 0 = 1%Z
  ∧ ∃ st', TreeImpl.refresh 3 None false (Examples.quiet [1])
             Examples.busy_root = Some (Some 0, st')
           ∧ TreeImpl.busyOr0 (heap st') 0 = 0%Z
           ∧ DidChangeBusy 0 0 ∈ log st'.
Proof.
  split; [vm_compute; reflexivity|].
  eexists. split; [vm_compute; reflexivity|].
  match goal with
  | |- TreeImpl.busyOr0 (heap ?s) 0 = _ ∧ _ =>
      destruct (refresh_resets_a_busy_count_it_did_not_raise 3 None false
                  (Examples.quiet [1]) Examples.busy_root (Some 0) s 0)
        as [Hcount Hevent]
  end.
  - vm_compute. reflexivity.
  - vm_compute. reflexivity.
  - reflexivity.
  - vm_compute. reflexivity.
  - split; [rewrite Hcount; vm_compute; reflexivity|].
    apply Hevent. vm_compute. reflexivity.
Defined.

(** ** Moving to the parent, and moving from nowhere *)

Lemma getVisibleParent_parents fuel (h : gmap nat node) (n : nat) :
  SelectableTreeNode.getVisibleParent fuel h (Some n)
  = match find (λ q, SelectableTreeNode.isVisible h (Some q))
               (parents fuel h n) with
    | Some p => Some (Some p)
    | None =>
        if decide (S (length (parents fuel h n)) < fuel) then Some None
        else None
    end.
Proof.
  revert n. induction fuel as [|k IH]; intros n; [done|].
  simpl. destruct (field parent h n) as [p|] eqn:Hp; simpl.
  - destruct (SelectableTreeNode.isVisible h (Some p)) eqn:Hv; [done|].
    rewrite IH. destruct (find _ _); [done|].
    repeat case_decide; try done; lia.
  - destruct k; simpl; done.
Qed.

(** X13.  [SelectableTreeNode.getVisibleParent(node)], which
    [selectParent] selects, is the nearest node above [node] that is
    selectable and visible; nodes above that are not are passed over, and
    the result is [undefined] when the chain of parents ends without one. *)
Theorem getVisibleParent_is_the_nearest fuel h n :
  (∀ p, find (λ q, SelectableTreeNode.isVisible h (Some q))
             (parents fuel h n) = Some p →
        SelectableTreeNode.getVisibleParent fuel h (Some n) = Some (Some p))
  ∧ (S (length (parents fuel h n)) < fuel →
     find (λ q, SelectableTreeNode.isVisible h (Some q)) (parents fuel h n)
       = None →
     SelectableTreeNode.getVisibleParent fuel h (Some n) = Some None)
  ∧ (∀ r, SelectableTreeNode.getVisibleParent fuel h (Some n) = Some r →
          r = find (λ q, SelectableTreeNode.isVisible h (Some q))
                   (parents fuel h n)).
Proof.
  rewrite getVisibleParent_parents. split_and!.
  - by intros p ->.
  - intros Hlen ->. by rewrite decide_True.
  - intros r. destruct (find _ _); [by intros [= <-]|].
    case_decide; [by intros [= <-]|done].
Qed.

(** The theorem at [file1] of the example tree, and at a node below the
    hidden root of a source tree. *)
Lemma getVisibleParent_is_the_nearest_witness :
  SelectableTreeNode.getVisibleParent 4
    (heap Examples.linked_three_levels) (Some 3) = Some (Some 1)
  ∧ SelectableTreeNode.getVisibleParent 4 (heap Examples.source_tree)
      (Some 1) = Some None.
Proof.
  split.
  - apply (proj1 (getVisibleParent_is_the_nearest 4
                    (heap Examples.linked_three_levels) 3)).
    vm_compute. reflexivity.
  - apply (proj1 (proj2 (getVisibleParent_is_the_nearest 4
                           (heap Examples.source_tree) 1))).
    + vm_compute. lia.
    + vm_compute. reflexivity.
Defined.

(** X14.  Moves that have nowhere to start from.  With a search filter
    active, a node that is not among the filtered nodes has no next and no
    previous node, selectable or not.  Without a filter and with nothing
    focused, [getNextNode()] and [getPrevNode()] are [undefined]; and when
    there is no root either, so are [getNextSelectableNode()] and
    [getPrevSelectableNode()]. *)
Theorem moves_from_nowhere `{TreeIterators} (m : ModelState) :
  (∀ n fuel,
     filteredNodes m ≠ [] → n ∉ filteredNodes m →
     TreeModelImpl.getNextNode m (Some n) = None
     ∧ TreeModelImpl.getPrevNode m (Some n) = None
     ∧ TreeModelImpl.getNextSelectableNode fuel m (Some n) = Some None
     ∧ TreeModelImpl.getPrevSelectableNode fuel m (Some n) = Some None)
  ∧ (filteredNodes m = [] → focusedNode m = None →
     TreeModelImpl.getNextNode m None = None
     ∧ TreeModelImpl.getPrevNode m None = None
     ∧ (root (tree m) = None →
        ∀ fuel,
          TreeModelImpl.getNextSelectableNode fuel m None = Some None
          ∧ TreeModelImpl.getPrevSelectableNode fuel m None = Some None)).
Proof.
  split.
  - intros n fuel Hf Hn.
    assert (TreeModelImpl.includes (filteredNodes m) n = false) as Hinc.
    { unfold TreeModelImpl.includes. by apply bool_decide_eq_false_2. }
    unfold TreeModelImpl.getNextNode, TreeModelImpl.getPrevNode,
      TreeModelImpl.getNextSelectableNode,
      TreeModelImpl.getPrevSelectableNode,
      TreeModelImpl.createTreeIterator,
      TreeModelImpl.createBackwardTreeIterator, TreeModelImpl.createIterator,
      TreeModelImpl.createBackwardIterator, TreeModelImpl.createFiltered.
    simpl. destruct (filteredNodes m) as [|x l] eqn:Hfl; [done|].
    rewrite Hinc. done.
  - intros Hf Hfocus.
    unfold TreeModelImpl.getNextNode, TreeModelImpl.getPrevNode,
      TreeModelImpl.getNextSelectableNode,
      TreeModelImpl.getPrevSelectableNode, TreeModelImpl.getFocusedNode,
      TreeModelImpl.createTreeIterator,
      TreeModelImpl.createBackwardTreeIterator, TreeModelImpl.createIterator.
    rewrite Hf, Hfocus. simpl. split_and!; [done..|].
    intros Hroot fuel. rewrite Hroot. simpl. split; [done|].
    unfold TreeModelImpl.getNextSelectableNode, TreeModelImpl.getFocusedNode,
      TreeModelImpl.createIterator.
    by rewrite Hf, Hfocus, Hroot.
Qed.

(** The theorem at the example tree under a filter that keeps the files
    and [dir2], from [dir1]; and with nothing focused and no filter. *)
Lemma moves_from_nowhere_witness :
  TreeModelImpl.getNextNode (H := SpecIterators.iterators)
    Examples.filtered_on_file1 (Some 1) = None
  ∧ TreeModelImpl.getPrevNode (H := SpecIterators.iterators)
      Examples.unfocused None = None.
Proof.
  split.
  - destruct (@moves_from_nowhere SpecIterators.iterators
                Examples.filtered_on_file1) as [Hout _].
    destruct (Hout 1 0) as [Hnext _]; [discriminate| |exact Hnext].
    refine (bool_decide_unpack _ _). vm_compute. exact I.
  - destruct (@moves_from_nowhere SpecIterators.iterators
                Examples.unfocused) as [_ Hnone].
    destruct Hnone as (_ & Hprev & _); [reflexivity..|exact Hprev].
Defined.

(** * Tree decorators *)

Section decorator_facts.
Context {Data : Type}.
Implicit Types (changes : list (string * list Data))
  (entries : list (string * Data))
  (decorations : list (list (string * Data))).

Lemma get_push id' id (data : Data) changes :
  AbstractTreeDecoratorService.get id'
    (AbstractTreeDecoratorService.push id data changes)
  = if decide (id' = id)
    then Some (default [] (AbstractTreeDecoratorService.get id changes)
               ++ [data])
    else AbstractTreeDecoratorService.get id' changes.
Proof.
  induction changes as [|[k ds] rest IH]; simpl.
  - repeat case_decide; simplify_eq; done.
  - destruct (decide (k = id)) as [->|Hk]; simpl.
    + destruct (decide (id = id')) as [->|Hne].
      * by rewrite decide_True.
      * by rewrite decide_False.
    + rewrite IH. destruct (decide (k = id')) as [->|Hne]; [|done].
      by rewrite decide_False.
Qed.

Lemma keys_push id (data : Data) changes :
  (AbstractTreeDecoratorService.push id data changes).*1
  = if decide (id ∈ changes.*1) then changes.*1 else changes.*1 ++ [id].
Proof.
  induction changes as [|[k ds] rest IH]; [done|].
  cbn [AbstractTreeDecoratorService.push].
  destruct (decide (k = id)) as [->|Hk]; rewrite !fmap_cons; cbn [fst].
  - rewrite decide_True; [done|]. by left.
  - rewrite IH. destruct (decide (id ∈ rest.*1)) as [Hin|Hin].
    + rewrite decide_True; [done|]. by right.
    + rewrite decide_False; [done|].
      by intros [?|?]%elem_of_cons.
Qed.

Lemma NoDup_push id (data : Data) changes :
  NoDup changes.*1 →
  NoDup (AbstractTreeDecoratorService.push id data changes).*1.
Proof.
  intros Hnd. rewrite keys_push. case_decide; [done|].
  apply NoDup_app. split_and!; [done| |apply NoDup_singleton].
  intros x Hx ->%list_elem_of_singleton. done.
Qed.

(** One decorator: its entries are pushed, each under its id. *)
Lemma get_entries id entries changes :
  NoDup entries.*1 →
  AbstractTreeDecoratorService.get id
    (foldl (λ changes '(id, data),
              AbstractTreeDecoratorService.push id data changes)
           changes entries)
  = match AbstractTreeDecoratorService.get id entries with
    | Some data =>
        Some (default [] (AbstractTreeDecoratorService.get id changes)
              ++ [data])
    | None => AbstractTreeDecoratorService.get id changes
    end.
Proof.
  revert changes. induction entries as [|[k d] rest IH]; intros changes Hnd;
    [done|].
  simpl in *. apply NoDup_cons in Hnd as [Hk Hnd].
  rewrite IH by done. rewrite get_push.
  destruct (decide (k = id)) as [->|Hne].
  - rewrite decide_True by done.
    assert (AbstractTreeDecoratorService.get id rest = None) as ->; [|done].
    clear -Hk. induction rest as [|[k' d'] rest IH]; simpl in *; [done|].
    apply not_elem_of_cons in Hk as [? ?]. rewrite decide_False by done.
    auto.
  - rewrite decide_False by done. done.
Qed.

Lemma NoDup_entries entries changes :
  NoDup changes.*1 →
  NoDup (foldl (λ changes '(id, data),
                  AbstractTreeDecoratorService.push id data changes)
               changes entries).*1.
Proof.
  revert changes. induction entries as [|[k d] rest IH]; intros changes Hnd;
    [done|].
  simpl. by apply IH, NoDup_push.
Qed.

Lemma getDecorations_from changes decorations id :
  Forall (λ entries, NoDup entries.*1) decorations → NoDup changes.*1 →
  let result :=
    foldl (λ changes entries,
             foldl (λ changes '(id, data),
                      AbstractTreeDecoratorService.push id data changes)
                   changes entries)
          changes decorations in
  NoDup result.*1
  ∧ AbstractTreeDecoratorService.get id result
    = match AbstractTreeDecoratorService.get id changes,
            omap (AbstractTreeDecoratorService.get id) decorations with
      | None, [] => None
      | o, ds => Some (default [] o ++ ds)
      end.
Proof.
  revert changes. induction decorations as [|entries rest IH];
    intros changes Hall Hnd; simpl.
  - split; [done|]. destruct (AbstractTreeDecoratorService.get id changes);
      simpl; by rewrite ?app_nil_r.
  - apply Forall_cons in Hall as [He Hall].
    destruct (IH _ Hall (NoDup_entries entries changes Hnd)) as [H1 H2].
    split; [done|]. simpl in H2. rewrite H2, get_entries by done.
    destruct (AbstractTreeDecoratorService.get id entries) as [d|]; simpl.
    + rewrite <- app_assoc. simpl.
      by destruct (AbstractTreeDecoratorService.get id changes).
    + done.
Qed.

End decorator_facts.

(** X15.  [AbstractTreeDecoratorService.getDecorations(tree)] collects,
    under each node id, the data of the decorators that decorate that id,
    in the order of the decorators; an id that no decorator decorates has
    no entry, and no id has two. *)
Theorem getDecorations_collects_by_id {Data : Type}
    (decorations : list (list (string * Data))) :
  Forall (λ entries, NoDup entries.*1) decorations →
  NoDup (AbstractTreeDecoratorService.getDecorations decorations).*1
  ∧ ∀ id,
      AbstractTreeDecoratorService.get id
        (AbstractTreeDecoratorService.getDecorations decorations)
      = match omap (AbstractTreeDecoratorService.get id) decorations with
        | [] => None
        | ds => Some ds
        end.
Proof.
  intros Hall. split.
  - apply (getDecorations_from [] decorations EmptyString Hall).
    apply NoDup_nil_2.
  - intros id.
    destruct (getDecorations_from [] decorations id Hall (NoDup_nil_2))
      as [_ Hget].
    unfold AbstractTreeDecoratorService.getDecorations. rewrite Hget.
    simpl. by destruct (omap _ decorations).
Qed.

(** The theorem at two decorators, of which both decorate "a" and the
    second alone decorates "b". *)
Lemma getDecorations_collects_by_id_witness :
  AbstractTreeDecoratorService.get "a"
    (AbstractTreeDecoratorService.getDecorations
       [[("a", 1)]; [("b", 2); ("a", 3)]]) = Some [1; 3]
  ∧ AbstractTreeDecoratorService.get "c"
      (AbstractTreeDecoratorService.getDecorations
         [[("a", 1)]; [("b", 2); ("a", 3)]]) = None.
Proof.
  destruct (getDecorations_collects_by_id
              [[("a", 1)]; [("b", 2); ("a", 3)]]) as [_ Hget].
  - repeat constructor; refine (bool_decide_unpack _ _); vm_compute; exact I.
  - split; rewrite Hget; reflexivity.
Defined.

(** * Decorations: what the cache remembers *)

Section cache_reads.
Implicit Types (w : Wrapper) (uri : list string).


Lemma getOrRetrieve_sync uri includeChildren w od :
  TernarySearchTree.get (data w) uri = Undefined →
  provider w (calls w) uri = Now od →
  (DecorationProviderWrapper.getOrRetrieve uri includeChildren w).2
  = mkWrapper (provider w)
              (<[uri := match od with
                        | Some d => Resolved d
                        | None => Undefined
                        end]> (data w))
              (requests w) (S (calls w))
  ∧ ∀ d, od = Some d →
         (d, false)
         ∈ (DecorationProviderWrapper.getOrRetrieve uri includeChildren w).1.
Proof.
  intros Hget Hnow. unfold DecorationProviderWrapper.getOrRetrieve.
  rewrite Hget. unfold DecorationProviderWrapper.fetchData.
  rewrite Hget. simpl. rewrite Hnow. simpl. split; [done|].
  intros d ->. apply elem_of_app. left. by apply list_elem_of_singleton.
Qed.

Lemma get_insert_here (m : gmap (list string) slot) uri (v : slot) :
  TernarySearchTree.get (<[uri := v]> m) uri = v.
Proof. unfold TernarySearchTree.get. by rewrite lookup_insert_eq. Qed.

End cache_reads.

(** X16.  What a synchronous answer leaves in the cache.  A decoration
    that [provideDecorations] returns at once is stored: the call that
    asked reports it, and every later [getOrRetrieve] for the URI reports
    it again without asking the provider and without changing anything.
    An answer of [undefined] is stored as [undefined], which reads as
    unknown: every [getOrRetrieve] for the URI asks the provider again. *)
Theorem sync_answers_and_the_cache uri includeChildren w :
  TernarySearchTree.get (data w) uri = Undefined →
  (∀ d, provider w (calls w) uri = Now (Some d) →
        let first :=
          DecorationProviderWrapper.getOrRetrieve uri includeChildren w in
        (d, false) ∈ first.1
        ∧ calls first.2 = S (calls w)
        ∧ DecorationProviderWrapper.getOrRetrieve uri includeChildren first.2
          = first)
  ∧ ((∀ k, provider w k uri = Now None) →
     ∀ n,
       let again :=
         Nat.iter n
           (λ w, (DecorationProviderWrapper.getOrRetrieve
                    uri includeChildren w).2) w in
       calls again = calls w + n
       ∧ TernarySearchTree.get (data again) uri = Undefined).
Proof.
  intros Hget. split.
  - intros d Hnow first.
    destruct (getOrRetrieve_sync uri includeChildren w (Some d) Hget Hnow)
      as [Hw Hin].
    split_and!.
    + by apply Hin.
    + unfold first. by rewrite Hw.
    + unfold first at 1. rewrite Hw.
      unfold first, DecorationProviderWrapper.getOrRetrieve.
      cbn [data]. rewrite get_insert_here, Hget.
      unfold DecorationProviderWrapper.fetchData.
      rewrite Hget. simpl. by rewrite Hnow.
  - intros Hnone n.
    assert (∀ n, let again :=
                   Nat.iter n
                     (λ w, (DecorationProviderWrapper.getOrRetrieve
                              uri includeChildren w).2) w in
                 provider again = provider w
                 ∧ calls again = calls w + n
                 ∧ TernarySearchTree.get (data again) uri = Undefined)
      as Hall; [|by destruct (Hall n) as (_ & ? & ?)].
    clear n. intros n. induction n as [|n IH]; simpl.
    + split_and!; [done|lia|done].
    + destruct IH as (Hp & Hc & Hg).
      destruct (getOrRetrieve_sync uri includeChildren _ None Hg) as [Hw _].
      { rewrite Hp. apply Hnone. }
      rewrite Hw. simpl. split_and!; [done|lia|apply get_insert_here].
Qed.

(** The theorem at the synchronous provider of the examples, which
    decorates [file1] and nothing else. *)
Lemma sync_answers_and_the_cache_witness :
  (Examples.M, false)
  ∈ (DecorationProviderWrapper.getOrRetrieve Examples.file1_uri false
       (mkWrapper Examples.sync_provider ∅ [] 0)).1
  ∧ calls (Nat.iter 3
             (λ w, (DecorationProviderWrapper.getOrRetrieve
                      Examples.dir1_uri false w).2)
             (mkWrapper Examples.sync_provider ∅ [] 0)) = 3.
Proof.
  split.
  - destruct (sync_answers_and_the_cache Examples.file1_uri false
                (mkWrapper Examples.sync_provider ∅ [] 0)) as [Hsome _];
      [reflexivity|].
    destruct (Hsome Examples.M) as [Hin _]; [reflexivity|]. exact Hin.
  - destruct (sync_answers_and_the_cache Examples.dir1_uri false
                (mkWrapper Examples.sync_provider ∅ [] 0)) as [_ Hnone];
      [reflexivity|].
    destruct (Hnone (λ _, eq_refl) 3) as [Hcalls _]. exact Hcalls.
Defined.

(** X17.  Two spellings of cancellation.  An error that [isCancelled]
    accepts, as [cancelled()] makes and [checkCancelled] throws, has the
    message 'Cancelled' and is no cancellation for a decorations provider
    wrapper, which looks for the name and message 'Canceled' of a
    [CancellationError]; and [isCancelled] does not accept a
    [CancellationError].  So when the promise of the current request is
    rejected with the former, the entry is deleted and the next
    [getOrRetrieve] asks the provider again; when it is rejected with a
    [CancellationError], the settled request stays the entry:
    [getOrRetrieve] then reports nothing for the URI and asks nobody. *)
Theorem two_spellings_of_cancellation :
  (∀ name message,
     Cancellation.isCancelled (Some (name, message)) = true →
     DecorationProviderWrapper.isCanceled (ErrorObject name message) = false)
  ∧ Cancellation.isCancelled (Cancellation.checkCancelled (Some true)) = true
  ∧ DecorationProviderWrapper.isCanceled
      (ErrorObject Cancellation.CancellationError.1
                   Cancellation.CancellationError.2) = true
  ∧ Cancellation.isCancelled (Some Cancellation.CancellationError) = false
  ∧ ∀ w r q,
      requests w !! r = Some q → req_settled q = false →
      TernarySearchTree.get (data w) (req_uri q) = Request r →
      (∀ name message,
         Cancellation.isCancelled (Some (name, message)) = true →
         let w' :=
           (DecorationProviderWrapper.settle r
              (Rejected (ErrorObject name message)) w).2 in
         calls (DecorationProviderWrapper.getOrRetrieve
                  (req_uri q) false w').2 = S (calls w))
      ∧ (let w' :=
           (DecorationProviderWrapper.settle r
              (Rejected (ErrorObject Cancellation.CancellationError.1
                                     Cancellation.CancellationError.2))
              w).2 in
         DecorationProviderWrapper.getOrRetrieve (req_uri q) false w'
         = ([], w')).
Proof.
  assert (∀ name message,
            Cancellation.isCancelled (Some (name, message)) = true →
            DecorationProviderWrapper.isCanceled (ErrorObject name message)
            = false) as Hspell.
  { intros name message Hc. simpl in *.
    apply bool_decide_eq_true_1 in Hc as ->.
    apply andb_false_intro2. reflexivity. }
  split_and!; [exact Hspell|reflexivity..|].
  intros w r q Hq Hst Hcur. split.
  - intros name message Hc w'.
    assert (TernarySearchTree.get (data w') (req_uri q) = Undefined
            ∧ calls w' = calls w) as [Hg Hcalls].
    { unfold w', DecorationProviderWrapper.settle.
      rewrite Hq, Hst, (Hspell _ _ Hc), bool_decide_eq_true_2 by done.
      simpl. split; [|done].
      unfold TernarySearchTree.get. by rewrite lookup_delete_eq. }
    unfold DecorationProviderWrapper.getOrRetrieve. rewrite Hg.
    unfold DecorationProviderWrapper.fetchData. rewrite Hg. simpl.
    rewrite <- Hcalls. by destruct (provider w' (calls w') (req_uri q)) as [?|].
  - intros w'.
    assert (TernarySearchTree.get (data w') (req_uri q) = Request r) as Hg.
    { unfold w', DecorationProviderWrapper.settle.
      rewrite Hq, Hst. simpl. exact Hcur. }
    unfold DecorationProviderWrapper.getOrRetrieve. by rewrite Hg.
Qed.

(** The theorem at the pending request of the examples. *)
Lemma two_spellings_of_cancellation_witness :
  DecorationProviderWrapper.isCanceled (ErrorObject "Error" "Cancelled")
  = false
  ∧ calls (DecorationProviderWrapper.getOrRetrieve Examples.dir1_uri false
             (DecorationProviderWrapper.settle 0
                (Rejected (ErrorObject "Error" "Cancelled"))
                Examples.pending_dir1).2).2 = 2.
Proof.
  destruct two_spellings_of_cancellation as (Hspell & _ & _ & _ & Hreq).
  split.
  - apply Hspell. reflexivity.
  - destruct (Hreq Examples.pending_dir1 0
                (mkRequest Examples.dir1_uri false false))
      as [Hagain _]; [reflexivity..|].
    apply (Hagain "Error" "Cancelled"). reflexivity.
Defined.

(** * The source tree: the children of a parent *)


Section resolveChildren_facts.
Implicit Types (st : TreeState) (el : TreeElement) (par n x : loc).








End resolveChildren_facts.




(** * Cancellation token sources *)

Section source_facts.
Import CancellationTokenSource.

Lemma step_inv o c s :
  source_inv c s →
  ∃ s', step o s = Some s'
        ∧ source_inv (c || bool_decide (o = Cancel ∨ o = Dispose)) s'.
Proof.
  unfold source_inv. destruct s as [t f]. simpl.
  destruct c; simpl.
  - intros [Hf [->| ->]]; destruct o; simpl; eauto.
  - intros [-> [->|[e ->]]]; destruct o; simpl;
      try destruct e; simpl; eauto 10.
Qed.

Lemma run_inv ops c s :
  source_inv c s →
  ∃ s', run ops s = Some s'
        ∧ source_inv
            (c || bool_decide (Cancel ∈ ops ∨ Dispose ∈ ops)) s'.
Proof.
  revert c s. induction ops as [|o ops IH]; intros c s Hinv.
  - exists s. split; [done|].
    rewrite bool_decide_eq_false_2, orb_false_r; [done|].
    by intros [?%elem_of_nil|?%elem_of_nil].
  - destruct (step_inv o c s Hinv) as (s1 & Hstep & Hinv1).
    destruct (IH _ _ Hinv1) as (s' & Hrun & Hinv').
    exists s'. split.
    { change (run (o :: ops) s) with (step o s ≫= run ops).
      by rewrite Hstep. }
    replace (c || bool_decide (Cancel ∈ o :: ops ∨ Dispose ∈ o :: ops))
      with (c || bool_decide (o = Cancel ∨ o = Dispose)
            || bool_decide (Cancel ∈ ops ∨ Dispose ∈ ops)); [done|].
    rewrite <- orb_assoc. f_equal.
    destruct (bool_decide (o = Cancel ∨ o = Dispose)) eqn:Ho;
      destruct (bool_decide (Cancel ∈ ops ∨ Dispose ∈ ops)) eqn:Hops;
      simpl; symmetry.
    + apply bool_decide_eq_true_2. apply bool_decide_eq_true_1 in Ho.
      destruct Ho as [->| ->]; [left|right]; by left.
    + apply bool_decide_eq_true_2. apply bool_decide_eq_true_1 in Ho.
      destruct Ho as [->| ->]; [left|right]; by left.
    + apply bool_decide_eq_true_2. apply bool_decide_eq_true_1 in Hops.
      destruct Hops; [left|right]; by right.
    + apply bool_decide_eq_false_2. apply bool_decide_eq_false_1 in Ho.
      apply bool_decide_eq_false_1 in Hops.
      intros [[?|?]%elem_of_cons|[?|?]%elem_of_cons]; naive_solver.
Qed.

End source_facts.

(** X19.  A [CancellationTokenSource] made without a parent, under any
    sequence of reading its token, reading the token's
    [onCancellationRequested], [cancel()] and [dispose()]: no call
    throws; the token reports
    [isCancellationRequested] exactly when [cancel()] or [dispose()] has
    been called, so [dispose()] cancels and nothing takes a cancellation
    back; the emitter is fired once at most; and [_token] is never
    [CancellationToken.None]. *)
Theorem dispose_cancels_for_good (ops : list CancellationTokenSource.op) :
  ∃ s,
    CancellationTokenSource.run ops CancellationTokenSource.new = Some s
    ∧ CancellationTokenSource.isCancellationRequested
        (CancellationTokenSource.token s).1
      = bool_decide (CancellationTokenSource.Cancel ∈ ops
                     ∨ CancellationTokenSource.Dispose ∈ ops)
    ∧ CancellationTokenSource.fired s ≤ 1
    ∧ CancellationTokenSource._token s
      ≠ Some CancellationTokenSource.TokenNone.
Proof.
  destruct (run_inv ops false CancellationTokenSource.new)
    as (s & Hrun & Hinv).
  { split; [done|]. by left. }
  exists s. split; [done|]. simpl in Hinv.
  unfold CancellationTokenSource.source_inv in Hinv.
  unfold CancellationTokenSource.token.
  destruct (bool_decide _).
  - destruct Hinv as [Hf [Ht|Ht]]; rewrite Ht; split_and!; done.
  - destruct Hinv as [Hf [Ht|[e Ht]]]; rewrite Ht, Hf;
      split_and!; done || lia.
Qed.

(** * Disposable stores *)

Section disposable_facts.
Context {E : Type} (throws : list nat → nat → option E).
Context (DISABLE_DISPOSED_WARNING : bool).
Import DisposableStore.

Lemma dispose_loop_log (arg : list (option nat)) log (errors : list E) :
  (Lifecycle.dispose_loop throws arg log errors).1
  = log ++ omap (λ d, d) arg.
Proof.
  revert log errors. induction arg as [|[d|] rest IH]; intros log errors;
    simpl.
  - by rewrite app_nil_r.
  - rewrite IH. by rewrite <- app_assoc.
  - apply IH.
Qed.

Lemma dispose_log (arg : list (option nat)) log :
  (Lifecycle.dispose throws arg log).2 = log ++ omap (λ d, d) arg.
Proof.
  unfold Lifecycle.dispose. rewrite <- (dispose_loop_log arg log []).
  by destruct (Lifecycle.dispose_loop throws arg log []).
Qed.

Lemma omap_Some_fmap (l : list nat) :
  omap (λ d, d) (Some <$> l) = l.
Proof. induction l; simpl; by f_equal. Qed.

Lemma clear_post (s : Store) :
  _toDispose (clear throws s).2 = []
  ∧ _isDisposed (clear throws s).2 = _isDisposed s
  ∧ disposed (clear throws s).2 = disposed s ++ _toDispose s.
Proof.
  unfold clear. case_bool_decide as Hlen.
  - apply nil_length_inv in Hlen. rewrite Hlen, app_nil_r. done.
  - pose proof (dispose_log (Some <$> _toDispose s) (disposed s)) as Hlog.
    destruct (Lifecycle.dispose throws _ _) as [t log]. simpl in *.
    by rewrite Hlog, omap_Some_fmap.
Qed.

Lemma add_post (a : argument) (s : Store) :
  _isDisposed s = false → NoDup (_toDispose s) →
  let s' := (add (E := E) DISABLE_DISPOSED_WARNING a s).2 in
  _isDisposed s' = false ∧ NoDup (_toDispose s')
  ∧ disposed s' = disposed s
  ∧ ∀ d, d ∈ _toDispose s' ↔ d ∈ _toDispose s ∨ a = Object d.
Proof.
  intros Hd Hnd. destruct a as [| |d0]; simpl.
  - split_and!; try done. intros d. split; [by left|by intros [?|?]].
  - split_and!; try done. intros d. split; [by left|by intros [?|?]].
  - rewrite Hd. simpl. case_bool_decide as Hin.
    + split_and!; try done. intros d. split; [by left|].
      intros [?|Heq]; [done|]. by simplify_eq.
    + split_and!; try done.
      * apply NoDup_app. split_and!; [done| |apply NoDup_singleton].
        intros x Hx Hx'. apply list_elem_of_singleton in Hx'. by subst.
      * intros d. rewrite elem_of_app, list_elem_of_singleton.
        split; (intros [?|Heq]; [by left|right; by simplify_eq]).
Qed.

Lemma adds_post (args : list argument) (s : Store) :
  _isDisposed s = false → NoDup (_toDispose s) →
  let s' := run throws DISABLE_DISPOSED_WARNING (Add <$> args) s in
  _isDisposed s' = false ∧ NoDup (_toDispose s')
  ∧ disposed s' = disposed s
  ∧ ∀ d, d ∈ _toDispose s' ↔ d ∈ _toDispose s ∨ Object d ∈ args.
Proof.
  revert s. induction args as [|a args IH]; intros s Hd Hnd.
  - simpl. split_and!; try done. intros d. rewrite elem_of_nil.
    clear. tauto.
  - destruct (add_post a s Hd Hnd) as (H1 & H2 & H3 & H4).
    destruct (IH _ H1 H2) as (H5 & H6 & H7 & H8).
    cbn zeta in *.
    change (run throws DISABLE_DISPOSED_WARNING (Add <$> a :: args) s)
      with (run throws DISABLE_DISPOSED_WARNING (Add <$> args)
              (add (E := E) DISABLE_DISPOSED_WARNING a s).2).
    split_and!; try done.
    + by rewrite H7.
    + intros d. rewrite H8, H4, elem_of_cons. clear. intuition congruence.
Qed.

Lemma step_after_dispose (o : op) (s : Store) :
  _isDisposed s = true → _toDispose s = [] →
  let s' := step throws DISABLE_DISPOSED_WARNING o s in
  _isDisposed s' = true ∧ _toDispose s' = [] ∧ disposed s' = disposed s.
Proof.
  intros Hd Hnil. destruct o as [[| |d]| |]; simpl.
  - done.
  - done.
  - rewrite Hd. by destruct DISABLE_DISPOSED_WARNING.
  - unfold clear. by rewrite Hnil.
  - unfold dispose. by rewrite Hd.
Qed.

Lemma run_after_dispose (ops : list op) (s : Store) :
  _isDisposed s = true → _toDispose s = [] →
  let s' := run throws DISABLE_DISPOSED_WARNING ops s in
  _isDisposed s' = true ∧ _toDispose s' = [] ∧ disposed s' = disposed s.
Proof.
  revert s. induction ops as [|o ops IH]; intros s Hd Hnil; [done|].
  destruct (step_after_dispose o s Hd Hnil) as (H1 & H2 & H3).
  destruct (IH _ H1 H2) as (H4 & H5 & H6).
  simpl. split_and!; try done. by rewrite H6.
Qed.

End disposable_facts.

(** X20.  A [DisposableStore] disposes once.  [dispose()] calls
    [dispose] on every object that was added, once each however often it
    was added and whatever the objects throw; and it is the last time the
    store disposes of anything: whatever is called on the store afterwards,
    [add], [clear] or [dispose], no object is disposed, so what is added
    after [dispose()] is never disposed of, and the set stays empty. *)
Theorem disposable_store_disposes_once {E : Type}
    (throws : list nat → nat → option E) (DISABLE_DISPOSED_WARNING : bool)
    (args : list DisposableStore.argument) (ops : list DisposableStore.op) :
  let s1 :=
    DisposableStore.run throws DISABLE_DISPOSED_WARNING
      (DisposableStore.Add <$> args) DisposableStore.new in
  let s2 := (DisposableStore.dispose throws s1).2 in
  let s3 := DisposableStore.run throws DISABLE_DISPOSED_WARNING ops s2 in
  NoDup (DisposableStore.disposed s2)
  ∧ (∀ d, d ∈ DisposableStore.disposed s2
          ↔ DisposableStore.Object d ∈ args)
  ∧ DisposableStore.disposed s3 = DisposableStore.disposed s2
  ∧ DisposableStore._toDispose s3 = [].
Proof.
  intros s1 s2 s3.
  destruct (adds_post throws DISABLE_DISPOSED_WARNING args
              DisposableStore.new eq_refl (NoDup_nil_2))
    as (Hd1 & Hnd1 & Hlog1 & Hin1).
  fold s1 in Hd1, Hnd1, Hlog1, Hin1.
  assert (DisposableStore._isDisposed s2 = true
          ∧ DisposableStore._toDispose s2 = []
          ∧ DisposableStore.disposed s2 = DisposableStore._toDispose s1)
    as (Hd2 & Hnil2 & Hlog2).
  { unfold s2, DisposableStore.dispose. rewrite Hd1.
    match goal with
    | |- context [DisposableStore.clear _ ?s0] =>
        destruct (clear_post throws s0) as (H1 & H2 & H3)
    end.
    rewrite H1, H2, H3. simpl. by rewrite Hlog1. }
  destruct (run_after_dispose throws DISABLE_DISPOSED_WARNING ops s2
              Hd2 Hnil2) as (_ & Hnil3 & Hlog3).
  split_and!.
  - by rewrite Hlog2.
  - intros d. rewrite Hlog2, Hin1. simpl. split; [|by right].
    by intros [?%elem_of_nil|?].
  - exact Hlog3.
  - exact Hnil3.
Qed.

(** * Retrying a task *)

Section retry_facts.
Context {T E : Type}.
Implicit Types (task : nat → T + E).

Lemma retry_loop_success task remaining i lastError k value :
  i ≤ k → k < i + remaining →
  (∀ j, i ≤ j → j < k → ∃ error, task j = inr error) →
  task k = inl value →
  PromiseUtil.retry_loop task remaining i lastError
  = (PromiseUtil.Resolved value, S k, k).
Proof.
  revert i lastError.
  induction remaining as [|r IH]; intros i lastError Hik Hk Hfail Hok;
    [lia|].
  simpl. destruct (decide (i = k)) as [->|Hne].
  - by rewrite Hok.
  - destruct (Hfail i) as [error ->]; [lia..|].
    apply IH; [lia..| |done]. intros j ? ?. apply Hfail; lia.
Qed.

Lemma retry_loop_failure task remaining i lastError :
  (∀ j, i ≤ j → j < i + remaining → ∃ error, task j = inr error) →
  PromiseUtil.retry_loop task remaining i lastError
  = (PromiseUtil.Rejected
       (match remaining with
        | 0 => lastError
        | S r => match task (i + r) with
                 | inr error => Some error
                 | inl _ => None
                 end
        end), i + remaining, i + remaining).
Proof.
  revert i lastError.
  induction remaining as [|r IH]; intros i lastError Hfail; simpl.
  - by rewrite Nat.add_0_r.
  - destruct (Hfail i) as [error Herr]; [lia..|]. rewrite Herr.
    rewrite IH by (intros j ? ?; apply Hfail; lia).
    replace (S i + r) with (i + S r) by lia. f_equal. f_equal.
    destruct r as [|r]; simpl.
    + by rewrite Nat.add_0_r, Herr.
    + by replace (S (i + r)) with (i + S r) by lia.
Qed.

End retry_facts.

(** X21.  [retry(task, retryDelay, retries)] calls the task until a call
    succeeds, [retries] times at most, and waits [retryDelay] after every
    failure.  If call [k] is the first that succeeds, the promise resolves
    to its value after [k + 1] calls and [k] waits.  If the first
    [retries] calls all fail, it is rejected with the error of the last of
    them after [retries] calls and as many waits, the wait after the last
    failure included; with no retries allowed, it is rejected with
    [undefined] and the task is never called. *)
Theorem retry_first_success_or_last_error {T E : Type}
    (task : nat → T + E) (retries : nat) :
  (∀ k value,
     k < retries →
     (∀ j, j < k → ∃ error, task j = inr error) →
     task k = inl value →
     PromiseUtil.retry task (Z.of_nat retries)
     = (PromiseUtil.Resolved value, S k, k))
  ∧ ((∀ j, j < retries → ∃ error, task j = inr error) →
     PromiseUtil.retry task (Z.of_nat retries)
     = (PromiseUtil.Rejected
          (match retries with
           | 0 => None
           | S r => match task r with
                    | inr error => Some error
                    | inl _ => None
                    end
           end), retries, retries))
  ∧ (∀ retries', (retries' ≤ 0)%Z →
       PromiseUtil.retry task retries'
       = (PromiseUtil.Rejected None, 0, 0)).
Proof.
  unfold PromiseUtil.retry. rewrite Nat2Z.id. split_and!.
  - intros k value Hk Hfail Hok.
    apply retry_loop_success; [lia|lia| |done].
    intros j _ ?. by apply Hfail.
  - intros Hfail.
    rewrite retry_loop_failure by (intros j _ ?; apply Hfail; lia).
    done.
  - intros retries' Hneg. by replace (Z.to_nat retries') with 0 by lia.
Qed.

(** The theorem at a task that fails twice with "e" and then succeeds
    with 7, allowed three calls and allowed two. *)
Lemma retry_first_success_or_last_error_witness :
  PromiseUtil.retry
    (λ i, if decide (i < 2) then inr "e" else inl 7%Z) 3
  = (PromiseUtil.Resolved 7%Z, 3, 2)
  ∧ PromiseUtil.retry
      (λ i, if decide (i < 2) then inr "e" else inl 7%Z) 2
    = (PromiseUtil.Rejected (Some "e"), 2, 2).
Proof.
  split.
  - destruct (retry_first_success_or_last_error
                (λ i, if decide (i < 2) then inr "e" else inl 7%Z) 3)
      as (Hok & _ & _).
    apply (Hok 2 7%Z); [lia| |reflexivity].
    intros j Hj. exists "e". by rewrite decide_True.
  - destruct (retry_first_success_or_last_error
                (λ i, if decide (i < 2) then inr "e" else inl 7%Z) 2)
      as (_ & Hfail & _).
    apply Hfail. intros j Hj. exists "e". by rewrite decide_True.
Defined.

(** * The ranges of a fuzzy match *)

Section fuzzy_facts.
Import FuzzySearch.
Implicit Types (copy pre u m rest : list N)
  (segments : list (list N * list N)).

Lemma indexOf_cons c copy unit :
  indexOf (c :: copy) unit
  = if decide (c = unit) then 0%Z
    else if decide (indexOf copy unit = -1)%Z then (-1)%Z
         else (indexOf copy unit + 1)%Z.
Proof.
  unfold indexOf. simpl. destruct (decide (c = unit)); [done|].
  destruct (list_find _ copy) as [[i x]|]; simpl; [|done].
  rewrite decide_False by lia. lia.
Qed.

Lemma indexOf_absent copy unit : unit ∉ copy → indexOf copy unit = (-1)%Z.
Proof.
  induction copy as [|c copy IH]; [done|].
  intros [Hne Hnin]%not_elem_of_cons. rewrite indexOf_cons.
  rewrite decide_False by done. by rewrite IH, decide_True.
Qed.

Lemma indexOf_middle pre unit rest :
  unit ∉ pre → indexOf (pre ++ unit :: rest) unit = Z.of_nat (length pre).
Proof.
  induction pre as [|c pre IH]; simpl.
  - intros _. rewrite indexOf_cons. by rewrite decide_True.
  - intros [Hne Hnin]%not_elem_of_cons. rewrite indexOf_cons.
    rewrite decide_False by done. rewrite IH by done.
    rewrite decide_False by lia. lia.
Qed.

Lemma unmarked_app l1 l2 : unmarked l1 → unmarked l2 → unmarked (l1 ++ l2).
Proof.
  unfold unmarked. intros [? ?] [? ?].
  split; intros [?|?]%elem_of_app; done.
Qed.

Lemma marked_cons u m segments rest :
  marked ((u, m) :: segments) rest
  = u ++ PRE :: m ++ POST :: marked segments rest.
Proof.
  unfold marked. simpl. rewrite <- !app_assoc. simpl.
  by rewrite <- !app_assoc.
Qed.

Lemma plain_cons u m segments rest :
  plain ((u, m) :: segments) rest = u ++ m ++ plain segments rest.
Proof.
  unfold plain. simpl. by rewrite <- !app_assoc.
Qed.

(** The first pair of marks in a string that is marked from [pre] on. *)
Lemma indexOf_marks pre u m copy :
  unmarked pre → unmarked u → unmarked m →
  indexOf (pre ++ u ++ PRE :: m ++ POST :: copy) PRE
  = Z.of_nat (length pre + length u)
  ∧ indexOf (pre ++ u ++ PRE :: m ++ POST :: copy) POST
    = Z.of_nat (length pre + length u + 1 + length m).
Proof.
  intros Hpre Hu Hm. split.
  - rewrite app_assoc, indexOf_middle.
    + by rewrite length_app.
    + by apply unmarked_app.
  - replace (pre ++ u ++ PRE :: m ++ POST :: copy)
      with ((pre ++ u ++ [PRE] ++ m) ++ POST :: copy)
      by (by rewrite <- !app_assoc).
    rewrite indexOf_middle.
    + rewrite !length_app. simpl. lia.
    + destruct Hpre as [_ Hpre], Hu as [_ Hu], Hm as [_ Hm].
      rewrite !elem_of_app, list_elem_of_singleton.
      intros [?|[?|[?|?]]]; done.
Qed.

Lemma mapRanges_loop_done fuel copy ranges :
  indexOf copy PRE = (-1)%Z →
  mapRanges_loop fuel copy ranges = Some ranges.
Proof. intros Hpre. destruct fuel; simpl; by rewrite Hpre. Qed.

Lemma indexOf_found copy unit :
  indexOf copy unit ≠ (-1)%Z →
  is_Some (copy !! Z.to_nat (indexOf copy unit)).
Proof.
  unfold indexOf. destruct (list_find _ copy) as [[i x]|] eqn:Hfind;
    [|done].
  intros _. apply list_find_Some in Hfind as [Hi _].
  rewrite Nat2Z.id. eauto.
Qed.

Lemma length_splice1 index copy :
  length (splice1 index copy) ≤ length copy.
Proof.
  unfold splice1. generalize (Z.to_nat index). intros i. revert i.
  induction copy as [|c copy IH]; intros [|i]; simpl; try lia.
  specialize (IH i). lia.
Qed.

(** The loop ends before the fuel does. *)
Lemma mapRanges_loop_returns fuel copy ranges :
  length copy ≤ fuel → is_Some (mapRanges_loop fuel copy ranges).
Proof.
  revert copy ranges. induction fuel as [|fuel IH]; intros copy ranges Hlen.
  - destruct copy; [|simpl in Hlen; lia]. by eexists.
  - cbn [mapRanges_loop].
    destruct (bool_decide (indexOf copy PRE ≠ (-1)%Z)
              && bool_decide (indexOf copy POST ≠ (-1)%Z)) eqn:Hcond;
      [|by eexists].
    apply andb_true_iff in Hcond as [_ Hpost%bool_decide_eq_true_1].
    apply IH. apply indexOf_found in Hpost.
    pose proof (length_splice1 (indexOf copy PRE)
                  (splice1 (indexOf copy POST) copy)) as Hle.
    unfold splice1 in *. rewrite (length_delete copy) in Hle by done.
    apply lookup_lt_is_Some in Hpost. lia.
Qed.

Lemma mapRanges_returns (input : list N) : is_Some (mapRanges input).
Proof.
  unfold mapRanges.
  destruct (_ || _); [by eexists|].
  destruct (mapRanges_loop_returns (length input) input [])
    as [ranges ->]; [done|].
  simpl. case_bool_decide; by eexists.
Qed.

Lemma marked_length segments rest :
  length segments ≤ length (marked segments rest).
Proof.
  induction segments as [|[u m] segments IH]; simpl; [lia|].
  rewrite marked_cons, !length_app. simpl. rewrite length_app. simpl. lia.
Qed.

Lemma mapRanges_loop_marked fuel pre segments rest ranges :
  unmarked pre →
  Forall (λ '(u, m), unmarked u ∧ unmarked m) segments → unmarked rest →
  length segments ≤ fuel →
  mapRanges_loop fuel (pre ++ marked segments rest) ranges
  = Some (ranges ++ ranges_from (length pre) segments).
Proof.
  revert fuel pre ranges.
  induction segments as [|[u m] segments IH];
    intros fuel pre ranges Hpre Hall Hrest Hfuel.
  - simpl. rewrite app_nil_r. apply mapRanges_loop_done.
    apply indexOf_absent. unfold marked. simpl.
    by apply (unmarked_app pre rest).
  - apply Forall_cons in Hall as [[Hu Hm] Hall].
    destruct fuel as [|fuel]; [simpl in Hfuel; lia|].
    rewrite marked_cons.
    destruct (indexOf_marks pre u m (marked segments rest) Hpre Hu Hm)
      as [Hi Hj].
    cbn [mapRanges_loop]. rewrite Hi, Hj.
    rewrite !bool_decide_eq_true_2 by lia. cbn [andb].
    unfold splice1. rewrite !Nat2Z.id.
    replace (pre ++ u ++ PRE :: m ++ POST :: marked segments rest)
      with ((pre ++ u ++ PRE :: m) ++ POST :: marked segments rest)
      by (repeat (rewrite <- app_assoc; simpl); done).
    replace (length pre + length u + 1 + length m)
      with (length (pre ++ u ++ PRE :: m))
      by (rewrite !length_app; simpl; lia).
    rewrite delete_middle.
    replace ((pre ++ u ++ PRE :: m) ++ marked segments rest)
      with ((pre ++ u) ++ PRE :: m ++ marked segments rest)
      by (repeat (rewrite <- app_assoc; simpl); done).
    replace (length pre + length u) with (length (pre ++ u))
      by (by rewrite length_app).
    rewrite delete_middle.
    replace ((pre ++ u) ++ m ++ marked segments rest)
      with ((pre ++ u ++ m) ++ marked segments rest)
      by (repeat (rewrite <- app_assoc; simpl); done).
    rewrite IH; [|by repeat apply unmarked_app|done|done|simpl in Hfuel; lia].
    rewrite <- app_assoc. simpl. rewrite !length_app.
    replace (length pre + (length u + length m))
      with (length pre + length u + length m) by lia.
    do 3 f_equal. f_equal. simpl length. lia.
Qed.

Lemma ranges_from_length from segments :
  length (ranges_from from segments) = length segments.
Proof.
  revert from. induction segments as [|[u m] segments IH]; intros from;
    simpl; by rewrite ?IH.
Qed.

Lemma ranges_from_lookup pre segments rest k u m :
  segments !! k = Some (u, m) →
  ∃ r, ranges_from (length pre) segments !! k = Some r
       ∧ (0 ≤ offset r)%Z
       ∧ range_length r = Z.of_nat (length m)
       ∧ take (length m)
              (drop (Z.to_nat (offset r)) (pre ++ plain segments rest))
         = m.
Proof.
  revert pre k. induction segments as [|[u0 m0] segments IH];
    intros pre k Hk; [done|].
  destruct k as [|k]; simpl in Hk.
  - simplify_eq. eexists. split; [done|]. simpl.
    split_and!; [lia|done|].
    rewrite Nat2Z.id, plain_cons, app_assoc, <- length_app.
    by rewrite drop_app_length, take_app_length.
  - destruct (IH (pre ++ u0 ++ m0) k Hk) as (r & Hr & H0 & Hlen & Htake).
    exists r. simpl. rewrite !length_app in Hr.
    replace (length pre + length u0 + length m0)
      with (length pre + (length u0 + length m0)) by lia.
    split_and!; [done..|].
    rewrite plain_cons. by rewrite <- !app_assoc in Htake.
Qed.

End fuzzy_facts.

(** X22.  [FuzzySearch.mapRanges] on a string in which every match is
    wrapped in one [PRE] and one [POST]: it returns one range for each
    match, in order, and the ranges place the matches in the string
    without the marks: the [length] units from [offset] on are the match.
    A string without marks makes it throw for having no ranges. *)
Theorem mapRanges_locates_the_matches
    (segments : list (list N * list N)) (rest : list N) :
  Forall (λ '(u, m), FuzzySearch.unmarked u ∧ FuzzySearch.unmarked m)
         segments →
  FuzzySearch.unmarked rest →
  (segments = [] →
   FuzzySearch.mapRanges (FuzzySearch.marked segments rest)
   = Some (inl FuzzySearch.UnexpectedZeroRanges))
  ∧ (segments ≠ [] →
     ∃ ranges,
       FuzzySearch.mapRanges (FuzzySearch.marked segments rest)
       = Some (inr ranges)
       ∧ length ranges = length segments
       ∧ ∀ k u m,
           segments !! k = Some (u, m) →
           ∃ r, ranges !! k = Some r
                ∧ (0 ≤ FuzzySearch.offset r)%Z
                ∧ FuzzySearch.range_length r = Z.of_nat (length m)
                ∧ take (length m)
                       (drop (Z.to_nat (FuzzySearch.offset r))
                             (FuzzySearch.plain segments rest))
                  = m).
Proof.
  intros Hall Hrest.
  pose proof (mapRanges_loop_marked
                (length (FuzzySearch.marked segments rest)) [] segments rest
                [] (conj (not_elem_of_nil _) (not_elem_of_nil _)) Hall Hrest
                (marked_length segments rest)) as Hloop.
  simpl in Hloop. split.
  - intros ->. unfold FuzzySearch.mapRanges.
    unfold FuzzySearch.marked in *. simpl in *.
    destruct Hrest as [Hpre Hpost].
    rewrite !indexOf_absent by done. simpl. by rewrite Hloop.
  - intros Hne. exists (FuzzySearch.ranges_from 0 segments).
    split_and!.
    + unfold FuzzySearch.mapRanges. rewrite Hloop.
      destruct segments as [|[u m] segments]; [done|].
      apply Forall_cons in Hall as [[Hu Hm] _].
      rewrite marked_cons.
      destruct (indexOf_marks [] u m
                  (FuzzySearch.marked segments rest)
                  (conj (not_elem_of_nil _) (not_elem_of_nil _)) Hu Hm)
        as [Hi Hj].
      simpl in Hi, Hj. rewrite Hi, Hj.
      rewrite bool_decide_eq_false_2 by lia.
      rewrite !(bool_decide_eq_false_2 (_ = -1)%Z) by lia.
      done.
    + apply ranges_from_length.
    + intros k u m Hk.
      apply (ranges_from_lookup [] segments rest k u m Hk).
Qed.

(** The theorem at the string "a<bc>d<e>f", [<] and [>] standing for the
    marks, whose matches are "bc" at 1 and "e" at 4 of "abcdef". *)
Lemma mapRanges_locates_the_matches_witness :
  ∃ ranges,
    FuzzySearch.mapRanges
      (FuzzySearch.marked [([97], [98; 99]); ([100], [101])] [102])%N
    = Some (inr ranges)
    ∧ length ranges = 2.
Proof.
  destruct (mapRanges_locates_the_matches
              [([97], [98; 99]); ([100], [101])]%N [102]%N)
    as [_ Hsome].
  - repeat constructor; refine (bool_decide_unpack _ _); vm_compute;
      exact I.
  - split; refine (bool_decide_unpack _ _); vm_compute; exact I.
  - destruct Hsome as (ranges & Hmap & Hlen & _); [discriminate|].
    exists ranges. split; [exact Hmap|exact Hlen].
Defined.

(** * Cancelling a refresh *)

Section cancellation_facts.
Implicit Types (st : TreeState) (env : TreeImpl.RefreshEnv).

(** With a resolver that writes nothing, [refresh_by] is [refresh]. *)
Lemma refresh_by_resolved fuel raw token env st :
  TreeImpl.refresh_by (λ _ st, Some (TreeImpl.resolved env, st))
                      fuel raw token env st
  = TreeImpl.refresh fuel raw token env st.
Proof.
  unfold TreeImpl.refresh_by, TreeImpl.refresh.
  destruct (TreeImpl.refreshTarget raw st) as [p|]; [|done].
  by destruct (CompositeTreeNode.is_ (heap st) p).
Qed.


End cancellation_facts.



(** * What [getDecoration] returns, leaves and throws *)

Section throwing_facts.
Implicit Types (t : Thrower) (w : Wrapper) (uri : list string).

Lemma getDecoration_loop_states uri includeChildren (ws : list Wrapper) :
  (DecorationsServiceImpl.getDecoration_loop uri includeChildren ws).2
  = (λ w, (DecorationProviderWrapper.getOrRetrieve
             uri includeChildren w).2) <$> ws.
Proof.
  induction ws as [|w ws IH]; [done|]. simpl.
  destruct (DecorationProviderWrapper.getOrRetrieve uri includeChildren w).
  destruct (DecorationsServiceImpl.getDecoration_loop uri includeChildren ws).
  simpl in *. by rewrite IH.
Qed.




End throwing_facts.



